(** * Restore map phase (worker/restore_map.go): a shallow embedding

    The development follows the Go file top to bottom: byte-level helpers,
    the [backupReader] builder, the [mapEntry] framing, the map-file writer
    ([writeToDisk], [writeNow]), the record processor ([processKV],
    [processReqCh]) and the planner ([RunMapper]).

    Conventions.
    - Go [uint16]/[uint32]/[uint64] values are [Z] with the wrap-around
      written out where the code can overflow; Go [int] sizes are [Z].
    - [[]byte] is [list byte]; Go strings are [string].
    - Go maps used as sets ([predicateSet], [dropNs], [dropAttr]) are [gset];
      [manifest.Groups] is a [gmap].
    - A Go [error] result is a [res]: [Ok v] for a nil error, [Err e]
      otherwise.  A run-time panic of a slice expression is [None].
    - Functions of other packages (x, posting, pb, badger/y, ristretto/z,
      the transport) are not part of this file of the repository; they are
      the fields of the interface records [WriterDeps], [ProcDeps] and
      [PlanDeps] below, or are modelled where their behaviour is fixed by the
      Go standard library.
    - File and network operations are followed on the path where they
      succeed, unless an error of theirs is returned by a function below. *)

From Stdlib Require Import ZArith List Lia Bool.
From Stdlib.Strings Require Import Byte.
From stdpp Require Import base decidable option list sorting gmap strings.

Open Scope Z_scope.

(** ** Bytes and the encoding/binary helpers *)

Abbreviation bytes := (list byte).

#[global] Instance byte_eq_decision : EqDecision byte := byte_eq_dec.

Definition byte_to_Z (b : byte) : Z := Z.of_N (Byte.to_N b).

(** Go's [byte(v)] conversion: the low eight bits. *)
Definition Z_to_byte (z : Z) : byte :=
  default x00 (Byte.of_N (Z.to_N (z mod 256))).

Definition len {A} (l : list A) : Z := Z.of_nat (length l).

(** Go's [uint16(n)] conversion of an [int]. *)
Definition uint16 (n : Z) : Z := n mod 65536.
Definition uint32 (n : Z) : Z := n mod 4294967296.

(** [binary.BigEndian.PutUint16]: [b[0] = byte(v >> 8); b[1] = byte(v)]. *)
Definition PutUint16 (v : Z) : bytes :=
  [Z_to_byte (Z.shiftr v 8); Z_to_byte v].

(** [binary.BigEndian.Uint16]: [uint16(b[1]) | uint16(b[0])<<8]. *)
Definition Uint16 (b0 b1 : byte) : Z :=
  Z.lor (byte_to_Z b1) (Z.shiftl (byte_to_Z b0) 8).

(** [binary.BigEndian.PutUint32]. *)
Definition PutUint32 (v : Z) : bytes :=
  [Z_to_byte (Z.shiftr v 24); Z_to_byte (Z.shiftr v 16);
   Z_to_byte (Z.shiftr v 8); Z_to_byte v].

(** [binary.PutUvarint]: seven bits per byte, least significant group first,
    the top bit set on every byte but the last.  A [uint64] needs at most
    [binary.MaxVarintLen64 = 10] bytes, which bounds the loop. *)
Fixpoint PutUvarint_loop (fuel : nat) (x : Z) : bytes :=
  match fuel with
  | O => []
  | S fuel' =>
      if 128 <=? x
      then Z_to_byte (Z.lor (Z.land x 255) 128) :: PutUvarint_loop fuel' (Z.shiftr x 7)
      else [Z_to_byte x]
  end.

Definition MaxVarintLen64 : nat := 10.
Definition PutUvarint (x : Z) : bytes := PutUvarint_loop MaxVarintLen64 x.

(** A Go slice expression [s[lo:hi]] on a slice whose capacity is its
    length: it panics ([None]) unless [0 <= lo <= hi <= len(s)].  On a
    window of a larger array Go bounds [hi] by the capacity; such an
    expression is [slice] on the bytes of the array, as in [KeyIn]
    below. *)
Definition slice (s : bytes) (lo hi : Z) : option bytes :=
  if (0 <=? lo) && (lo <=? hi) && (hi <=? len s)
  then Some (take (Z.to_nat (hi - lo)) (drop (Z.to_nat lo) s))
  else None.

(** [bytes.Compare]: lexicographic comparison, [-1], [0] or [+1]. *)
Fixpoint bytes_Compare (a b : bytes) : Z :=
  match a, b with
  | [], [] => 0
  | [], _ :: _ => -1
  | _ :: _, [] => 1
  | x :: a', y :: b' =>
      if byte_to_Z x <? byte_to_Z y then -1
      else if byte_to_Z y <? byte_to_Z x then 1
      else bytes_Compare a' b'
  end.

(** [bytes.Equal]. *)
Definition bytes_Equal (a b : bytes) : bool := bool_decide (a = b).

(** [y.CompareKeys] of badger: the keys without their last eight bytes are
    compared first, the eight-byte timestamp suffixes break the tie.  Go
    panics on a key shorter than eight bytes; here the subtraction
    truncates, and every statement below is about keys of length at least
    eight. *)
Definition CompareKeys (key1 key2 : bytes) : Z :=
  let n1 := (length key1 - 8)%nat in
  let n2 := (length key2 - 8)%nat in
  let cmp := bytes_Compare (take n1 key1) (take n2 key2) in
  if cmp =? 0 then bytes_Compare (drop n1 key1) (drop n2 key2) else cmp.

(** ** Errors *)

(** The errors this file creates carry their message; errors coming from
    other packages are [External]; [errors.Wrap] keeps the cause. *)
Inductive error : Type :=
  | Errorf (msg : string)
  | External (msg : string)
  | Wrap (cause : error) (msg : string).

Inductive res (A : Type) : Type :=
  | Ok (a : A)
  | Err (e : error).
Arguments Ok {A} a.
Arguments Err {A} e.

Definition is_Err {A} (r : res A) : bool :=
  match r with Ok _ => false | Err _ => true end.

(** ** backupReader *)

(** The reader stack built for one archive: the transport stream, an
    optional cipher layer and a decompression layer. *)
Inductive reader : Type :=
  | NoReader
  | Transport (file : string)
  | Cipher (encKey : bytes) (r : reader)
  | Snappy (r : reader)
  | Gzip (r : reader).

Record backupReader := {
  toClose : list reader;
  br_r : reader;
  br_err : option error;
}.

(** [setErr] latches the first error. *)
Definition setErr (br : backupReader) (err : option error) : backupReader :=
  match br_err br with
  | None => {| toClose := toClose br; br_r := br_r br; br_err := err |}
  | Some _ => br
  end.

Definition with_r (br : backupReader) (r : reader) : backupReader :=
  {| toClose := toClose br; br_r := r; br_err := br_err br |}.

Definition with_toClose (br : backupReader) (c : reader) : backupReader :=
  {| toClose := toClose br ++ [c]; br_r := br_r br; br_err := br_err br |}.

(** [gzip_NewReader] is compress/gzip's constructor: it reads the gzip
    header of the underlying stream and may fail. *)
Definition WithCompression (gzip_NewReader : reader -> res reader)
    (br : backupReader) (comp : string) : backupReader :=
  if String.eqb comp "snappy" then with_r br (Snappy (br_r br))
  else if String.eqb comp "gzip" || String.eqb comp "" then
    match gzip_NewReader (br_r br) with
    | Ok r => with_toClose (with_r (setErr br None) r) r
    | Err e => with_toClose (with_r (setErr br (Some e)) NoReader) NoReader
    end
  else
    setErr br (Some (Errorf ("Unknown compression for backup: " +:+ comp))).

(** ** mapEntry *)

(** [mapEntry]: two bytes holding the key length, the key, then the
    marshalled KV. *)
Abbreviation mapEntry := (list byte).

(** [Key]: [sz := binary.BigEndian.Uint16(me[0:2]); return me[2 : 2+sz]].
    [sz] is a [uint16], so [2+sz] is computed in [uint16]. *)
Definition Key (me : mapEntry) : option bytes :=
  match me with
  | b0 :: b1 :: _ =>
      let sz := Uint16 b0 b1 in
      slice me 2 (uint16 (2 + sz))
  | _ => None
  end.

(** [Data]: [return me[2+sz:]]. *)
Definition Data (me : mapEntry) : option bytes :=
  match me with
  | b0 :: b1 :: _ =>
      let sz := Uint16 b0 b1 in
      slice me (uint16 (2 + sz)) (len me)
  | _ => None
  end.

(** [Key] and [Data] above are the calls on an entry that fills its
    capacity.  The mergers call them on windows of a [z.Buffer]
    ([SliceIterate], [SortSlice]), whose capacity runs on over the bytes
    that follow the entry in the buffer, here [spare].  Go bounds
    [me[0:2]] and [me[2 : 2+sz]] by the capacity, so that they read the
    bytes of the array, and [me[2+sz:]] by the length.  [KeyIn] and
    [DataIn] are the calls on such a window. *)
Definition KeyIn (me : mapEntry) (spare : bytes) : option bytes :=
  match me ++ spare with
  | b0 :: b1 :: _ =>
      let sz := Uint16 b0 b1 in
      slice (me ++ spare) 2 (uint16 (2 + sz))
  | _ => None
  end.

Definition DataIn (me : mapEntry) (spare : bytes) : option bytes :=
  match me ++ spare with
  | b0 :: b1 :: _ =>
      let sz := Uint16 b0 b1 in
      slice me (uint16 (2 + sz)) (len me)
  | _ => None
  end.

(** The body of [toBuffer] once the key and the marshalled KV are known:
    [PutUint16(b[0:2], uint16(len(key)))], the key copied at [b[2:]], the KV
    marshalled at [b[2+len(key):]]. *)
Definition frameEntry (key data : bytes) : mapEntry :=
  PutUint16 (uint16 (len key)) ++ key ++ data.

(** ** z.Buffer *)

(** A [z.Buffer] used through [SliceAllocate] and [SliceIterate] is the
    sequence of its slices; each slice is stored behind a four-byte length,
    which is what [LenNoPadding] counts. *)
Abbreviation Buffer := (list bytes).

Definition IsEmpty (buf : Buffer) : bool :=
  match buf with [] => true | _ :: _ => false end.

Definition LenNoPadding (buf : Buffer) : Z :=
  fold_right (fun s acc => 4 + len s + acc) 0 buf.

(** [me.Key()] where the call returns; the empty key stands for the panic,
    and the statements about sorting and partitioning assume entries on
    which [Key] returns. *)
Definition mustKey (me : mapEntry) : bytes := default [] (Key me).

(** [z.Buffer.SortSlice(less)] of ristretto sorts the slices of the buffer
    by merging sorted runs; the left slice is taken unless the right one is
    strictly less. *)
Definition notLess (less : bytes -> bytes -> bool) : relation bytes :=
  fun l r => less r l = false.

#[global] Instance notLess_dec less : RelDecision (notLess less) :=
  fun l r => bool_eq_dec (less r l) false.

Definition SortSlice (less : bytes -> bytes -> bool) (buf : Buffer) : Buffer :=
  merge_sort (notLess less) buf.

(** ** The map-file writer *)

Record MapHeader := { PartitionKeys : list bytes }.

(** What is outside this file for the writer: the sampling interval and the
    target file size (constants of the reduce phase's file) and the
    generated marshaller of [pb.MapHeader]. *)
Class WriterDeps := {
  partitionBufSz : Z;
  mapFileSz : Z;
  MapHeader_Marshal : MapHeader -> bytes;
}.

(** One map file: its number ([%06d.map]), the header computed for it, and
    the successive [Write] calls on the snappy writer. *)
Record mapFile := {
  fileNum : Z;
  header : MapHeader;
  written : list bytes;
}.

Section Writer.
Context `{WriterDeps}.

(** The callback of the first [SliceIterate] in [writeToDisk]; the state is
    [header.PartitionKeys] and [bufSize]. *)
Definition partitionStep (st : list bytes * Z) (slice : bytes) : list bytes * Z :=
  let '(keys, bufSize) := st in
  let bufSize := bufSize + (4 + len slice) in
  if bufSize <? partitionBufSz then (keys, bufSize)
  else
    let sz := len keys in
    if (0 <? sz) && bytes_Equal (mustKey slice) (default [] (last keys))
    then (keys, bufSize)
    else (keys ++ [mustKey slice], 0).

Definition partitionKeys (buf : Buffer) : list bytes :=
  fst (fold_left partitionStep buf ([], 0)).

(** The callback of the second [SliceIterate]: the uvarint length, then the
    slice. *)
Definition writeSlice (slice : bytes) : list bytes :=
  [PutUvarint (len slice); slice].

(** [newMapFile]: [atomic.AddUint32(&mw.nextId, 1)]. *)
Definition newMapFile (nextId : Z) : Z := uint32 (nextId + 1).

(** [writeToDisk] on the path where the file operations succeed.  It
    returns the new value of [nextId] and the file written, if any. *)
Definition writeToDisk (nextId : Z) (buf : Buffer) : Z * option mapFile :=
  if IsEmpty buf then (nextId, None)
  else
    let f := newMapFile nextId in
    let header := {| PartitionKeys := partitionKeys buf |} in
    let headerBuf := MapHeader_Marshal header in
    let lenBuf := PutUint32 (uint32 (len headerBuf)) in
    (f, Some {| fileNum := f; header := header;
                written := lenBuf :: headerBuf :: flat_map writeSlice buf |}).

(** The [less] function handed to [SortSlice] by [writeNow]. *)
Definition entryLess (ls rs : bytes) : bool :=
  CompareKeys (mustKey ls) (mustKey rs) <? 0.

Definition writeNow (nextId : Z) (mbuf : Buffer) : Z * option mapFile :=
  if IsEmpty mbuf then (nextId, None)
  else writeToDisk nextId (SortSlice entryLess mbuf).

(** [mergeAndSend] for one merger: [writeCh] is the sequence of buffers it
    receives before the channel is closed.  At the hard threshold the merger
    waits for a writer slot; at the soft threshold it only tries, and
    [slots] gives the outcome of each try in turn (no more outcomes: no
    slot). *)
Fixpoint mergeAndSend (slots : list bool) (nextId : Z) (mbuf : Buffer)
    (writeCh : list Buffer) : Z * list mapFile :=
  match writeCh with
  | [] =>
      let '(nextId, f) := writeNow nextId mbuf in
      (nextId, option_list f)
  | buf :: writeCh =>
      let mbuf := mbuf ++ buf in
      let '(doWrite, slots) :=
        if mapFileSz <=? LenNoPadding mbuf then (true, slots)
        else if mapFileSz / 4 <=? LenNoPadding mbuf then
          match slots with
          | got :: slots => (got, slots)
          | [] => (false, [])
          end
        else (false, slots) in
      if doWrite then
        let '(nextId, f) := writeNow nextId mbuf in
        let '(nextId, fs) := mergeAndSend slots nextId [] writeCh in
        (nextId, option_list f ++ fs)
      else mergeAndSend slots nextId mbuf writeCh
  end.

End Writer.

(** ** Records of the protobuf and key packages *)

(** [bpb.KV] of badger. *)
Record KV := {
  kv_Key : bytes;
  kv_Value : bytes;
  kv_UserMeta : bytes;
  kv_Version : Z;
  kv_ExpiresAt : Z;
  kv_Meta : bytes;
  kv_StreamId : Z;
  kv_StreamDone : bool;
}.

Definition set_Key (kv : KV) (k : bytes) : KV :=
  {| kv_Key := k; kv_Value := kv_Value kv; kv_UserMeta := kv_UserMeta kv;
     kv_Version := kv_Version kv; kv_ExpiresAt := kv_ExpiresAt kv;
     kv_Meta := kv_Meta kv; kv_StreamId := kv_StreamId kv;
     kv_StreamDone := kv_StreamDone kv |}.

Definition set_Value (kv : KV) (v : bytes) : KV :=
  {| kv_Key := kv_Key kv; kv_Value := v; kv_UserMeta := kv_UserMeta kv;
     kv_Version := kv_Version kv; kv_ExpiresAt := kv_ExpiresAt kv;
     kv_Meta := kv_Meta kv; kv_StreamId := kv_StreamId kv;
     kv_StreamDone := kv_StreamDone kv |}.

Definition set_Version (kv : KV) (v : Z) : KV :=
  {| kv_Key := kv_Key kv; kv_Value := kv_Value kv; kv_UserMeta := kv_UserMeta kv;
     kv_Version := v; kv_ExpiresAt := kv_ExpiresAt kv;
     kv_Meta := kv_Meta kv; kv_StreamId := kv_StreamId kv;
     kv_StreamDone := kv_StreamDone kv |}.

Definition set_StreamId (kv : KV) (v : Z) : KV :=
  {| kv_Key := kv_Key kv; kv_Value := kv_Value kv; kv_UserMeta := kv_UserMeta kv;
     kv_Version := kv_Version kv; kv_ExpiresAt := kv_ExpiresAt kv;
     kv_Meta := kv_Meta kv; kv_StreamId := v;
     kv_StreamDone := kv_StreamDone kv |}.

(** Modelled from the spec: [pb.BackupKey] is declared in protos/pb, not in
    this file.  The spec's data model gives it a 64-bit namespace, an
    attribute name, a key type tag and optional sub-fields (uid, token). *)
Record BackupKey := {
  bk_Type : Z;
  bk_Attr : string;
  bk_Uid : Z;
  bk_StartUid : Z;
  bk_Term : string;
  bk_Count : Z;
  bk_Namespace : Z;
}.

(** Modelled from the spec: [x.ParsedKey] is declared in package x, not in
    this file.  The spec's parsed key has an attribute, a kind, a uid and
    the has-start-uid flag; the kind is the key's prefix byte, which is what
    [IsSchema] and [IsType] test. *)
Record ParsedKey := {
  Attr : string;
  Uid : Z;
  HasStartUid : bool;
  bytePrefix : byte;
}.

(** Package x: [DefaultPrefix = 0x00], [ByteSchema = 0x01],
    [ByteType = 0x02], [ByteSplit = 0x04]. *)
Definition ByteSchema : byte := x01.
Definition ByteType : byte := x02.

Definition IsSchema (p : ParsedKey) : bool := bool_decide (bytePrefix p = ByteSchema).
Definition IsType (p : ParsedKey) : bool := bool_decide (bytePrefix p = ByteType).

(** [pb.SchemaUpdate] and [pb.TypeUpdate]: the predicate and the type name
    are the fields this file rewrites; the other fields of a schema update
    travel unread in [su_rest]. *)
Record SchemaUpdate := {
  Predicate : string;
  su_rest : bytes;
}.

Record TypeUpdate := {
  TypeName : string;
  Fields : list SchemaUpdate;
}.

(** Package posting: the user-meta bytes of a stored value. *)
Definition BitSchemaPosting : byte := x01.
Definition BitDeltaPosting : byte := x04.
Definition BitCompletePosting : byte := x08.
Definition BitEmptyPosting : byte := x10.

(** ** The record processor *)

Record loadBackupInput := {
  preds : gset string;
  dropNs : gset Z;
  version : Z;
  keepSchema : bool;
}.

Record listReq := {
  lbuf : Buffer;
  lr_in : loadBackupInput;
}.

(** What [processKV] and [processReqCh] call in other packages. *)
Class ProcDeps := {
  (** badger/y: the key followed by its eight-byte timestamp suffix. *)
  KeyWithTs : bytes -> Z -> bytes;
  (** badger/pb: [kv.MarshalToSizedBuffer] on a buffer of [kv.Size()] bytes. *)
  KV_Marshal : KV -> bytes;
  KVList_Unmarshal : bytes -> res (list KV);
  (** protos/pb and x *)
  BackupKey_Unmarshal : bytes -> res BackupKey;
  FromBackupKey : BackupKey -> bytes;
  Parse : bytes -> res ParsedKey;
  GalaxyAttr : string -> string;
  AttrFrom2103 : string -> res string;
  SchemaUpdate_Unmarshal : bytes -> res SchemaUpdate;
  SchemaUpdate_Marshal : SchemaUpdate -> res bytes;
  TypeUpdate_Unmarshal : bytes -> res TypeUpdate;
  TypeUpdate_Marshal : TypeUpdate -> res bytes;
  (** posting *)
  BackupPostingList : Type;
  PostingList : Type;
  BackupPostingList_Unmarshal : bytes -> res BackupPostingList;
  FromBackupPostingList : BackupPostingList -> PostingList;
  ShouldSplit : PostingList -> bool;
  GetSplits : PostingList -> list Z;
  MarshalPostingList : PostingList -> KV;
  (** [posting.NewList(key, pl, minTs).Rollup(nil)] *)
  Rollup : bytes -> PostingList -> Z -> res (list KV);
}.

(** Modelled from the spec: [posting.List.Rollup] is in package posting,
    not in this file.  The spec has every record that a rollup yields carry
    the source record's version, the [minTs] the list was built with. *)
Definition RollupKeepsVersion `{ProcDeps} : Prop :=
  forall key pl minTs kvs kv,
    Rollup key pl minTs = Ok kvs -> In kv kvs -> kv_Version kv = minTs.

(** The lines written with [glog.Errorf] by [processKV]. *)
Inductive logLine : Type :=
  | UnableToMarshalType (parsedKey : ParsedKey) (err : error)
  | UnableToChangeFormat (parsedKey : ParsedKey) (err : error).

(** The state a call of [processKV] works on: the processor's local maxima,
    the spill buffer [buf] and the log. *)
Record pstate := {
  p_maxUid : Z;
  p_maxNs : Z;
  p_buf : Buffer;
  p_log : list logLine;
}.

Definition set_max (st : pstate) (uid ns : Z) : pstate :=
  {| p_maxUid := Z.max (p_maxUid st) uid; p_maxNs := Z.max (p_maxNs st) ns;
     p_buf := p_buf st; p_log := p_log st |}.

Definition set_buf (st : pstate) (buf : Buffer) : pstate :=
  {| p_maxUid := p_maxUid st; p_maxNs := p_maxNs st;
     p_buf := buf; p_log := p_log st |}.

Definition add_log (st : pstate) (l : logLine) : pstate :=
  {| p_maxUid := p_maxUid st; p_maxNs := p_maxNs st;
     p_buf := p_buf st; p_log := p_log st ++ [l] |}.

Section Processor.
Context `{ProcDeps}.

(** The mapper's [restoreTs], fixed for the whole run. *)
Variable restoreTs : Z.

Definition fromBackupKey (key : bytes) : res (bytes * Z) :=
  match BackupKey_Unmarshal key with
  | Err e => Err (Wrap e "while reading backup key")
  | Ok backupKey => Ok (FromBackupKey backupKey, bk_Namespace backupKey)
  end.

(** The closure [toBuffer]: one slice of [2 + len(key) + kv.Size()] bytes
    is allocated at the end of [buf] and filled. *)
Definition toBuffer (st : pstate) (kv : KV) (version : Z) : pstate :=
  let key := KeyWithTs (kv_Key kv) version in
  set_buf st (p_buf st ++ [frameEntry key (KV_Marshal kv)]).

(** The closure [appendNamespace]; the result is the new [kv.Value]. *)
Definition appendNamespace (kv : KV) : res bytes :=
  match TypeUpdate_Unmarshal (kv_Value kv) with
  | Err e => Err e
  | Ok update =>
      TypeUpdate_Marshal
        {| TypeName := GalaxyAttr (TypeName update);
           Fields := map (fun sch => {| Predicate := GalaxyAttr (Predicate sch);
                                        su_rest := su_rest sch |})
                         (Fields update) |}
  end.

(** The loop over [update.Fields] in [changeFormat], which stops at the
    first predicate that [x.AttrFrom2103] rejects. *)
Fixpoint fieldsFrom2103 (fields : list SchemaUpdate) : res (list SchemaUpdate) :=
  match fields with
  | [] => Ok []
  | sch :: fields =>
      match AttrFrom2103 (Predicate sch) with
      | Err e => Err e
      | Ok p =>
          match fieldsFrom2103 fields with
          | Err e => Err e
          | Ok fields => Ok ({| Predicate := p; su_rest := su_rest sch |} :: fields)
          end
      end
  end.

(** The closure [changeFormat]; the result is the new [kv.Value]. *)
Definition changeFormat (parsedKey : ParsedKey) (kv : KV) : res bytes :=
  if IsSchema parsedKey then
    match SchemaUpdate_Unmarshal (kv_Value kv) with
    | Err e => Err e
    | Ok update =>
        match AttrFrom2103 (Predicate update) with
        | Err e => Err e
        | Ok p => SchemaUpdate_Marshal {| Predicate := p; su_rest := su_rest update |}
        end
    end
  else if IsType parsedKey then
    match TypeUpdate_Unmarshal (kv_Value kv) with
    | Err e => Err e
    | Ok update =>
        match AttrFrom2103 (TypeName update) with
        | Err e => Err e
        | Ok tn =>
            match fieldsFrom2103 (Fields update) with
            | Err e => Err e
            | Ok fields => TypeUpdate_Marshal {| TypeName := tn; Fields := fields |}
            end
        end
    end
  else Ok (kv_Value kv).

(** The [switch in.version] of the schema case: the migrated value, or the
    line logged when the record is given up. *)
Definition migrate (inp : loadBackupInput) (parsedKey : ParsedKey) (kv : KV)
    : bytes + logLine :=
  if version inp =? 0 then
    if IsType parsedKey then
      match appendNamespace kv with
      | Err e => inr (UnableToMarshalType parsedKey e)
      | Ok v => inl v
      end
    else inl (kv_Value kv)
  else if version inp =? 2103 then
    match changeFormat parsedKey kv with
    | Err e => inr (UnableToChangeFormat parsedKey e)
    | Ok v => inl v
    end
  else inl (kv_Value kv).

Definition isPostingMeta (meta : byte) : bool :=
  bool_decide (meta = BitEmptyPosting) || bool_decide (meta = BitCompletePosting)
  || bool_decide (meta = BitDeltaPosting).

(** The loop over the records a rollup returns. *)
Definition writeRollup (st : pstate) (kvs : list KV) : pstate :=
  fold_left (fun st kv => toBuffer st (set_Version kv restoreTs) (kv_Version kv)) kvs st.

(** [processKV]: the new state and the error returned ([Ok tt] for nil).
    The state is returned on the error paths too, as the maxima are updated
    before the record is looked at. *)
Definition processKV (st : pstate) (inp : loadBackupInput) (kv : KV)
    : pstate * res unit :=
  if negb (len (kv_UserMeta kv) =? 1) then
    (st, Err (Errorf "Unexpected meta"))
  else
  match fromBackupKey (kv_Key kv) with
  | Err e => (st, Err (Wrap e "fromBackupKey"))
  | Ok (restoreKey, ns) =>
  match Parse restoreKey with
  | Err e => (st, Err (Wrap e "could not parse key"))
  | Ok parsedKey =>
  let st := set_max st (Uid parsedKey) ns in
  if negb (keepSchema inp) && (IsSchema parsedKey || IsType parsedKey) then
    (st, Ok tt)
  else if negb (IsType parsedKey) && negb (bool_decide (Attr parsedKey ∈ preds inp)) then
    (st, Ok tt)
  else
  let meta := hd x00 (kv_UserMeta kv) in
  if isPostingMeta meta then
    if bool_decide (ns ∈ dropNs inp) then (st, Ok tt)
    else
    match BackupPostingList_Unmarshal (kv_Value kv) with
    | Err e => (st, Err (Wrap e "while reading backup posting list"))
    | Ok backupPl =>
        let pl := FromBackupPostingList backupPl in
        if negb (ShouldSplit pl) || HasStartUid parsedKey || (0 <? len (GetSplits pl))
        then
          let newKv := MarshalPostingList pl in
          let newKv := set_Key newKv restoreKey in
          let newKv := set_Version newKv restoreTs in
          (toBuffer st newKv (kv_Version kv), Ok tt)
        else
          match Rollup restoreKey pl (kv_Version kv) with
          | Err e => (st, Err e)
          | Ok kvs => (writeRollup st kvs, Ok tt)
          end
    end
  else if bool_decide (meta = BitSchemaPosting) then
    match migrate inp parsedKey kv with
    | inr line => (add_log st line, Ok tt)
    | inl value =>
        let kv' := set_StreamId (set_Value kv value) 0 in
        let version := kv_Version kv' in
        let kv' := set_Version kv' restoreTs in
        let kv' := set_Key kv' restoreKey in
        (toBuffer st kv' version, Ok tt)
    end
  else (st, Err (Errorf "Unexpected meta"))
  end
  end.

(** The loop [for _, kv := range list.GetKv()] of [processReqCh]: after
    each record a buffer above 228 MiB is sent on [writeCh] (the buffers
    sent are collected in [sent]) and replaced by a fresh one. *)
Definition spillLimit : Z := Z.shiftl 228 20.

Fixpoint processKVs (st : pstate) (sent : list Buffer) (inp : loadBackupInput)
    (kvs : list KV) : pstate * list Buffer * res unit :=
  match kvs with
  | [] => (st, sent, Ok tt)
  | kv :: kvs =>
      match processKV st inp kv with
      | (st, Err e) => (st, sent, Err e)
      | (st, Ok _) =>
          if spillLimit <? LenNoPadding (p_buf st)
          then processKVs (set_buf st []) (sent ++ [p_buf st]) inp kvs
          else processKVs st sent inp kvs
      end
  end.

(** [req.lbuf.SliceIterate]: each slice is a marshalled [bpb.KVList]. *)
Fixpoint processSlices (st : pstate) (sent : list Buffer) (inp : loadBackupInput)
    (slices : list bytes) : pstate * list Buffer * res unit :=
  match slices with
  | [] => (st, sent, Ok tt)
  | s :: slices =>
      match KVList_Unmarshal s with
      | Err e => (st, sent, Err e)
      | Ok kvs =>
          match processKVs st sent inp kvs with
          | (st, sent, Err e) => (st, sent, Err e)
          | (st, sent, Ok _) => processSlices st sent inp slices
          end
      end
  end.

(** The loop [for req := range m.reqCh] for one worker. *)
Fixpoint processReqs (st : pstate) (sent : list Buffer) (reqs : list listReq)
    : pstate * list Buffer * res unit :=
  match reqs with
  | [] => (st, sent, Ok tt)
  | req :: reqs =>
      match processSlices st sent (lr_in req) (lbuf req) with
      | (st, sent, Err e) => (st, sent, Err e)
      | (st, sent, Ok _) => processReqs st sent reqs
      end
  end.

(** The shared maxima of the mapper. *)
Record maxima := {
  m_maxUid : Z;
  m_maxNs : Z;
}.

(** The two compare-and-swap loops at the end of [processReqCh]: each ends
    with the shared value replaced by its maximum with the local one. *)
Definition casMax (m : maxima) (st : pstate) : maxima :=
  {| m_maxUid := Z.max (m_maxUid m) (p_maxUid st);
     m_maxNs := Z.max (m_maxNs m) (p_maxNs st) |}.

(** What one worker leaves behind. *)
Record workerOut := {
  w_state : pstate;
  w_sent : list Buffer;
  w_err : res unit;
}.

(** [processReqCh] for the requests one worker takes from [reqCh]: on
    success the last buffer is sent too, and the shared maxima are
    updated; on an error the worker returns at once. *)
Definition processReqCh (reqs : list listReq) : workerOut :=
  let st0 := {| p_maxUid := 0; p_maxNs := 0; p_buf := []; p_log := [] |} in
  match processReqs st0 [] reqs with
  | (st, sent, Err e) => {| w_state := st; w_sent := sent; w_err := Err e |}
  | (st, sent, Ok _) =>
      {| w_state := st; w_sent := sent ++ [p_buf st]; w_err := Ok tt |}
  end.

End Processor.

(** ** The planner *)

(** [pb.DropOperation]. *)
Inductive DropOpKind : Type :=
  | DropOperation_ALL
  | DropOperation_DATA
  | DropOperation_ATTR
  | DropOperation_NS.

Record DropOperation := {
  DropOp : DropOpKind;
  DropValue : string;
}.

(** Modelled from the spec: [Manifest] is declared with the backup code,
    not in this file.  The spec lists its backup number, valid read
    timestamp, path, groups (group id to predicates), compression, format
    version and drop operations. *)
Record Manifest := {
  BackupNum : Z;
  ValidReadTs : Z;
  Path : string;
  Groups : gmap Z (list string);
  Compression : string;
  m_Version : Z;
  DropOperations : list DropOperation;
}.

(** [pb.RestoreRequest], the fields read here; the credentials and the
    encryption settings are read by other packages from the same request. *)
Record RestoreRequest := {
  Location : string;
  RestoreTs : Z;
  GroupId : Z;
  IncrementalFrom : Z;
  BackupId : string;
}.

Record mapResult := {
  maxUid : Z;
  maxNs : Z;
  shouldDropAll : bool;
  r_dropAttr : gset string;
  r_dropNs : gset Z;
}.

(** What [RunMapper] and [Map] call outside this file. *)
Class PlanDeps := {
  url_Parse : string -> res string;
  UriHandler : Type;
  NewUriHandler : string -> RestoreRequest -> res UriHandler;
  getManifestsToRestore : UriHandler -> string -> RestoreRequest -> res (list Manifest);
  EncConfig : Type;
  getEncConfig : RestoreRequest -> res EncConfig;
  GetKeys : EncConfig -> res bytes;
  NumCPU : Z;
  (** [h.Stream(file)] *)
  Stream : UriHandler -> string -> res reader;
  enc_GetReader : bytes -> reader -> res reader;
  gzip_NewReader : reader -> res reader;
  (** [filepath.Join(manifest.Path, backupName(manifest.ValidReadTs(), gid))] *)
  backupFile : Manifest -> Z -> string;
  getPredsInGroup : Manifest -> Z -> gset string;
  (** What the framing loop of [Map] gets from a reader: the batches, each
      read behind its eight-byte little-endian size, and the error that
      ended the loop when it was not an end of file on a size. *)
  readBatches : reader -> list bytes * option error;
  Close : backupReader -> option error;
  (** [strconv.ParseUint(s, 0, 64)] *)
  ParseUint : string -> res Z;
  (** [pstore.BanNamespace] *)
  BanNamespace : Z -> option error;
}.

(** The state of the loop over the manifests: the drop set, everything sent
    on [reqCh] so far, the calls of [mapper.Map] made so far, each with the
    index of its manifest and its load descriptor, and the namespaces
    [pstore.BanNamespace] was called on. *)
Record planState := {
  dropAll : bool;
  dropAttr : gset string;
  ps_dropNs : gset Z;
  maxBannedNs : Z;
  reqCh : list listReq;
  mapCalls : list (nat * loadBackupInput);
  banned : list Z;
}.

Definition bufSz : Z := Z.shiftl 64 20.
Definition bufSoftLimit : Z := bufSz - Z.shiftl 2 20.

Section Planner.
Context `{PlanDeps} `{ProcDeps}.

Definition readerFrom (h : UriHandler) (file : string) : backupReader :=
  let br := {| toClose := []; br_r := NoReader; br_err := None |} in
  match Stream h file with
  | Ok reader => with_r (with_toClose (setErr br None) reader) reader
  | Err e => with_r (with_toClose (setErr br (Some e)) NoReader) NoReader
  end.

Definition WithEncryption (br : backupReader) (encKey : bytes) : backupReader :=
  if len encKey =? 0 then br
  else
    match enc_GetReader encKey (br_r br) with
    | Ok r => with_r (setErr br None) r
    | Err e => with_r (setErr br (Some e)) NoReader
    end.

(** The loop of [Map] over the batches read: a batch is appended to
    [zbuf]; above [bufSoftLimit] the buffer is sent and replaced. *)
Fixpoint mapBatches (inp : loadBackupInput) (zbuf : Buffer) (batches : list bytes)
    : list listReq * Buffer :=
  match batches with
  | [] => ([], zbuf)
  | b :: batches =>
      let zbuf := zbuf ++ [b] in
      if bufSoftLimit <? LenNoPadding zbuf then
        let '(reqs, zbuf') := mapBatches inp [] batches in
        ({| lbuf := zbuf; lr_in := inp |} :: reqs, zbuf')
      else mapBatches inp zbuf batches
  end.

(** [Map]: the requests sent on [reqCh] and the error returned. *)
Definition Map (r : reader) (inp : loadBackupInput) : list listReq * res unit :=
  let '(batches, err) := readBatches r in
  let '(reqs, zbuf) := mapBatches inp [] batches in
  match err with
  | Some e => (reqs, Err e)
  | None => (reqs ++ [{| lbuf := zbuf; lr_in := inp |}], Ok tt)
  end.

Definition sendAll (st : planState) (i : nat) (inp : loadBackupInput)
    (reqs : list listReq) : planState :=
  {| dropAll := dropAll st; dropAttr := dropAttr st; ps_dropNs := ps_dropNs st;
     maxBannedNs := maxBannedNs st; reqCh := reqCh st ++ reqs;
     mapCalls := mapCalls st ++ [(i, inp)]; banned := banned st |}.

Definition set_dropAll (st : planState) : planState :=
  {| dropAll := true; dropAttr := dropAttr st; ps_dropNs := ps_dropNs st;
     maxBannedNs := maxBannedNs st; reqCh := reqCh st; mapCalls := mapCalls st;
     banned := banned st |}.

Definition add_dropNs (st : planState) (ns : Z) : planState :=
  {| dropAll := dropAll st; dropAttr := dropAttr st; ps_dropNs := {[ns]} ∪ ps_dropNs st;
     maxBannedNs := maxBannedNs st; reqCh := reqCh st; mapCalls := mapCalls st;
     banned := banned st |}.

Definition add_dropAttr (st : planState) (p : string) : planState :=
  {| dropAll := dropAll st; dropAttr := {[p]} ∪ dropAttr st; ps_dropNs := ps_dropNs st;
     maxBannedNs := maxBannedNs st; reqCh := reqCh st; mapCalls := mapCalls st;
     banned := banned st |}.

Definition ban (st : planState) (ns : Z) : planState :=
  {| dropAll := dropAll st; dropAttr := dropAttr st; ps_dropNs := ps_dropNs st;
     maxBannedNs := Z.max (maxBannedNs st) ns; reqCh := reqCh st;
     mapCalls := mapCalls st; banned := banned st ++ [ns] |}.

(** The body of [for gid := range manifest.Groups] for the one group id
    that is the request's: the reader is built, the descriptor filled and
    the archive mapped. *)
Definition mapGroup (h : UriHandler) (encKey : bytes) (manifest0 : Manifest)
    (i : nat) (manifest : Manifest) (gid : Z) (st : planState)
    : planState * res unit :=
  let file := backupFile manifest gid in
  let br := WithCompression gzip_NewReader
              (WithEncryption (readerFrom h file) encKey) (Compression manifest) in
  match br_err br with
  | Some e => (st, Err (Wrap e "newBackupReader"))
  | None =>
      let predSet := getPredsInGroup manifest0 gid ∖ dropAttr st in
      let localDropNs := ps_dropNs st in
      let inp := {| preds := predSet; dropNs := localDropNs;
                    version := m_Version manifest;
                    keepSchema := Nat.eqb i 0 |} in
      let '(reqs, r) := Map (br_r br) inp in
      let st := sendAll st i inp reqs in
      match r with
      | Err e => (st, Err (Wrap e "mapper.Map"))
      | Ok _ =>
          match Close br with
          | Some e => (st, Err (Wrap e "br.Close"))
          | None => (st, Ok tt)
          end
      end
  end.

(** [for _, op := range manifest.DropOperations]. *)
Fixpoint foldDropOps (ops : list DropOperation) (st : planState)
    : planState * res unit :=
  match ops with
  | [] => (st, Ok tt)
  | op :: ops =>
      match DropOp op with
      | DropOperation_ALL => foldDropOps ops (set_dropAll st)
      | DropOperation_DATA =>
          if String.eqb (DropValue op) "" then foldDropOps ops (set_dropAll st)
          else
            match ParseUint (DropValue op) with
            | Err e => (st, Err (Wrap e "Map phase failed to parse namespace"))
            | Ok ns => foldDropOps ops (add_dropNs st ns)
            end
      | DropOperation_ATTR => foldDropOps ops (add_dropAttr st (DropValue op))
      | DropOperation_NS =>
          match ParseUint (DropValue op) with
          | Err e => (st, Err (Wrap e "Map phase failed to parse namespace"))
          | Ok ns =>
              match BanNamespace ns with
              | Some e => (st, Err (Wrap e "Map phase failed to ban namespace"))
              | None => foldDropOps ops (ban st ns)
              end
          end
      end
  end.

(** [for i, manifest := range manifests]; [manifest0] is [manifests[0]].
    The keys of [manifest.Groups] are distinct, so the inner loop over the
    groups reaches its body for the request's group id at most once. *)
Fixpoint planLoop (req : RestoreRequest) (h : UriHandler) (encKey : bytes)
    (manifest0 : Manifest) (i : nat) (manifests : list Manifest) (st : planState)
    : planState * res unit :=
  match manifests with
  | [] => (st, Ok tt)
  | manifest :: manifests =>
      if BackupNum manifest <? IncrementalFrom req then (st, Ok tt)
      else if dropAll st then (st, Ok tt)
      else if (ValidReadTs manifest =? 0) || (Z.of_nat (size (Groups manifest)) =? 0)
      then planLoop req h encKey manifest0 (S i) manifests st
      else
        let '(st, r) :=
          match Groups manifest !! GroupId req with
          | None => (st, Ok tt)
          | Some _ => mapGroup h encKey manifest0 i manifest (GroupId req) st
          end in
        match r with
        | Err e => (st, Err e)
        | Ok _ =>
            match foldDropOps (DropOperations manifest) st with
            | (st, Err e) => (st, Err e)
            | (st, Ok _) => planLoop req h encKey manifest0 (S i) manifests st
            end
        end
  end.

Definition planStart : planState :=
  {| dropAll := false; dropAttr := ∅; ps_dropNs := ∅; maxBannedNs := 0;
     reqCh := []; mapCalls := []; banned := [] |}.

Definition plan (req : RestoreRequest) (h : UriHandler) (encKey : bytes)
    (manifests : list Manifest) : planState * res unit :=
  match manifests with
  | [] => (planStart, Ok tt)
  | manifest0 :: _ => planLoop req h encKey manifest0 0 manifests planStart
  end.

(** [numGo := int(float64(runtime.NumCPU()) * 0.75)], at least two; the
    product by 0.75 is exact in floating point for any processor count. *)
Definition numGo : Z := Z.max 2 (3 * NumCPU / 4).

(** The requests worker [w] takes from [reqCh], a channel all the workers
    receive from: [sched] names, for the [i]-th request sent, the worker
    that receives it. *)
Fixpoint takenBy (sched : nat -> nat) (w i : nat) (reqs : list listReq) : list listReq :=
  match reqs with
  | [] => []
  | req :: reqs =>
      if Nat.eqb (sched i mod Z.to_nat numGo)%nat w
      then req :: takenBy sched w (S i) reqs
      else takenBy sched w (S i) reqs
  end.

(** The [numGo] goroutines running [processReqCh]. *)
Definition workers (restoreTs : Z) (sched : nat -> nat) (reqs : list listReq)
    : list workerOut :=
  map (fun w => processReqCh restoreTs (takenBy sched w 0 reqs))
      (seq 0 (Z.to_nat numGo)).

(** [g.Wait()]: the error of a worker that failed, if any. *)
Fixpoint waitAll (ws : list workerOut) : res unit :=
  match ws with
  | [] => Ok tt
  | w :: ws =>
      match w_err w with
      | Err e => Err e
      | Ok _ => waitAll ws
      end
  end.

(** [RunMapper]: the result returned and the calls of [mapper.Map] made.
    The mergers, which turn the buffers of the workers into map files, are
    [mergeAndSend] above; they return an error only when a file operation
    fails, and do not take part in the result otherwise. *)
Definition RunMapper (req : RestoreRequest) (sched : nat -> nat)
    : res mapResult * list (nat * loadBackupInput) :=
  match url_Parse (Location req) with
  | Err e => (Err e, [])
  | Ok uri =>
  if RestoreTs req =? 0 then
    (Err (Errorf "RestoreRequest must have a valid restoreTs"), [])
  else
  match NewUriHandler uri req with
  | Err e => (Err e, [])
  | Ok h =>
  match getManifestsToRestore h uri req with
  | Err e => (Err (Wrap e "cannot retrieve manifests"), [])
  | Ok manifests =>
  match getEncConfig req with
  | Err e => (Err (Wrap e "unable to get encryption config"), [])
  | Ok cfg =>
  match GetKeys cfg with
  | Err e => (Err e, [])
  | Ok encKey =>
  match plan req h encKey manifests with
  | (st, Err e) => (Err e, mapCalls st)
  | (st, Ok _) =>
      let ws := workers (RestoreTs req) sched (reqCh st) in
      match waitAll ws with
      | Err e => (Err (Wrap e "from processKVList"), mapCalls st)
      | Ok _ =>
          let m := fold_left casMax (map w_state ws) {| m_maxUid := 0; m_maxNs := 0 |} in
          (Ok {| maxUid := m_maxUid m;
                 maxNs := Z.max (m_maxNs m) (maxBannedNs st);
                 shouldDropAll := dropAll st;
                 r_dropAttr := dropAttr st;
                 r_dropNs := ps_dropNs st |}, mapCalls st)
      end
  end
  end
  end
  end
  end
  end.

End Planner.

(** ** Predicates used in the statements *)

(** The order in which [writeNow] leaves the entries. *)
Definition entryLe (l r : mapEntry) : Prop :=
  CompareKeys (mustKey l) (mustKey r) <= 0.

(** An entry on which [Key] returns a key long enough for [CompareKeys]. *)
Definition wellFramed (me : mapEntry) : bool :=
  match Key me with
  | Some k => 8 <=? len k
  | None => false
  end.

(** Ascending, and strictly ascending, under the native key comparison. *)
Definition keysAscending (a b : mapEntry) : Prop :=
  exists ka kb, Key a = Some ka /\ Key b = Some kb /\ CompareKeys ka kb <= 0.

Definition keysStrictlyAscending (a b : mapEntry) : Prop :=
  exists ka kb, Key a = Some ka /\ Key b = Some kb /\ CompareKeys ka kb < 0.

(** [bufSize] after the entries [buf]: the bytes accumulated since the last
    partition key was recorded. *)
Definition bufSizeAfter `{WriterDeps} (buf : Buffer) : Z :=
  snd (fold_left partitionStep buf ([], 0)).

(** The records handed to [processKV] for the requests [reqs]: those of
    every batch that unmarshals. *)
Definition inputRecords `{ProcDeps} (reqs : list listReq) : list KV :=
  flat_map (fun req =>
    flat_map (fun s => match KVList_Unmarshal s with Ok kvs => kvs | Err _ => [] end)
             (lbuf req)) reqs.

(** ** Test doubles *)

(** Small stand-ins for the other packages, on which the statements below
    are run. *)

(** A writer with the given sampling interval and file size, and the
    protobuf encoding of the header: each key behind the tag [0x0a] and its
    length. *)
Definition testWriter (partSz fileSz : Z) : WriterDeps :=
  {| partitionBufSz := partSz;
     mapFileSz := fileSz;
     MapHeader_Marshal := fun h =>
       flat_map (fun k => x0a :: PutUvarint (len k) ++ k) (PartitionKeys h) |}.

(** [binary.BigEndian.PutUint64]. *)
Definition PutUint64 (v : Z) : bytes :=
  map (fun i => Z_to_byte (Z.shiftr v (8 * i))) [7; 6; 5; 4; 3; 2; 1; 0].

Definition MaxUint64 : Z := 2 ^ 64 - 1.

(** Keys of the test double: the prefix byte, the namespace, the uid and
    the attribute, one byte each but for the attribute. *)
Definition test_BackupKey_Unmarshal (key : bytes) : res BackupKey :=
  match key with
  | ty :: ns :: uid :: attr =>
      Ok {| bk_Type := byte_to_Z ty; bk_Attr := String.string_of_list_byte attr;
            bk_Uid := byte_to_Z uid; bk_StartUid := 0; bk_Term := "";
            bk_Count := 0; bk_Namespace := byte_to_Z ns |}
  | _ => Err (External "proto: unexpected end of backup key")
  end.

Definition test_FromBackupKey (bk : BackupKey) : bytes :=
  Z_to_byte (bk_Type bk) :: Z_to_byte (bk_Namespace bk) :: Z_to_byte (bk_Uid bk)
    :: String.list_byte_of_string (bk_Attr bk).

Definition test_Parse (key : bytes) : res ParsedKey :=
  match key with
  | prefix :: ns :: uid :: attr =>
      Ok {| Attr := String.string_of_list_byte attr; Uid := byte_to_Z uid;
            HasStartUid := false; bytePrefix := prefix |}
  | _ => Err (External "invalid key")
  end.

(** Records of a batch: the user meta, the version, then the key and the
    value, each behind its one-byte length. *)
Fixpoint test_KVList_Unmarshal_loop (fuel : nat) (s : bytes) : res (list KV) :=
  match fuel, s with
  | _, [] => Ok []
  | S fuel, meta :: ver :: klen :: s =>
      let k := Z.to_nat (byte_to_Z klen) in
      match drop k s with
      | vlen :: s' =>
          let v := Z.to_nat (byte_to_Z vlen) in
          if (length s' <? v)%nat then Err (External "proto: unexpected end of list")
          else
            match test_KVList_Unmarshal_loop fuel (drop v s') with
            | Err e => Err e
            | Ok kvs =>
                Ok ({| kv_Key := take k s; kv_Value := take v s';
                       kv_UserMeta := [meta]; kv_Version := byte_to_Z ver;
                       kv_ExpiresAt := 0; kv_Meta := []; kv_StreamId := 7;
                       kv_StreamDone := false |} :: kvs)
            end
      | [] => Err (External "proto: unexpected end of list")
      end
  | _, _ => Err (External "proto: unexpected end of list")
  end.

Definition test_KV_Marshal (kv : KV) : bytes :=
  Z_to_byte (kv_StreamId kv) :: PutUint64 (kv_Version kv)
    ++ Z_to_byte (len (kv_Key kv)) :: kv_Key kv ++ kv_Value kv.

(** Schema values of the test double: a schema update is its predicate, a
    type update its name followed by one field of that name; a value
    starting with a zero byte does not unmarshal. *)
Definition test_SchemaUpdate_Unmarshal (v : bytes) : res SchemaUpdate :=
  match v with
  | x00 :: _ => Err (External "proto: illegal tag 0")
  | _ => Ok {| Predicate := String.string_of_list_byte v; su_rest := [] |}
  end.

Definition test_TypeUpdate_Unmarshal (v : bytes) : res TypeUpdate :=
  match v with
  | x00 :: _ => Err (External "proto: illegal tag 0")
  | _ => Ok {| TypeName := String.string_of_list_byte v;
               Fields := [{| Predicate := String.string_of_list_byte v; su_rest := [] |}] |}
  end.

Definition test_TypeUpdate_Marshal (u : TypeUpdate) : res bytes :=
  Ok (String.list_byte_of_string (TypeName u)
        ++ flat_map (fun sch => x2c :: String.list_byte_of_string (Predicate sch)) (Fields u)).

(** The 2103 format of the test double: a one-character namespace, then
    the attribute. *)
Definition test_AttrFrom2103 (attr : string) : res string :=
  match attr with
  | String ns rest => Ok (String ns ("-" +:+ rest))
  | EmptyString => Err (External "Got invalid attr")
  end.

(** Posting lists of the test double are their bytes; a list of more than
    four bytes is split in a main record and one part. *)
Definition test_MarshalPostingList (pl : bytes) : KV :=
  {| kv_Key := []; kv_Value := pl; kv_UserMeta := [BitCompletePosting];
     kv_Version := 0; kv_ExpiresAt := 0; kv_Meta := []; kv_StreamId := 0;
     kv_StreamDone := false |}.

Definition test_Rollup (key : bytes) (pl : bytes) (minTs : Z) : res (list KV) :=
  Ok [set_Version (set_Key (test_MarshalPostingList (take 4 pl)) key) minTs;
      set_Version (set_Key (test_MarshalPostingList (drop 4 pl)) (key ++ [x04])) minTs].

(** The processor's environment.  [KeyWithTs] is badger's: the suffix holds
    [MaxUint64 - ts] in big-endian, so that under [CompareKeys] the newer
    versions of a key come first. *)
Definition testProc : ProcDeps :=
  {| KeyWithTs := fun key ts => key ++ PutUint64 (MaxUint64 - ts);
     KV_Marshal := test_KV_Marshal;
     KVList_Unmarshal := fun s => test_KVList_Unmarshal_loop (length s) s;
     BackupKey_Unmarshal := test_BackupKey_Unmarshal;
     FromBackupKey := test_FromBackupKey;
     Parse := test_Parse;
     GalaxyAttr := fun attr => "0-" +:+ attr;
     AttrFrom2103 := test_AttrFrom2103;
     SchemaUpdate_Unmarshal := test_SchemaUpdate_Unmarshal;
     SchemaUpdate_Marshal := fun u => Ok (String.list_byte_of_string (Predicate u));
     TypeUpdate_Unmarshal := test_TypeUpdate_Unmarshal;
     TypeUpdate_Marshal := test_TypeUpdate_Marshal;
     BackupPostingList := bytes;
     PostingList := bytes;
     BackupPostingList_Unmarshal := fun v => Ok v;
     FromBackupPostingList := fun pl => pl;
     ShouldSplit := fun pl => 4 <? len pl;
     GetSplits := fun _ => [];
     MarshalPostingList := test_MarshalPostingList;
     Rollup := test_Rollup |}.

(** The transport file under a reader stack. *)
Fixpoint fileOf (r : reader) : string :=
  match r with
  | NoReader => ""
  | Transport file => file
  | Cipher _ r | Snappy r | Gzip r => fileOf r
  end.

(** Decimal numbers, for the namespaces of drop operations. *)
Fixpoint test_ParseUint_loop (s : string) (acc : Z) : res Z :=
  match s with
  | EmptyString => Ok acc
  | String c s =>
      let d := Z.of_nat (Ascii.nat_of_ascii c) - 48 in
      if (0 <=? d) && (d <=? 9) then test_ParseUint_loop s (10 * acc + d)
      else Err (External "strconv.ParseUint: invalid syntax")
  end.

Definition test_ParseUint (s : string) : res Z :=
  match s with
  | EmptyString => Err (External "strconv.ParseUint: invalid syntax")
  | _ => test_ParseUint_loop s 0
  end.

(** A planner environment with the given manifest chain, archives (by
    path) and processor count. *)
Definition testPlan (manifests : list Manifest)
    (archive : string -> list bytes * option error) (cpus : Z) : PlanDeps :=
  {| url_Parse := fun s => if String.eqb s "" then Err (External "parse: empty url") else Ok s;
     UriHandler := unit;
     NewUriHandler := fun _ _ => Ok tt;
     getManifestsToRestore := fun _ _ _ => Ok manifests;
     EncConfig := unit;
     getEncConfig := fun _ => Ok tt;
     GetKeys := fun _ => Ok [];
     NumCPU := cpus;
     Stream := fun _ file => Ok (Transport file);
     enc_GetReader := fun k r => Ok (Cipher k r);
     gzip_NewReader := fun r => Ok (Gzip r);
     backupFile := fun m _ => Path m;
     getPredsInGroup := fun m gid => list_to_set (default [] (Groups m !! gid));
     readBatches := fun r => archive (fileOf r);
     Close := fun _ => None;
     ParseUint := test_ParseUint;
     BanNamespace := fun _ => None |}.

(** ** Fixtures and invariants of the statements *)

(** Two records with the same key and version, as [toBuffer] frames them. *)
Definition sameKeyEntry : mapEntry :=
  frameEntry ([x00; x01; x07; x61] ++ PutUint64 (MaxUint64 - 50)) [x2a].

Definition unsortedEntries : Buffer :=
  [frameEntry ([x00; x01; x09; x62] ++ PutUint64 (MaxUint64 - 60)) [x2b];
   sameKeyEntry;
   frameEntry ([x00; x01; x03; x61] ++ PutUint64 (MaxUint64 - 50)) [x2c];
   sameKeyEntry].

Definition sortedFile : mapFile :=
  hd {| fileNum := 0; header := {| PartitionKeys := [] |}; written := [] |}
     (snd (mergeAndSend (H := testWriter 10 64) [] 0 [] [unsortedEntries])).

(** A record whose key has 65526 bytes: with the timestamp the key written
    has 65534 bytes. *)
Definition longKeyKV : KV :=
  {| kv_Key := repeat x61 (Z.to_nat 65526); kv_Value := [x2a]; kv_UserMeta := [BitCompletePosting];
     kv_Version := 100; kv_ExpiresAt := 0; kv_Meta := []; kv_StreamId := 0;
     kv_StreamDone := false |}.

Definition st0 : pstate := {| p_maxUid := 0; p_maxNs := 0; p_buf := []; p_log := [] |}.

(** A descriptor of the newest archive, of format 2105, for predicate [a]. *)
Definition newestInput (v : Z) : loadBackupInput :=
  {| preds := {["a"]}; dropNs := {[9]}; version := v; keepSchema := true |}.

(** A complete posting list of six bytes under the data key of uid 7,
    namespace 1 and attribute [a], at version 50: the test double splits
    it. *)
Definition rollupKV : KV :=
  {| kv_Key := [x00; x01; x07; x61]; kv_Value := [x01; x02; x03; x04; x05; x06];
     kv_UserMeta := [BitCompletePosting]; kv_Version := 50; kv_ExpiresAt := 0;
     kv_Meta := []; kv_StreamId := 0; kv_StreamDone := false |}.

(** A posting list in namespace 9, which the descriptor drops. *)
Definition droppedNsKV : KV :=
  {| kv_Key := [x00; x09; x05; x61]; kv_Value := [x01];
     kv_UserMeta := [BitCompletePosting]; kv_Version := 50; kv_ExpiresAt := 0;
     kv_Meta := []; kv_StreamId := 0; kv_StreamDone := false |}.

(** A type record of an archive of format 0 whose value does not
    unmarshal. *)
Definition badTypeKV : KV :=
  {| kv_Key := [x02; x00; x00; x50]; kv_Value := [x00; x50];
     kv_UserMeta := [BitSchemaPosting]; kv_Version := 50; kv_ExpiresAt := 0;
     kv_Meta := []; kv_StreamId := 7; kv_StreamDone := false |}.

(** A type record of an archive of format 2103, named [1Person]. *)
Definition typeKV2103 : KV :=
  {| kv_Key := [x02; x00; x00; x50];
     kv_Value := String.list_byte_of_string "1Person";
     kv_UserMeta := [BitSchemaPosting]; kv_Version := 50; kv_ExpiresAt := 0;
     kv_Meta := []; kv_StreamId := 7; kv_StreamDone := false |}.

Definition typeKey : ParsedKey :=
  {| Attr := "P"; Uid := 0; HasStartUid := false; bytePrefix := x02 |}.

(** The record's key decodes, and its uid and namespace are within the
    given maxima. *)
Definition covered `{ProcDeps} (mu mn : Z) (kv : KV) : Prop :=
  exists restoreKey ns parsedKey,
    fromBackupKey (kv_Key kv) = Ok (restoreKey, ns) /\
    Parse restoreKey = Ok parsedKey /\
    Uid parsedKey <= mu /\ ns <= mn.

(** The invariants of the loop over the manifests: the banned namespaces
    are within [maxBannedNs]; the calls of [Map] are in the order of the
    manifests, at most one for each, and the descriptor of a call keeps
    the schema exactly when the manifest is the first of the chain. *)
Definition planInv (i : nat) (st : planState) : Prop :=
  Forall (fun ns => ns <= maxBannedNs st) (banned st) /\
  StronglySorted lt (map fst (mapCalls st)) /\
  Forall (fun c => (fst c < i)%nat /\ keepSchema (snd c) = Nat.eqb (fst c) 0) (mapCalls st).

(** A chain of two manifests for group 1: the newest drops namespace 42,
    and its archive holds a posting list for [a] and one for [b]; the older
    archive holds a posting list in namespace 3. *)
Definition newManifest : Manifest :=
  {| BackupNum := 2; ValidReadTs := 200; Path := "backup-2";
     Groups := {[1 := ["a"]]}; Compression := "snappy"; m_Version := 2105;
     DropOperations := [{| DropOp := DropOperation_NS; DropValue := "42" |}] |}.

Definition oldManifest (comp : string) : Manifest :=
  {| BackupNum := 1; ValidReadTs := 100; Path := "backup-1";
     Groups := {[1 := ["a"; "b"]]}; Compression := comp; m_Version := 2105;
     DropOperations := [] |}.


Definition testArchive (file : string) : list bytes * option error :=
  if String.eqb file "backup-2" then
    ([[x08; x32; x04; x00; x01; x07; x61; x01; x01;
       x08; x3c; x04; x00; x01; x09; x62; x01; x02]], None)
  else if String.eqb file "backup-1" then
    ([[x08; x28; x04; x00; x03; x02; x61; x01; x03]], None)
  else ([], None).

Definition testRequest (ts : Z) : RestoreRequest :=
  {| Location := "file:///backups"; RestoreTs := ts; GroupId := 1;
     IncrementalFrom := 0; BackupId := "" |}.

Definition testEnv (manifests : list Manifest) : PlanDeps :=
  testPlan manifests testArchive 4.

Definition testResult : mapResult :=
  {| maxUid := 9; maxNs := 42; shouldDropAll := false; r_dropAttr := ∅; r_dropNs := ∅ |}.

(** ** Definitions for the further properties *)

(** *** Closing a reader *)

(** The loop of [Close]: the closers are closed from the last acquired to
    the first, and [rerr] is overwritten by each error met.  [closeOf] is
    the outcome of closing one of them. *)
Definition closeAll (closeOf : reader -> option error) (cs : list reader) : option error :=
  fold_left (fun rerr c => match closeOf c with Some err => Some err | None => rerr end)
            (rev cs) None.

(** [Close]: [once] tells whether [br.once] has fired; the result is the
    new value of [once], the closers closed, in order, and the error
    returned. *)
Definition br_Close (closeOf : reader -> option error) (once : bool) (br : backupReader)
    : bool * list reader * option error :=
  if once then (true, [], None)
  else (true, rev (toClose br), closeAll closeOf (toClose br)).

(** The reader [RunMapper] builds for one archive. *)
Definition newBackupReader `{PlanDeps} (h : UriHandler) (file : string)
    (encKey : bytes) (comp : string) : backupReader :=
  WithCompression gzip_NewReader (WithEncryption (readerFrom h file) encKey) comp.

(** A planner environment in which the stages of a reader may fail. *)
Definition failingPlan (streamErr encErr gzipErr : option error) : PlanDeps :=
  {| url_Parse := fun s => Ok s;
     UriHandler := unit;
     NewUriHandler := fun _ _ => Ok tt;
     getManifestsToRestore := fun _ _ _ => Ok [];
     EncConfig := unit;
     getEncConfig := fun _ => Ok tt;
     GetKeys := fun _ => Ok [];
     NumCPU := 4;
     Stream := fun _ file =>
       match streamErr with Some e => Err e | None => Ok (Transport file) end;
     enc_GetReader := fun k r =>
       match encErr with Some e => Err e | None => Ok (Cipher k r) end;
     gzip_NewReader := fun r =>
       match gzipErr with Some e => Err e | None => Ok (Gzip r) end;
     backupFile := fun m _ => Path m;
     getPredsInGroup := fun _ _ => ∅;
     readBatches := fun _ => ([], None);
     Close := fun _ => None;
     ParseUint := test_ParseUint;
     BanNamespace := fun _ => None |}.

(** *** The framing read by [Map] *)

(** [io.EOF] and [io.ErrUnexpectedEOF]. *)
Definition io_EOF : error := External "EOF".
Definition io_ErrUnexpectedEOF : error := External "unexpected EOF".

#[global] Instance error_eq_decision : EqDecision error.
Proof. solve_decision. Defined.

(** [binary.LittleEndian.Uint64]:
    [uint64(b[0]) | uint64(b[1])<<8 | ... | uint64(b[7])<<56]. *)
Fixpoint Uint64LE (b : bytes) : Z :=
  match b with
  | [] => 0
  | x :: b => Z.lor (byte_to_Z x) (Z.shiftl (Uint64LE b) 8)
  end.

(** [binary.LittleEndian.PutUint64]. *)
Definition PutUint64LE (v : Z) : bytes :=
  [Z_to_byte v; Z_to_byte (Z.shiftr v 8); Z_to_byte (Z.shiftr v 16);
   Z_to_byte (Z.shiftr v 24); Z_to_byte (Z.shiftr v 32); Z_to_byte (Z.shiftr v 40);
   Z_to_byte (Z.shiftr v 48); Z_to_byte (Z.shiftr v 56)].

(** [io.ReadFull] for [n] bytes on a reader that still delivers [data] and
    then ends with [tail] ([None]: [io.EOF]): the bytes read and what is
    left, or the error.  Nothing read at the end of the data is [io.EOF], a
    short read is [io.ErrUnexpectedEOF], and an error of the reader is
    returned as it is. *)
Definition ReadFull (data : bytes) (tail : option error) (n : Z) : res bytes * bytes :=
  if n <=? len data then (Ok (take (Z.to_nat n) data), drop (Z.to_nat n) data)
  else
    (Err match tail with
         | Some e => e
         | None => if len data =? 0 then io_EOF else io_ErrUnexpectedEOF
         end, []).

(** The loop of [Map] on the bytes of the stream: [binary.Read] of the
    size, then [io.ReadFull] of the batch.  The result is the batches read
    and the error returned, if any; it is [None] for a size of 2^63 or
    more, where [int(sz)] is negative and [SliceAllocate] gives no slice to
    read into.  Every turn reads eight bytes at least, which bounds the
    loop by the length of the data. *)
Fixpoint readFrames_loop (fuel : nat) (data : bytes) (tail : option error)
    : option (list bytes * option error) :=
  match fuel with
  | O => None
  | S fuel =>
      match ReadFull data tail 8 with
      | (Err e, _) =>
          if decide (e = io_EOF) then Some ([], None) else Some ([], Some e)
      | (Ok b, rest) =>
          let sz := Uint64LE b in
          if 2 ^ 63 <=? sz then None
          else
            match ReadFull rest tail sz with
            | (Err e, _) => Some ([], Some e)
            | (Ok buf, rest) =>
                match readFrames_loop fuel rest tail with
                | Some (bufs, err) => Some (buf :: bufs, err)
                | None => None
                end
            end
      end
  end.

Definition readFrames (data : bytes) (tail : option error)
    : option (list bytes * option error) :=
  readFrames_loop (S (length data)) data tail.

(** The stream of an archive holding the given batches: each behind its
    length as eight little-endian bytes. *)
Definition frame (b : bytes) : bytes := PutUint64LE (len b) ++ b.
Definition encodeFrames (batches : list bytes) : bytes := flat_map frame batches.

(** What [Map] asks of a request it sends before the end of the stream: it
    carries the descriptor, its buffer is above [bufSoftLimit], and was not
    before its last batch was added. *)
Definition sentFull (inp : loadBackupInput) (req : listReq) : Prop :=
  lr_in req = inp /\
  bufSoftLimit < LenNoPadding (lbuf req) /\
  LenNoPadding (removelast (lbuf req)) <= bufSoftLimit.

(** *** What a record contributes *)

(** The entries [processKV] appends for a record, read off a call on an
    empty buffer. *)
Definition entriesOf `{ProcDeps} (restoreTs : Z) (inp : loadBackupInput) (kv : KV)
    : Buffer :=
  p_buf (fst (processKV restoreTs st0 inp kv)).

(** The records of a request, and the entries they contribute. *)
Definition recordsOf `{ProcDeps} (req : listReq) : list KV :=
  flat_map (fun s => match KVList_Unmarshal s with Ok kvs => kvs | Err _ => [] end)
           (lbuf req).

Definition entriesOfReq `{ProcDeps} (restoreTs : Z) (req : listReq) : Buffer :=
  flat_map (entriesOf restoreTs (lr_in req)) (recordsOf req).

(** The uid and the namespace [processKV] reads from a record's key. *)
Definition uidOf `{ProcDeps} (kv : KV) : option Z :=
  match fromBackupKey (kv_Key kv) with
  | Ok (restoreKey, _) =>
      match Parse restoreKey with
      | Ok parsedKey => Some (Uid parsedKey)
      | Err _ => None
      end
  | Err _ => None
  end.

Definition nsOf `{ProcDeps} (kv : KV) : option Z :=
  match fromBackupKey (kv_Key kv) with
  | Ok (restoreKey, ns) =>
      match Parse restoreKey with
      | Ok _ => Some ns
      | Err _ => None
      end
  | Err _ => None
  end.

(** A record with no meta byte. *)
Definition noMetaKV : KV :=
  {| kv_Key := []; kv_Value := []; kv_UserMeta := []; kv_Version := 1;
     kv_ExpiresAt := 0; kv_Meta := []; kv_StreamId := 0; kv_StreamDone := false |}.

(** The entries sent and those of the working buffer, end to end. *)
Definition held (st : pstate) (sent : list Buffer) : Buffer := concat sent ++ p_buf st.

(** A maximum that is the value it started from or one read, by [f], from
    one of the records. *)
Definition attained (f : KV -> option Z) (recs : list KV) (old new : Z) : Prop :=
  new = old \/ exists kv, In kv recs /\ f kv = Some new.

(** The largest banned namespace is zero or a namespace that was banned. *)
Definition bannedInv (st : planState) : Prop :=
  maxBannedNs st = 0 \/ In (maxBannedNs st) (banned st).

(** *** What a map file holds *)

(** The file [f] was written by [writeToDisk] for the entries [entries]:
    its header holds their partition keys, and its body is the length of
    the header, the header, and each entry behind its uvarint length. *)
Definition holds `{WriterDeps} (f : mapFile) (entries : Buffer) : Prop :=
  header f = {| PartitionKeys := partitionKeys entries |} /\
  written f = PutUint32 (uint32 (len (MapHeader_Marshal (header f))))
                :: MapHeader_Marshal (header f) :: flat_map writeSlice entries.

(** A merger inside its loop [for buf := range m.writeCh], before the
    channel is closed: the outcomes of the tries for a writer slot that
    are left, [nextId], the buffer [mbuf] it holds and the files written so
    far. *)
Record merger := {
  mg_slots : list bool;
  mg_nextId : Z;
  mg_mbuf : Buffer;
  mg_files : list mapFile;
}.

(** The loop of [mergeAndSend] on the buffers [writeCh] received so far;
    [mergeAndSend] is this loop followed, when the channel is closed, by
    [writeNow] on the buffer held. *)
Fixpoint mergeLoop `{WriterDeps} (slots : list bool) (nextId : Z) (mbuf : Buffer)
    (writeCh : list Buffer) : merger :=
  match writeCh with
  | [] => {| mg_slots := slots; mg_nextId := nextId; mg_mbuf := mbuf; mg_files := [] |}
  | buf :: writeCh =>
      let mbuf := mbuf ++ buf in
      let '(doWrite, slots) :=
        if mapFileSz <=? LenNoPadding mbuf then (true, slots)
        else if mapFileSz / 4 <=? LenNoPadding mbuf then
          match slots with
          | got :: slots => (got, slots)
          | [] => (false, [])
          end
        else (false, slots) in
      if doWrite then
        let '(nextId, f) := writeNow nextId mbuf in
        let r := mergeLoop slots nextId [] writeCh in
        {| mg_slots := mg_slots r; mg_nextId := mg_nextId r; mg_mbuf := mg_mbuf r;
           mg_files := option_list f ++ mg_files r |}
      else mergeLoop slots nextId mbuf writeCh
  end.

(** The order of the keys under [y.CompareKeys]. *)
Definition keyLe (k1 k2 : bytes) : Prop := CompareKeys k1 k2 <= 0.

(** *** The drop operations of the manifests *)

(** An operation that sets [dropAll]: DROP_ALL, or DROP_DATA with no
    namespace. *)
Definition isDropAll (op : DropOperation) : bool :=
  match DropOp op with
  | DropOperation_ALL => true
  | DropOperation_DATA => String.eqb (DropValue op) ""
  | _ => false
  end.

(** DROP_DATA of the namespace [ns], DROP_ATTR of the predicate [p],
    DROP_NS of the namespace [ns]. *)
Definition dropsData `{PlanDeps} (ns : Z) (op : DropOperation) : Prop :=
  DropOp op = DropOperation_DATA /\ String.eqb (DropValue op) "" = false /\
  ParseUint (DropValue op) = Ok ns.

Definition dropsAttr (p : string) (op : DropOperation) : Prop :=
  DropOp op = DropOperation_ATTR /\ DropValue op = p.

Definition bansNs `{PlanDeps} (ns : Z) (op : DropOperation) : Prop :=
  DropOp op = DropOperation_NS /\ ParseUint (DropValue op) = Ok ns.

(** A manifest the loop does not pass over with [continue]: its drop
    operations are read. *)
Definition processed (m : Manifest) : bool :=
  negb ((ValidReadTs m =? 0) || (Z.of_nat (size (Groups m)) =? 0)).

(** An operation with property [P] in a manifest that comes before the
    [i]-th in the chain (a newer one) and is not passed over. *)
Definition droppedBefore (all : list Manifest) (i : nat) (P : DropOperation -> Prop)
    : Prop :=
  exists j m op, (j < i)%nat /\ all !! j = Some m /\ processed m = true /\
                 In op (DropOperations m) /\ P op.

(** The descriptor of the call [c] of [Map] holds the drops of the newer
    manifests, and none is a drop of everything. *)
Definition descriptorOf `{PlanDeps} (req : RestoreRequest) (all : list Manifest)
    (manifest0 : Manifest) (c : nat * loadBackupInput) : Prop :=
  (forall ns, ns ∈ dropNs (snd c) <-> droppedBefore all (fst c) (dropsData ns)) /\
  (forall p, p ∈ preds (snd c) <->
             p ∈ getPredsInGroup manifest0 (GroupId req) /\
             ~ droppedBefore all (fst c) (dropsAttr p)) /\
  ~ droppedBefore all (fst c) (fun op => isDropAll op = true).

(** The call [c] of [Map] is for a manifest that passes the guards of the
    loop, as do the manifests before it. *)
Definition mappedFrom (req : RestoreRequest) (all : list Manifest)
    (c : nat * loadBackupInput) : Prop :=
  exists m, all !! fst c = Some m /\
            processed m = true /\
            is_Some (Groups m !! GroupId req) /\
            version (snd c) = m_Version m /\
            Forall (fun m' => IncrementalFrom req <= BackupNum m') (take (S (fst c)) all).

(** The drop sets at the head of the turn for the [i]-th manifest hold
    the operations of the manifests before it. *)
Definition dropInv `{PlanDeps} (req : RestoreRequest) (manifest0 : Manifest)
    (all : list Manifest) (i : nat) (st : planState) : Prop :=
  (dropAll st = true <-> droppedBefore all i (fun op => isDropAll op = true)) /\
  (forall ns, ns ∈ ps_dropNs st <-> droppedBefore all i (dropsData ns)) /\
  (forall p, p ∈ dropAttr st <-> droppedBefore all i (dropsAttr p)) /\
  Forall (descriptorOf req all manifest0) (mapCalls st).

(** A manifest with one operation of each kind. *)
Definition dropManifest : Manifest :=
  {| BackupNum := 4; ValidReadTs := 400; Path := "backup-4";
     Groups := {[1 := ["a"; "b"]]}; Compression := "snappy"; m_Version := 2105;
     DropOperations := [{| DropOp := DropOperation_ATTR; DropValue := "b" |};
                        {| DropOp := DropOperation_DATA; DropValue := "3" |};
                        {| DropOp := DropOperation_NS; DropValue := "42" |}] |}.

(** *** The length written before an entry *)

(** The number held by the seven low bits of each byte, least significant
    group first. *)
Definition sevenBits (bs : bytes) : Z :=
  fold_right (fun b acc => byte_to_Z b mod 128 + 128 * acc) 0 bs.

(** The top bit of a byte: set on a byte that is followed by another. *)
Definition continues (b : byte) : bool := 128 <=? byte_to_Z b.

(** * Properties *)

(** ** Bytes *)

Lemma byte_to_Z_range b : 0 <= byte_to_Z b < 256.
Proof.
  unfold byte_to_Z. pose proof (Byte.to_N_bounded b). lia.
Qed.

Lemma byte_to_Z_inj a b : byte_to_Z a = byte_to_Z b -> a = b.
Proof.
  unfold byte_to_Z. intros E. apply N2Z.inj in E.
  pose proof (Byte.of_to_N a) as Ha. pose proof (Byte.of_to_N b) as Hb.
  rewrite E in Ha. congruence.
Qed.

Lemma byte_to_Z_to_byte z : byte_to_Z (Z_to_byte z) = z mod 256.
Proof.
  unfold byte_to_Z, Z_to_byte.
  assert (Hz : 0 <= z mod 256 < 256) by (apply Z.mod_pos_bound; lia).
  destruct (Byte.of_N (Z.to_N (z mod 256))) as [b|] eqn:E.
  - apply Byte.to_of_N in E. simpl. rewrite E. lia.
  - apply Byte.of_N_None_iff in E. lia.
Qed.

Lemma lor_shiftl_8 a b : 0 <= a < 256 -> 0 <= b -> Z.lor a (Z.shiftl b 8) = a + 256 * b.
Proof.
  intros Ha Hb.
  assert (Hland : Z.land a (Z.shiftl b 8) = 0).
  { apply Z.bits_inj'. intros n Hn. rewrite Z.land_spec, Z.bits_0.
    destruct (Z_lt_dec n 8) as [Hlt|Hge].
    - rewrite (Z.shiftl_spec_low b 8 n Hlt). apply andb_false_r.
    - assert (Z.testbit a n = false) as ->; [|reflexivity].
      destruct (Z.eq_dec a 0) as [->|Hne]; [apply Z.bits_0|].
      apply Z.bits_above_log2; [lia|].
      assert (Z.log2 a < 8); [|lia].
      apply Z.log2_lt_pow2; lia. }
  rewrite <- Z.lxor_lor by exact Hland.
  rewrite <- Z.add_nocarry_lxor by exact Hland.
  rewrite Z.shiftl_mul_pow2 by lia. change (2 ^ 8) with 256. lia.
Qed.

Lemma Uint16_PutUint16 v :
  0 <= v < 65536 ->
  exists b0 b1, PutUint16 v = [b0; b1] /\ Uint16 b0 b1 = v.
Proof.
  intros Hv. eexists _, _. split; [reflexivity|].
  unfold Uint16. rewrite lor_shiftl_8 by apply byte_to_Z_range.
  rewrite !byte_to_Z_to_byte, Z.shiftr_div_pow2 by lia.
  change (2 ^ 8) with 256.
  assert (0 <= v / 256 < 256) by (split; [apply Z.div_pos|apply Z.div_lt_upper_bound]; lia).
  rewrite (Z.mod_small (v / 256)) by lia.
  pose proof (Z.div_mod v 256). lia.
Qed.

(** ** The framing of a map entry *)

Lemma len_app {A} (l1 l2 : list A) : len (l1 ++ l2) = len l1 + len l2.
Proof. unfold len. rewrite length_app. lia. Qed.

Lemma len_nonneg {A} (l : list A) : 0 <= len l.
Proof. unfold len. lia. Qed.

Lemma frameEntry_shape key data :
  exists b0 b1,
    frameEntry key data = b0 :: b1 :: key ++ data /\
    Uint16 b0 b1 = len key mod 65536.
Proof.
  unfold frameEntry, uint16.
  destruct (Uint16_PutUint16 (len key mod 65536)) as (b0 & b1 & E & Hu).
  { apply Z.mod_pos_bound. lia. }
  exists b0, b1. rewrite E. split; [reflexivity|exact Hu].
Qed.

Lemma slice_Some s lo hi r :
  slice s lo hi = Some r ->
  0 <= lo /\ lo <= hi /\ hi <= len s /\ r = take (Z.to_nat (hi - lo)) (drop (Z.to_nat lo) s).
Proof.
  unfold slice. intros E.
  destruct (0 <=? lo) eqn:E1; [|discriminate].
  destruct (lo <=? hi) eqn:E2; [|discriminate].
  destruct (hi <=? len s) eqn:E3; [|discriminate].
  simpl in E. inversion E. repeat split; lia.
Qed.

Lemma slice_ok s lo hi :
  0 <= lo -> lo <= hi -> hi <= len s ->
  slice s lo hi = Some (take (Z.to_nat (hi - lo)) (drop (Z.to_nat lo) s)).
Proof.
  intros. unfold slice.
  rewrite (proj2 (Z.leb_le 0 lo)), (proj2 (Z.leb_le lo hi)), (proj2 (Z.leb_le hi (len s))) by lia.
  reflexivity.
Qed.

Lemma Key_Data_frameEntry key data :
  (Key (frameEntry key data) = Some key /\ Data (frameEntry key data) = Some data)
  <-> len key + 2 < 65536.
Proof.
  destruct (frameEntry_shape key data) as (b0 & b1 & E & Hu).
  rewrite E. unfold Key, Data. rewrite Hu. unfold uint16.
  pose proof (len_nonneg key) as Hk. pose proof (len_nonneg data) as Hd.
  assert (Hlen : len (b0 :: b1 :: key ++ data) = 2 + len key + len data).
  { unfold len. simpl. rewrite length_app. lia. }
  split.
  - intros [HK _]. apply slice_Some in HK as (_ & Hlo & _ & Heq).
    destruct (Z_lt_dec (len key + 2) 65536) as [|Hbig]; [assumption|exfalso].
    assert (Hm : 0 <= (2 + len key mod 65536) mod 65536 < 65536)
      by (apply Z.mod_pos_bound; lia).
    apply (f_equal (@length byte)) in Heq.
    rewrite length_take in Heq. unfold len in *. lia.
  - intros Hsmall.
    rewrite (Z.mod_small (len key)) by lia.
    rewrite (Z.mod_small (2 + len key)) by lia.
    rewrite !slice_ok by lia. split; f_equal.
    + replace (Z.to_nat (2 + len key - 2)) with (length key) by (unfold len; lia).
      change (Z.to_nat 2) with 2%nat. simpl. apply take_app_length.
    + rewrite Hlen.
      replace (Z.to_nat (2 + len key)) with (2 + length key)%nat by (unfold len; lia).
      simpl. rewrite drop_app_length.
      apply take_ge. unfold len. lia.
Qed.

(** ** The order of the keys *)

Lemma bytes_Compare_antisym a b : bytes_Compare b a = - bytes_Compare a b.
Proof.
  revert b. induction a as [|x a IH]; intros [|y b]; simpl; try reflexivity.
  destruct (byte_to_Z x <? byte_to_Z y) eqn:E1, (byte_to_Z y <? byte_to_Z x) eqn:E2;
    try reflexivity; [|apply IH].
  apply Z.ltb_lt in E1, E2. lia.
Qed.

Lemma bytes_Compare_eq a b : bytes_Compare a b = 0 <-> a = b.
Proof.
  revert b. induction a as [|x a IH]; intros [|y b]; simpl; split; try done.
  - destruct (byte_to_Z x <? byte_to_Z y) eqn:E1; [done|].
    destruct (byte_to_Z y <? byte_to_Z x) eqn:E2; [done|].
    intros E. apply IH in E as ->.
    apply Z.ltb_ge in E1, E2. f_equal. apply byte_to_Z_inj. lia.
  - intros [= -> ->]. rewrite Z.ltb_irrefl. by apply IH.
Qed.

Lemma bytes_Compare_trans a b c :
  bytes_Compare a b <= 0 -> bytes_Compare b c <= 0 -> bytes_Compare a c <= 0.
Proof.
  revert b c. induction a as [|x a IH]; intros [|y b] [|z c]; simpl; try lia.
  destruct (byte_to_Z x <? byte_to_Z y) eqn:E1, (byte_to_Z y <? byte_to_Z x) eqn:E2,
           (byte_to_Z y <? byte_to_Z z) eqn:E3, (byte_to_Z z <? byte_to_Z y) eqn:E4,
           (byte_to_Z x <? byte_to_Z z) eqn:E5, (byte_to_Z z <? byte_to_Z x) eqn:E6;
    try lia;
    rewrite ?Z.ltb_lt, ?Z.ltb_ge in *; try lia.
  apply IH.
Qed.

Lemma CompareKeys_antisym a b : CompareKeys b a = - CompareKeys a b.
Proof.
  unfold CompareKeys.
  rewrite (bytes_Compare_antisym (take _ a)).
  destruct (bytes_Compare (take _ a) (take _ b) =? 0) eqn:E.
  - apply Z.eqb_eq in E. rewrite E. simpl. apply bytes_Compare_antisym.
  - apply Z.eqb_neq in E.
    destruct (- bytes_Compare (take _ a) (take _ b) =? 0) eqn:E'; [|reflexivity].
    apply Z.eqb_eq in E'. lia.
Qed.

Lemma CompareKeys_eq a b : CompareKeys a b = 0 <-> a = b.
Proof.
  unfold CompareKeys. split.
  - destruct (bytes_Compare (take _ a) (take _ b) =? 0) eqn:E.
    + apply Z.eqb_eq, bytes_Compare_eq in E. intros E'%bytes_Compare_eq.
      rewrite <- (take_drop (length a - 8) a), <- (take_drop (length b - 8) b).
      congruence.
    + apply Z.eqb_neq in E. done.
  - intros ->.
    rewrite (proj2 (bytes_Compare_eq _ _) eq_refl). simpl.
    by apply bytes_Compare_eq.
Qed.

Lemma CompareKeys_trans a b c :
  CompareKeys a b <= 0 -> CompareKeys b c <= 0 -> CompareKeys a c <= 0.
Proof.
  unfold CompareKeys.
  set (pa := take _ a). set (pb := take _ b). set (pc := take _ c).
  set (sa := drop _ a). set (sb := drop _ b). set (sc := drop _ c).
  destruct (bytes_Compare pa pb =? 0) eqn:Eab.
  - apply Z.eqb_eq, bytes_Compare_eq in Eab. rewrite Eab.
    destruct (bytes_Compare pb pc =? 0) eqn:Ebc; [|done].
    apply bytes_Compare_trans.
  - apply Z.eqb_neq in Eab. intros Hab.
    destruct (bytes_Compare pb pc =? 0) eqn:Ebc.
    + apply Z.eqb_eq, bytes_Compare_eq in Ebc. rewrite <- Ebc.
      apply Z.eqb_neq in Eab. rewrite Eab. done.
    + intros Hbc.
      pose proof (bytes_Compare_trans _ _ _ Hab Hbc) as Hac.
      destruct (bytes_Compare pa pc =? 0) eqn:Eac; [|exact Hac].
      apply Z.eqb_eq, bytes_Compare_eq in Eac. rewrite Eac in Hab.
      apply Z.eqb_neq in Ebc.
      rewrite (bytes_Compare_antisym pb pc) in Hab. lia.
Qed.

Lemma notLess_entryLe l r : notLess entryLess l r <-> entryLe l r.
Proof.
  unfold notLess, entryLess, entryLe.
  rewrite (CompareKeys_antisym (mustKey l) (mustKey r)).
  rewrite Z.ltb_ge. lia.
Qed.

#[global] Instance notLess_total : Total (notLess entryLess).
Proof.
  intros l r. rewrite !notLess_entryLe. unfold entryLe.
  rewrite (CompareKeys_antisym (mustKey l) (mustKey r)). lia.
Qed.

#[global] Instance notLess_trans : Transitive (notLess entryLess).
Proof.
  intros a b c. rewrite !notLess_entryLe. apply CompareKeys_trans.
Qed.

Lemma StronglySorted_mono {A} (R1 R2 : relation A) l :
  (forall x y, R1 x y -> R2 x y) -> StronglySorted R1 l -> StronglySorted R2 l.
Proof.
  intros HR. induction 1 as [|x l Hs IH Hx]; constructor; [exact IH|].
  eapply Forall_impl; [exact Hx|]. intros y. apply HR.
Qed.

Lemma StronglySorted_sublist {A} (R : relation A) l1 l2 :
  l1 `sublist_of` l2 -> StronglySorted R l2 -> StronglySorted R l1.
Proof.
  induction 1 as [|x l1 l2 Hsub IH|x l1 l2 Hsub IH]; intros Hs.
  - constructor.
  - apply StronglySorted_inv in Hs as [Hs Hx]. constructor; [by apply IH|].
    rewrite Forall_forall in *. intros y Hy. apply Hx.
    eapply elem_of_sublist; eassumption.
  - apply StronglySorted_inv in Hs as [Hs _]. by apply IH.
Qed.

Lemma SortSlice_sorted buf : StronglySorted entryLe (SortSlice entryLess buf).
Proof.
  unfold SortSlice.
  eapply StronglySorted_mono; [|apply StronglySorted_merge_sort; apply _].
  intros l r. apply notLess_entryLe.
Qed.

Lemma SortSlice_perm buf : SortSlice entryLess buf ≡ₚ buf.
Proof. apply merge_sort_Permutation. Qed.

(** ** The map-file writer *)

Lemma wellFramed_Key me :
  wellFramed me = true -> Key me = Some (mustKey me) /\ 8 <= len (mustKey me).
Proof.
  unfold wellFramed, mustKey. destruct (Key me) as [k|]; [|done].
  intros Hk%Z.leb_le. done.
Qed.

Lemma frameEntry_wellFramed key data :
  8 <= len key -> len key + 2 < 65536 -> wellFramed (frameEntry key data) = true.
Proof.
  intros H8 Hsmall. unfold wellFramed.
  destruct (proj2 (Key_Data_frameEntry key data) Hsmall) as [-> _].
  by apply Z.leb_le.
Qed.

Lemma sorted_keysAscending entries :
  Forall (fun me => wellFramed me = true) entries ->
  StronglySorted entryLe entries -> StronglySorted keysAscending entries.
Proof.
  intros Hv Hs. induction Hs as [|x l Hs IH Hx]; constructor.
  - apply IH. by inversion Hv.
  - inversion Hv as [|? ? Hvx Hvl]; subst.
    rewrite Forall_forall in *. intros y Hy.
    destruct (wellFramed_Key x Hvx) as [Kx _].
    destruct (wellFramed_Key y (Hvl y Hy)) as [Ky _].
    exists (mustKey x), (mustKey y). repeat split; try done. by apply Hx.
Qed.

Section WriterProperties.
Context `{WriterDeps}.

Lemma writeToDisk_file nextId buf id f :
  writeToDisk nextId buf = (id, Some f) ->
  buf <> [] /\
  header f = {| PartitionKeys := partitionKeys buf |} /\
  written f = PutUint32 (uint32 (len (MapHeader_Marshal (header f))))
                :: MapHeader_Marshal (header f) :: flat_map writeSlice buf.
Proof.
  unfold writeToDisk. destruct buf as [|s buf]; simpl; [done|].
  intros [= <- <-]. simpl. done.
Qed.

Lemma writeNow_file nextId mbuf id f :
  writeNow nextId mbuf = (id, Some f) ->
  exists entries,
    entries = SortSlice entryLess mbuf /\
    entries ≡ₚ mbuf /\
    StronglySorted entryLe entries /\
    header f = {| PartitionKeys := partitionKeys entries |} /\
    written f = PutUint32 (uint32 (len (MapHeader_Marshal (header f))))
                  :: MapHeader_Marshal (header f) :: flat_map writeSlice entries.
Proof.
  unfold writeNow. destruct (IsEmpty mbuf); [done|].
  intros (_ & Hh & Hw)%writeToDisk_file.
  exists (SortSlice entryLess mbuf).
  split; [done|]. split; [apply SortSlice_perm|]. split; [apply SortSlice_sorted|].
  done.
Qed.

(** Every file a merger writes is the file [writeNow] makes of the buffers
    merged since the previous write. *)
Lemma mergeAndSend_files slots nextId mbuf writeCh f :
  Forall (fun me => wellFramed me = true) mbuf ->
  Forall (Forall (fun me => wellFramed me = true)) writeCh ->
  In f (snd (mergeAndSend slots nextId mbuf writeCh)) ->
  exists id mbuf' id',
    Forall (fun me => wellFramed me = true) mbuf' /\
    writeNow id mbuf' = (id', Some f).
Proof.
  revert slots nextId mbuf. induction writeCh as [|buf writeCh IH];
    intros slots nextId mbuf Hm Hw Hin; simpl in Hin.
  - destruct (writeNow nextId mbuf) as [id' [f'|]] eqn:E; simpl in Hin; [|done].
    destruct Hin as [<-|[]]. by exists nextId, mbuf, id'.
  - inversion Hw as [|? ? Hb Hw']; subst.
    assert (Hmb : Forall (fun me => wellFramed me = true) (mbuf ++ buf))
      by (by apply Forall_app).
    set (thr := if mapFileSz <=? LenNoPadding (mbuf ++ buf) then (true, slots)
                else if mapFileSz / 4 <=? LenNoPadding (mbuf ++ buf)
                     then match slots with got :: slots => (got, slots) | [] => (false, []) end
                     else (false, slots)) in *.
    destruct thr as [[|] slots'].
    + destruct (writeNow nextId (mbuf ++ buf)) as [id1 f1] eqn:E1.
      destruct (mergeAndSend slots' id1 [] writeCh) as [id2 fs] eqn:E2.
      simpl in Hin. apply in_app_or in Hin as [Hin|Hin].
      * destruct f1 as [f1|]; simpl in Hin; [|done].
        destruct Hin as [<-|[]]. by exists nextId, (mbuf ++ buf), id1.
      * apply (IH slots' id1 []); [constructor|done|]. by rewrite E2.
    + by apply (IH slots' nextId (mbuf ++ buf)).
Qed.

(** *** Partition keys *)

Lemma partitionStep_snoc pre e :
  let acc := bufSizeAfter pre + (4 + len e) in
  let keys := partitionKeys pre in
  (partitionBufSz <= acc /\ last keys <> Some (mustKey e) ->
     partitionKeys (pre ++ [e]) = keys ++ [mustKey e] /\ bufSizeAfter (pre ++ [e]) = 0) /\
  (~ (partitionBufSz <= acc /\ last keys <> Some (mustKey e)) ->
     partitionKeys (pre ++ [e]) = keys /\ bufSizeAfter (pre ++ [e]) = acc).
Proof.
  unfold partitionKeys, bufSizeAfter. rewrite fold_left_app. simpl.
  destruct (fold_left partitionStep pre ([], 0)) as [keys acc]. simpl.
  unfold partitionStep.
  destruct (acc + (4 + len e) <? partitionBufSz) eqn:E1.
  { apply Z.ltb_lt in E1. simpl. split; [lia|done]. }
  apply Z.ltb_ge in E1.
  assert (Hlast : (0 <? len keys) && bytes_Equal (mustKey e) (default [] (last keys)) = true
                  <-> last keys = Some (mustKey e)).
  { destruct keys as [|k0 keys _] using rev_ind.
    - simpl. split; done.
    - rewrite last_snoc, len_app. simpl. unfold bytes_Equal.
      rewrite andb_true_iff, Z.ltb_lt, bool_decide_eq_true.
      pose proof (len_nonneg keys). unfold len at 2. simpl.
      split; [intros [_ ->]; done|intros [= ->]; split; [lia|done]]. }
  destruct ((0 <? len keys) && bytes_Equal (mustKey e) (default [] (last keys))) eqn:E2; simpl.
  - apply proj1 in Hlast. specialize (Hlast eq_refl). split; [|done].
    intros [_ Hne]. done.
  - split; [done|]. intros Hn. exfalso. apply Hn. split; [lia|].
    intros Hl. apply Hlast in Hl. done.
Qed.

Lemma partitionKeys_sublist buf : partitionKeys buf `sublist_of` map mustKey buf.
Proof.
  induction buf as [|e pre IH] using rev_ind; [constructor|].
  rewrite map_app. simpl.
  destruct (partitionStep_snoc pre e) as [Hyes Hno].
  destruct (decide (partitionBufSz <= bufSizeAfter pre + (4 + len e)
                    /\ last (partitionKeys pre) <> Some (mustKey e))) as [Hc|Hc].
  - destruct (Hyes Hc) as [-> _]. by apply sublist_app.
  - destruct (Hno Hc) as [-> _]. by apply sublist_inserts_r.
Qed.

Lemma partitionKeys_no_repeat buf i a b :
  partitionKeys buf !! i = Some a -> partitionKeys buf !! S i = Some b -> a <> b.
Proof.
  revert i a b. induction buf as [|e pre IH] using rev_ind; intros i a b; [done|].
  destruct (partitionStep_snoc pre e) as [Hyes Hno].
  destruct (decide (partitionBufSz <= bufSizeAfter pre + (4 + len e)
                    /\ last (partitionKeys pre) <> Some (mustKey e))) as [Hc|Hc].
  - destruct (Hyes Hc) as [-> _]. destruct Hc as [_ Hlast].
    intros Ha Hb.
    destruct (decide (S i < length (partitionKeys pre))%nat) as [Hlt|Hge].
    + rewrite lookup_app_l in Ha by lia. rewrite lookup_app_l in Hb by lia.
      by apply (IH i).
    + assert (S i = length (partitionKeys pre)) as Hi.
      { apply lookup_lt_Some in Hb. rewrite length_app in Hb. simpl in Hb. lia. }
      rewrite lookup_app_l in Ha by lia.
      rewrite Hi, lookup_app_r, Nat.sub_diag in Hb by lia. simpl in Hb.
      injection Hb as <-.
      rewrite last_lookup in Hlast.
      replace (pred (length (partitionKeys pre))) with i in Hlast by lia.
      congruence.
  - destruct (Hno Hc) as [-> _]. apply IH.
Qed.

End WriterProperties.

(** ** Claims on the map files *)

Lemma omap_Key_wellFramed entries :
  Forall (fun me => wellFramed me = true) entries ->
  omap Key entries = map mustKey entries.
Proof.
  induction 1 as [|me l Hme Hl IH]; [done|].
  simpl. destruct (wellFramed_Key me Hme) as [-> _]. f_equal. exact IH.
Qed.

Lemma wellFramed_perm (l1 l2 : list mapEntry) :
  l1 ≡ₚ l2 ->
  Forall (fun me => wellFramed me = true) l2 ->
  Forall (fun me => wellFramed me = true) l1.
Proof. intros Hp Hf. by rewrite Hp. Qed.

(** C1, amended: in every map file written by a merger, the entries of the
    body are the merged buffer sorted by [writeNow], written in that order,
    and they ascend under the native key comparison; entries with equal
    keys may follow each other. *)
Theorem map_file_entries_ascending `{WriterDeps} slots nextId mbuf writeCh f :
  Forall (fun me => wellFramed me = true) mbuf ->
  Forall (Forall (fun me => wellFramed me = true)) writeCh ->
  In f (snd (mergeAndSend slots nextId mbuf writeCh)) ->
  exists merged entries,
    entries = SortSlice entryLess merged /\
    written f = PutUint32 (uint32 (len (MapHeader_Marshal (header f))))
                  :: MapHeader_Marshal (header f) :: flat_map writeSlice entries /\
    StronglySorted keysAscending entries.
Proof.
  intros Hm Hw Hin.
  destruct (mergeAndSend_files _ _ _ _ _ Hm Hw Hin) as (id & merged & id' & Hv & E).
  destruct (writeNow_file _ _ _ _ E) as (entries & He & Hp & Hs & _ & Hwr).
  exists merged, entries. split; [done|]. split; [done|].
  apply sorted_keysAscending; [|done]. by apply (wellFramed_perm _ merged).
Qed.

Lemma map_file_entries_ascending_witness :
  exists merged entries,
    entries = SortSlice entryLess merged /\
    written sortedFile
      = PutUint32 (uint32 (len (MapHeader_Marshal (WriterDeps := testWriter 10 64)
                                                  (header sortedFile))))
          :: MapHeader_Marshal (WriterDeps := testWriter 10 64) (header sortedFile)
          :: flat_map writeSlice entries /\
    StronglySorted keysAscending entries.
Proof.
  apply (map_file_entries_ascending (H := testWriter 10 64) [] 0 [] [unsortedEntries]).
  - constructor.
  - repeat constructor.
  - vm_compute. left. reflexivity.
Defined.

(** C1 as stated fails: two entries with the same key are written one after
    the other, and they are not strictly ascending. *)
Lemma map_file_entries_not_strict :
  exists f,
    snd (mergeAndSend (H := testWriter 10 64) [] 0 [] [[sameKeyEntry; sameKeyEntry]]) = [f] /\
    wellFramed sameKeyEntry = true /\
    drop 2 (written f) = flat_map writeSlice [sameKeyEntry; sameKeyEntry] /\
    ~ Sorted keysStrictlyAscending [sameKeyEntry; sameKeyEntry].
Proof.
  eexists. split; [vm_compute; reflexivity|].
  split; [vm_compute; reflexivity|].
  split; [vm_compute; reflexivity|].
  intros Hs. inversion Hs as [|? ? _ Hhd]; subst.
  inversion Hhd as [|? ? (ka & kb & Ha & Hb & Hlt)]; subst.
  assert (ka = kb) as -> by congruence.
  rewrite (proj2 (CompareKeys_eq kb kb) eq_refl) in Hlt. lia.
Qed.

(** C3: in every map file written by a merger, the partition keys of the
    header are a subsequence of the keys of the file's sorted entries, they
    ascend, and no two consecutive ones are equal; walking the entries, the
    key of an entry is recorded exactly when the bytes accumulated since the
    last recorded key (four bytes and the entry's length per entry, this
    entry included) reach [partitionBufSz] and the key differs from the
    last recorded one, and the count starts again only then. *)
Theorem partition_keys_sampled `{WriterDeps} slots nextId mbuf writeCh f :
  Forall (fun me => wellFramed me = true) mbuf ->
  Forall (Forall (fun me => wellFramed me = true)) writeCh ->
  In f (snd (mergeAndSend slots nextId mbuf writeCh)) ->
  exists entries,
    drop 2 (written f) = flat_map writeSlice entries /\
    StronglySorted keysAscending entries /\
    PartitionKeys (header f) = partitionKeys entries /\
    PartitionKeys (header f) `sublist_of` omap Key entries /\
    StronglySorted (fun a b => CompareKeys a b <= 0) (PartitionKeys (header f)) /\
    (forall i a b,
        PartitionKeys (header f) !! i = Some a ->
        PartitionKeys (header f) !! S i = Some b -> a <> b) /\
    (forall pre e post k,
        entries = pre ++ e :: post -> Key e = Some k ->
        let acc := bufSizeAfter pre + (4 + len e) in
        let recorded := partitionBufSz <= acc /\ last (partitionKeys pre) <> Some k in
        (recorded ->
           partitionKeys (pre ++ [e]) = partitionKeys pre ++ [k] /\
           bufSizeAfter (pre ++ [e]) = 0) /\
        (~ recorded ->
           partitionKeys (pre ++ [e]) = partitionKeys pre /\
           bufSizeAfter (pre ++ [e]) = acc)).
Proof.
  intros Hm Hw Hin.
  destruct (mergeAndSend_files _ _ _ _ _ Hm Hw Hin) as (id & merged & id' & Hv & E).
  destruct (writeNow_file _ _ _ _ E) as (entries & He & Hp & Hs & Hh & Hwr).
  assert (Hve : Forall (fun me => wellFramed me = true) entries)
    by (by apply (wellFramed_perm _ merged)).
  exists entries. rewrite Hwr, Hh. simpl.
  split; [done|]. split; [by apply sorted_keysAscending|]. split; [done|].
  rewrite omap_Key_wellFramed by done.
  split; [apply partitionKeys_sublist|].
  split.
  { eapply StronglySorted_sublist; [apply partitionKeys_sublist|].
    clear -Hs. induction Hs as [|x l Hs IH Hx]; simpl; constructor; [done|].
    rewrite Forall_forall in *. intros k (y & -> & Hy)%list_elem_of_fmap.
    by apply Hx. }
  split; [apply partitionKeys_no_repeat|].
  intros pre e post k -> Hk.
  assert (mustKey e = k) as <- by (unfold mustKey; by rewrite Hk).
  apply partitionStep_snoc.
Qed.

Lemma partition_keys_sampled_witness :
  exists entries,
    drop 2 (written sortedFile) = flat_map writeSlice entries /\
    StronglySorted keysAscending entries /\
    PartitionKeys (header sortedFile) = partitionKeys (H := testWriter 10 64) entries /\
    PartitionKeys (header sortedFile) `sublist_of` omap Key entries /\
    StronglySorted (fun a b => CompareKeys a b <= 0) (PartitionKeys (header sortedFile)) /\
    (forall i a b,
        PartitionKeys (header sortedFile) !! i = Some a ->
        PartitionKeys (header sortedFile) !! S i = Some b -> a <> b) /\
    (forall pre e post k,
        entries = pre ++ e :: post -> Key e = Some k ->
        let acc := bufSizeAfter (H := testWriter 10 64) pre + (4 + len e) in
        let recorded := 10 <= acc
                        /\ last (partitionKeys (H := testWriter 10 64) pre) <> Some k in
        (recorded ->
           partitionKeys (H := testWriter 10 64) (pre ++ [e])
             = partitionKeys (H := testWriter 10 64) pre ++ [k] /\
           bufSizeAfter (H := testWriter 10 64) (pre ++ [e]) = 0) /\
        (~ recorded ->
           partitionKeys (H := testWriter 10 64) (pre ++ [e])
             = partitionKeys (H := testWriter 10 64) pre /\
           bufSizeAfter (H := testWriter 10 64) (pre ++ [e]) = acc)).
Proof.
  apply (partition_keys_sampled (H := testWriter 10 64) [] 0 [] [unsortedEntries]).
  - constructor.
  - repeat constructor.
  - vm_compute. left. reflexivity.
Defined.

(** The header of the file above: every entry reaches the interval of ten
    bytes, and all are sampled but the third, whose key is the one recorded
    last. *)
Example sortedFile_partition_keys :
  omap Key (SortSlice entryLess unsortedEntries)
    = [[x00; x01; x03; x61] ++ PutUint64 (MaxUint64 - 50);
       [x00; x01; x07; x61] ++ PutUint64 (MaxUint64 - 50);
       [x00; x01; x07; x61] ++ PutUint64 (MaxUint64 - 50);
       [x00; x01; x09; x62] ++ PutUint64 (MaxUint64 - 60)] /\
  PartitionKeys (header sortedFile)
    = [[x00; x01; x03; x61] ++ PutUint64 (MaxUint64 - 50);
       [x00; x01; x07; x61] ++ PutUint64 (MaxUint64 - 50);
       [x00; x01; x09; x62] ++ PutUint64 (MaxUint64 - 60)].
Proof. split; vm_compute; reflexivity. Qed.

(** ** Claims on the record processor *)

Section ProcessorProperties.
Context `{ProcDeps}.
Variable restoreTs : Z.

Lemma toBuffer_buf st kv version :
  p_buf (toBuffer st kv version)
  = p_buf st ++ [frameEntry (KeyWithTs (kv_Key kv) version) (KV_Marshal kv)].
Proof. reflexivity. Qed.

Lemma toBuffer_max st kv version :
  p_maxUid (toBuffer st kv version) = p_maxUid st /\
  p_maxNs (toBuffer st kv version) = p_maxNs st /\
  p_log (toBuffer st kv version) = p_log st.
Proof. done. Qed.

Lemma writeRollup_buf st kvs :
  p_buf (writeRollup restoreTs st kvs)
  = p_buf st ++ map (fun kv => frameEntry (KeyWithTs (kv_Key kv) (kv_Version kv))
                                          (KV_Marshal (set_Version kv restoreTs))) kvs.
Proof.
  revert st. induction kvs as [|kv kvs IH]; intros st; simpl.
  - by rewrite app_nil_r.
  - unfold writeRollup in *. simpl. rewrite IH, toBuffer_buf.
    by rewrite <- app_assoc.
Qed.

Lemma writeRollup_max st kvs :
  p_maxUid (writeRollup restoreTs st kvs) = p_maxUid st /\
  p_maxNs (writeRollup restoreTs st kvs) = p_maxNs st /\
  p_log (writeRollup restoreTs st kvs) = p_log st.
Proof.
  revert st. induction kvs as [|kv kvs IH]; intros st; [done|].
  unfold writeRollup in *. simpl. destruct (IH (toBuffer st (set_Version kv restoreTs) (kv_Version kv)))
    as (-> & -> & ->). done.
Qed.

End ProcessorProperties.

(** How far [Key] and [Data] read back what [toBuffer] writes: the
    length of the timestamped key is stored modulo 2^16 in the first two
    bytes of the entry, and [Key] and [Data] give back the key and the
    marshalled KV exactly when the key length plus two is below 65536.
    Between 65534 and 65535 bytes the stored length is still exact, and
    the readers fail on it. *)
Lemma toBuffer_key_length_wraps `{ProcDeps} st kv version :
  let key := KeyWithTs (kv_Key kv) version in
  let data := KV_Marshal kv in
  exists b0 b1,
    p_buf (toBuffer st kv version) = p_buf st ++ [b0 :: b1 :: key ++ data] /\
    Uint16 b0 b1 = len key mod 65536 /\
    ((Key (b0 :: b1 :: key ++ data) = Some key /\
      Data (b0 :: b1 :: key ++ data) = Some data)
     <-> len key + 2 < 65536).
Proof.
  intros key data.
  destruct (frameEntry_shape key data) as (b0 & b1 & E & Hu).
  exists b0, b1. rewrite toBuffer_buf. fold key data. rewrite <- E.
  split; [done|]. split; [done|]. apply Key_Data_frameEntry.
Qed.

(** An entry framed for a key of 65534 bytes: the stored length is exact,
    and [2+sz] is zero in [uint16]. *)
Lemma frameEntry_65534 key data :
  len key = 65534 ->
  exists b0 b1,
    frameEntry key data = b0 :: b1 :: key ++ data /\
    Uint16 b0 b1 = 65534 /\
    Key (b0 :: b1 :: key ++ data) = None /\
    (forall spare, KeyIn (b0 :: b1 :: key ++ data) spare = None) /\
    Data (b0 :: b1 :: key ++ data) = Some (b0 :: b1 :: key ++ data) /\
    (forall spare, DataIn (b0 :: b1 :: key ++ data) spare
                   = Some (b0 :: b1 :: key ++ data)).
Proof.
  intros Hlen.
  destruct (frameEntry_shape key data) as (b0 & b1 & E & Hu).
  rewrite Hlen in Hu. change (65534 mod 65536) with 65534 in Hu.
  assert (Hwrap : uint16 (2 + 65534) = 0) by reflexivity.
  exists b0, b1. split; [done|]. split; [done|].
  set (me := b0 :: b1 :: key ++ data).
  assert (Hdata : slice me 0 (len me) = Some me).
  { pose proof (len_nonneg me).
    rewrite slice_ok by lia. f_equal. rewrite Z.sub_0_r. change (Z.to_nat 0) with 0%nat.
    rewrite drop_0. apply take_ge. unfold len. lia. }
  split; [|split; [|split]].
  - unfold Key, me. rewrite Hu, Hwrap. reflexivity.
  - intros spare. unfold KeyIn, me. cbn [app]. rewrite Hu, Hwrap. reflexivity.
  - unfold Data. unfold me at 1. rewrite Hu, Hwrap. exact Hdata.
  - intros spare. unfold DataIn. unfold me at 1. cbn [app]. rewrite Hu, Hwrap. exact Hdata.
Qed.

(** C10, a defect of the code: a timestamped key of 65534 bytes is shorter
    than 65536 bytes, and [toBuffer] writes for it an entry whose first two
    bytes hold its exact length; yet [Key] panics on that entry, whatever
    follows it in the buffer, and [Data] returns the whole entry instead of
    the marshalled KV, the sum [2+sz] having wrapped to zero in [uint16]. *)
Theorem toBuffer_key_65534_defect :
  let key := KeyWithTs (ProcDeps := testProc) (kv_Key longKeyKV) 50 in
  let data := KV_Marshal (ProcDeps := testProc) longKeyKV in
  exists b0 b1,
    p_buf (toBuffer (H := testProc) st0 longKeyKV 50) = [b0 :: b1 :: key ++ data] /\
    len key = 65534 /\
    Uint16 b0 b1 = 65534 /\
    Key (b0 :: b1 :: key ++ data) = None /\
    (forall spare, KeyIn (b0 :: b1 :: key ++ data) spare = None) /\
    Data (b0 :: b1 :: key ++ data) = Some (b0 :: b1 :: key ++ data) /\
    (forall spare, DataIn (b0 :: b1 :: key ++ data) spare
                   = Some (b0 :: b1 :: key ++ data)).
Proof.
  intros key data.
  assert (Hlen : len key = 65534) by (vm_compute; reflexivity).
  pose proof (toBuffer_buf (H := testProc) st0 longKeyKV 50) as Hbuf.
  fold key data in Hbuf. change (p_buf st0 ++ ?l) with l in Hbuf.
  clearbody key data.
  destruct (frameEntry_65534 key data Hlen) as (b0 & b1 & E & Hrest).
  exists b0, b1. split; [|split; [exact Hlen|exact Hrest]].
  rewrite Hbuf, E. reflexivity.
Qed.

(** What [processKV] adds to the buffer: one entry for each record [out] of
    a list, framed behind the key [KeyWithTs out.Key kv.Version], every
    record having the version [restoreTs]. *)
Lemma processKV_emits `{ProcDeps} restoreTs st inp kv st' r :
  RollupKeepsVersion ->
  processKV restoreTs st inp kv = (st', r) ->
  exists outs,
    p_buf st' = p_buf st
                ++ map (fun out => frameEntry (KeyWithTs (kv_Key out) (kv_Version kv))
                                              (KV_Marshal out)) outs /\
    Forall (fun out => kv_Version out = restoreTs) outs.
Proof.
  intros Hroll E. unfold processKV in E.
  assert (Hnone : forall s : pstate, p_buf s = p_buf st ->
            exists outs,
              p_buf s = p_buf st
                ++ map (fun out => frameEntry (KeyWithTs (kv_Key out) (kv_Version kv))
                                              (KV_Marshal out)) outs /\
              Forall (fun out => kv_Version out = restoreTs) outs).
  { intros s Hs. exists []. simpl. rewrite app_nil_r. split; [done|constructor]. }
  destruct (negb (len (kv_UserMeta kv) =? 1)); [injection E as <- <-; by apply Hnone|].
  destruct (fromBackupKey (kv_Key kv)) as [[restoreKey ns]|e];
    [|injection E as <- <-; by apply Hnone].
  destruct (Parse restoreKey) as [parsedKey|e]; [|injection E as <- <-; by apply Hnone].
  destruct (negb (keepSchema inp) && (IsSchema parsedKey || IsType parsedKey));
    [injection E as <- <-; by apply Hnone|].
  destruct (negb (IsType parsedKey) && negb (bool_decide (Attr parsedKey ∈ preds inp)));
    [injection E as <- <-; by apply Hnone|].
  destruct (isPostingMeta (hd x00 (kv_UserMeta kv))).
  - destruct (bool_decide (ns ∈ dropNs inp)); [injection E as <- <-; by apply Hnone|].
    destruct (BackupPostingList_Unmarshal (kv_Value kv)) as [backupPl|e];
      [|injection E as <- <-; by apply Hnone].
    destruct (negb (ShouldSplit (FromBackupPostingList backupPl)) || HasStartUid parsedKey
              || (0 <? len (GetSplits (FromBackupPostingList backupPl)))).
    + injection E as <- <-. eexists [_]. rewrite toBuffer_buf. cbn [map].
      split; [reflexivity|]. repeat constructor.
    + destruct (Rollup restoreKey (FromBackupPostingList backupPl) (kv_Version kv))
        as [kvs|e] eqn:Hr; [|injection E as <- <-; by apply Hnone].
      injection E as <- <-.
      exists (map (fun kv' => set_Version kv' restoreTs) kvs).
      rewrite writeRollup_buf. split.
      * f_equal. rewrite map_map. apply map_ext_in. intros kv' Hin. simpl.
        by rewrite (Hroll _ _ _ _ _ Hr Hin).
      * apply Forall_forall. intros out (kv' & -> & _)%list_elem_of_fmap. reflexivity.
  - destruct (bool_decide (hd x00 (kv_UserMeta kv) = BitSchemaPosting));
      [|injection E as <- <-; by apply Hnone].
    destruct (migrate inp parsedKey kv) as [value|line];
      [|injection E as <- <-; by apply Hnone].
    injection E as <- <-. eexists [_]. rewrite toBuffer_buf. cbn [map].
    split; [reflexivity|]. repeat constructor.
Qed.

(** C2: every entry [processKV] adds to the buffer, for a posting list
    passed through, for each record of a rollup and for a schema record,
    holds a marshalled KV whose [Version] is [restoreTs] behind a key made
    by [KeyWithTs] from the KV's key and the version of the source record;
    [Key] and [Data] give back that key and that KV when the key is short
    enough for the framing.  For the records of a rollup this rests on
    [RollupKeepsVersion]. *)
Theorem emitted_entries_versions `{ProcDeps} restoreTs st inp kv st' r :
  RollupKeepsVersion ->
  processKV restoreTs st inp kv = (st', r) ->
  exists outs,
    p_buf st' = p_buf st
                ++ map (fun out => frameEntry (KeyWithTs (kv_Key out) (kv_Version kv))
                                              (KV_Marshal out)) outs /\
    Forall (fun out => kv_Version out = restoreTs) outs /\
    Forall (fun out =>
              let key := KeyWithTs (kv_Key out) (kv_Version kv) in
              let entry := frameEntry key (KV_Marshal out) in
              len key + 2 < 65536 ->
              Key entry = Some key /\ Data entry = Some (KV_Marshal out)) outs.
Proof.
  intros Hroll E.
  destruct (processKV_emits restoreTs st inp kv st' r Hroll E) as (outs & Hbuf & Hver).
  exists outs. split; [exact Hbuf|]. split; [exact Hver|].
  apply Forall_forall. intros out _ key entry Hlen.
  by apply Key_Data_frameEntry.
Qed.

Lemma testProc_RollupKeepsVersion : RollupKeepsVersion (H := testProc).
Proof.
  intros key pl minTs kvs kv Hr Hin. simpl in Hr. injection Hr as <-.
  destruct Hin as [<-|[<-|[]]]; reflexivity.
Qed.

Lemma emitted_entries_versions_witness :
  exists outs,
    p_buf (fst (processKV (H := testProc) 100 st0 (newestInput 2105) rollupKV))
    = p_buf st0
      ++ map (fun out => frameEntry (KeyWithTs (ProcDeps := testProc) (kv_Key out)
                                               (kv_Version rollupKV))
                                    (KV_Marshal (ProcDeps := testProc) out)) outs /\
    Forall (fun out => kv_Version out = 100) outs /\
    Forall (fun out =>
              let key := KeyWithTs (ProcDeps := testProc) (kv_Key out)
                                   (kv_Version rollupKV) in
              let entry := frameEntry key (KV_Marshal (ProcDeps := testProc) out) in
              len key + 2 < 65536 ->
              Key entry = Some key /\
              Data entry = Some (KV_Marshal (ProcDeps := testProc) out)) outs.
Proof.
  apply (emitted_entries_versions (H := testProc) 100 st0 (newestInput 2105) rollupKV
           _ (snd (processKV (H := testProc) 100 st0 (newestInput 2105) rollupKV))).
  - exact testProc_RollupKeepsVersion.
  - apply surjective_pairing.
Defined.

(** The two entries of that run: the rolled-up list and its part, both with
    the source version 50 behind the key and the KV at version 100. *)
Example rollupKV_entries :
  processKV (H := testProc) 100 st0 (newestInput 2105) rollupKV
  = ({| p_maxUid := 7; p_maxNs := 1;
        p_buf :=
          [frameEntry ([x00; x01; x07; x61] ++ PutUint64 (MaxUint64 - 50))
             (test_KV_Marshal
                (set_Version (set_Key (test_MarshalPostingList [x01; x02; x03; x04])
                                      [x00; x01; x07; x61]) 100));
           frameEntry ([x00; x01; x07; x61; x04] ++ PutUint64 (MaxUint64 - 50))
             (test_KV_Marshal
                (set_Version (set_Key (test_MarshalPostingList [x05; x06])
                                      [x00; x01; x07; x61; x04]) 100))];
        p_log := [] |}, Ok tt).
Proof. vm_compute. reflexivity. Qed.

Lemma app_eq_self {A} (l k : list A) : l ++ k = l -> k = [].
Proof.
  intros E. apply (f_equal length) in E. rewrite length_app in E.
  destruct k; [done|simpl in E; lia].
Qed.

(** C5, amended: for a record with one meta byte whose key decodes,
    [processKV] returns success with nothing added to the buffer or the
    log in each of the three filter cases; and a successful call that adds
    nothing to the buffer is one of these filter cases, or a schema record
    whose migration failed, or a posting list whose rollup returned no
    record. *)
Theorem filtered_records_skipped `{ProcDeps} restoreTs st inp kv restoreKey ns parsedKey :
  len (kv_UserMeta kv) = 1 ->
  fromBackupKey (kv_Key kv) = Ok (restoreKey, ns) ->
  Parse restoreKey = Ok parsedKey ->
  let schemaFilter :=
    keepSchema inp = false /\ (IsSchema parsedKey = true \/ IsType parsedKey = true) in
  let predFilter := IsType parsedKey = false /\ Attr parsedKey ∉ preds inp in
  let nsFilter := isPostingMeta (hd x00 (kv_UserMeta kv)) = true /\ ns ∈ dropNs inp in
  let migrationFailed :=
    hd x00 (kv_UserMeta kv) = BitSchemaPosting /\
    exists line, migrate inp parsedKey kv = inr line in
  let emptyRollup :=
    isPostingMeta (hd x00 (kv_UserMeta kv)) = true /\
    exists backupPl,
      BackupPostingList_Unmarshal (kv_Value kv) = Ok backupPl /\
      Rollup restoreKey (FromBackupPostingList backupPl) (kv_Version kv) = Ok [] in
  (schemaFilter \/ predFilter \/ nsFilter ->
     processKV restoreTs st inp kv = (set_max st (Uid parsedKey) ns, Ok tt)) /\
  (forall st',
     processKV restoreTs st inp kv = (st', Ok tt) -> p_buf st' = p_buf st ->
     schemaFilter \/ predFilter \/ nsFilter \/ migrationFailed \/ emptyRollup).
Proof.
  intros Hmeta Hkey Hparse. cbv zeta. unfold processKV.
  rewrite Hmeta, Hkey, Hparse. cbn [Z.eqb Pos.eqb negb].
  destruct (keepSchema inp) eqn:Eks, (IsSchema parsedKey) eqn:Es,
           (IsType parsedKey) eqn:Et,
           (bool_decide (Attr parsedKey ∈ preds inp)) eqn:Ep;
    cbn [negb andb orb];
    try apply bool_decide_eq_true in Ep; try apply bool_decide_eq_false in Ep;
    try (split; [done|intros st' _ _; intuition congruence]).
  all: destruct (isPostingMeta (hd x00 (kv_UserMeta kv))) eqn:Em.
  all: try destruct (bool_decide (ns ∈ dropNs inp)) eqn:En;
    try apply bool_decide_eq_true in En; try apply bool_decide_eq_false in En;
    try (split; [done|intros st' _ _; intuition congruence]).
  all: split; [intuition congruence|].
  all: intros st'.
  all: try (destruct (BackupPostingList_Unmarshal (kv_Value kv)) as [backupPl|e]; [|done];
       destruct (negb (ShouldSplit (FromBackupPostingList backupPl)) || HasStartUid parsedKey
                 || (0 <? len (GetSplits (FromBackupPostingList backupPl))));
       [ intros [= <-]; rewrite toBuffer_buf; intros E%app_eq_self; done
       | destruct (Rollup restoreKey (FromBackupPostingList backupPl) (kv_Version kv))
           as [kvs|e] eqn:Hr; [|done];
         intros [= <-]; rewrite writeRollup_buf; intros E%app_eq_self;
         apply map_eq_nil in E; subst kvs;
         do 4 right; split; [done|]; by exists backupPl ]).
  all: destruct (bool_decide (hd x00 (kv_UserMeta kv) = BitSchemaPosting)) eqn:Eb; [|done].
  all: apply bool_decide_eq_true in Eb.
  all: destruct (migrate inp parsedKey kv) as [value|line] eqn:Emig;
    [ intros [= <-]; rewrite toBuffer_buf; intros E%app_eq_self; done
    | intros _ _; do 3 right; left; split; [done|]; by exists line ].
Qed.

Lemma filtered_records_skipped_witness :
  len (kv_UserMeta droppedNsKV) = 1 /\
  fromBackupKey (H := testProc) (kv_Key droppedNsKV) = Ok ([x00; x09; x05; x61], 9) /\
  Parse (ProcDeps := testProc) [x00; x09; x05; x61]
    = Ok {| Attr := "a"; Uid := 5; HasStartUid := false; bytePrefix := x00 |} /\
  processKV (H := testProc) 100 st0 (newestInput 2105) droppedNsKV
    = ({| p_maxUid := 5; p_maxNs := 9; p_buf := []; p_log := [] |}, Ok tt).
Proof.
  assert (Hmeta : len (kv_UserMeta droppedNsKV) = 1) by reflexivity.
  assert (Hkey : fromBackupKey (H := testProc) (kv_Key droppedNsKV)
                 = Ok ([x00; x09; x05; x61], 9)) by reflexivity.
  assert (Hparse : Parse (ProcDeps := testProc) [x00; x09; x05; x61]
                   = Ok {| Attr := "a"; Uid := 5; HasStartUid := false;
                           bytePrefix := x00 |}) by reflexivity.
  split; [exact Hmeta|]. split; [exact Hkey|]. split; [exact Hparse|].
  apply (proj1 (filtered_records_skipped (H := testProc) 100 st0 (newestInput 2105)
                  droppedNsKV _ _ _ Hmeta Hkey Hparse)).
  right. right. split; [reflexivity|]. vm_compute. reflexivity.
Defined.

(** C5 as stated fails: this record is skipped with success although the
    schema is kept, its key is a type key and its meta is not a posting
    meta, so that none of the three filter cases holds. *)
Lemma skipped_outside_filter_cases :
  exists parsedKey st',
    fromBackupKey (H := testProc) (kv_Key badTypeKV) = Ok ([x02; x00; x00; x50], 0) /\
    Parse (ProcDeps := testProc) [x02; x00; x00; x50] = Ok parsedKey /\
    processKV (H := testProc) 100 st0 (newestInput 0) badTypeKV = (st', Ok tt) /\
    p_buf st' = p_buf st0 /\
    keepSchema (newestInput 0) = true /\
    IsType parsedKey = true /\
    isPostingMeta (hd x00 (kv_UserMeta badTypeKV)) = false.
Proof.
  eexists _, _. split; [reflexivity|]. split; [reflexivity|].
  split; [vm_compute; reflexivity|]. repeat split.
Qed.

Lemma IsSchema_not_IsType parsedKey : IsSchema parsedKey = true -> IsType parsedKey = false.
Proof.
  unfold IsSchema, IsType. intros E%bool_decide_eq_true.
  apply bool_decide_eq_false. by rewrite E.
Qed.

Section SchemaRecords.
Context `{ProcDeps}.
Variable restoreTs : Z.

Lemma fieldsFrom2103_Forall2 fields fields' :
  fieldsFrom2103 fields = Ok fields' ->
  Forall2 (fun old new => AttrFrom2103 (Predicate old) = Ok (Predicate new)
                          /\ su_rest new = su_rest old) fields fields'.
Proof.
  revert fields'. induction fields as [|sch fields IH]; intros fields'; simpl.
  - intros [= <-]. constructor.
  - destruct (AttrFrom2103 (Predicate sch)) as [p|e] eqn:Ep; [|done].
    destruct (fieldsFrom2103 fields) as [fs|e]; [|done].
    intros [= <-]. constructor; [done|]. by apply IH.
Qed.

(** A schema record that passed the filters: what is left of [processKV]
    is the migration and the write. *)
Lemma processKV_schema st inp kv restoreKey ns parsedKey :
  kv_UserMeta kv = [BitSchemaPosting] ->
  fromBackupKey (kv_Key kv) = Ok (restoreKey, ns) ->
  Parse restoreKey = Ok parsedKey ->
  keepSchema inp = true \/ (IsSchema parsedKey = false /\ IsType parsedKey = false) ->
  IsType parsedKey = true \/ Attr parsedKey ∈ preds inp ->
  processKV restoreTs st inp kv
  = match migrate inp parsedKey kv with
    | inr line => (add_log (set_max st (Uid parsedKey) ns) line, Ok tt)
    | inl value =>
        (toBuffer (set_max st (Uid parsedKey) ns)
           (set_Key (set_Version (set_StreamId (set_Value kv value) 0) restoreTs) restoreKey)
           (kv_Version kv), Ok tt)
    end.
Proof.
  intros Hmeta Hkey Hparse Hf1 Hf2. unfold processKV.
  rewrite Hmeta, Hkey, Hparse.
  change (negb (len [BitSchemaPosting] =? 1)) with false. cbn iota.
  assert (negb (keepSchema inp) && (IsSchema parsedKey || IsType parsedKey) = false) as ->.
  { destruct Hf1 as [->|[-> ->]]; [done|]. by destruct (keepSchema inp). }
  assert (negb (IsType parsedKey) && negb (bool_decide (Attr parsedKey ∈ preds inp)) = false)
    as ->.
  { destruct Hf2 as [->|Hin]; [done|].
    rewrite (bool_decide_eq_true_2 _ Hin). by destruct (IsType parsedKey). }
  change (isPostingMeta (hd x00 [BitSchemaPosting])) with false.
  change (bool_decide (hd x00 [BitSchemaPosting] = BitSchemaPosting)) with true.
  cbn iota. reflexivity.
Qed.

End SchemaRecords.

(** C6: a schema record that passed the filters and whose migration gives
    [value] adds exactly one entry, holding the record with that value, the
    native key, the version [restoreTs] and a zero [StreamId]; and [value]
    is fixed by the archive version.  For version 0 a type key has the
    galaxy tag put before the type name and before the predicate of each
    field, other keys keep their value; for version 2103 a schema update
    has its predicate, and a type update its name and the predicate of each
    field, rewritten by [AttrFrom2103]; from version 2105 on, and for any
    version other than 0 and 2103, the value is unchanged. *)
Theorem schema_value_migration `{ProcDeps} restoreTs st inp kv restoreKey ns parsedKey value :
  kv_UserMeta kv = [BitSchemaPosting] ->
  fromBackupKey (kv_Key kv) = Ok (restoreKey, ns) ->
  Parse restoreKey = Ok parsedKey ->
  keepSchema inp = true \/ (IsSchema parsedKey = false /\ IsType parsedKey = false) ->
  IsType parsedKey = true \/ Attr parsedKey ∈ preds inp ->
  migrate inp parsedKey kv = inl value ->
  let out := {| kv_Key := restoreKey; kv_Value := value; kv_UserMeta := kv_UserMeta kv;
                kv_Version := restoreTs; kv_ExpiresAt := kv_ExpiresAt kv;
                kv_Meta := kv_Meta kv; kv_StreamId := 0;
                kv_StreamDone := kv_StreamDone kv |} in
  processKV restoreTs st inp kv
    = (set_buf (set_max st (Uid parsedKey) ns)
         (p_buf st ++ [frameEntry (KeyWithTs restoreKey (kv_Version kv)) (KV_Marshal out)]),
       Ok tt) /\
  (version inp = 0 -> IsType parsedKey = true ->
     exists update,
       TypeUpdate_Unmarshal (kv_Value kv) = Ok update /\
       TypeUpdate_Marshal
         {| TypeName := GalaxyAttr (TypeName update);
            Fields := map (fun sch => {| Predicate := GalaxyAttr (Predicate sch);
                                         su_rest := su_rest sch |}) (Fields update) |}
       = Ok value) /\
  (version inp = 0 -> IsType parsedKey = false -> value = kv_Value kv) /\
  (version inp = 2103 -> IsSchema parsedKey = true ->
     exists update p,
       SchemaUpdate_Unmarshal (kv_Value kv) = Ok update /\
       AttrFrom2103 (Predicate update) = Ok p /\
       SchemaUpdate_Marshal {| Predicate := p; su_rest := su_rest update |} = Ok value) /\
  (version inp = 2103 -> IsType parsedKey = true ->
     exists update typeName fields,
       TypeUpdate_Unmarshal (kv_Value kv) = Ok update /\
       AttrFrom2103 (TypeName update) = Ok typeName /\
       Forall2 (fun old new => AttrFrom2103 (Predicate old) = Ok (Predicate new)
                               /\ su_rest new = su_rest old) (Fields update) fields /\
       TypeUpdate_Marshal {| TypeName := typeName; Fields := fields |} = Ok value) /\
  (version inp = 2103 -> IsSchema parsedKey = false -> IsType parsedKey = false ->
     value = kv_Value kv) /\
  (2105 <= version inp -> value = kv_Value kv) /\
  (version inp <> 0 -> version inp <> 2103 -> value = kv_Value kv).
Proof.
  intros Hmeta Hkey Hparse Hf1 Hf2 Hmig out.
  split.
  { rewrite (processKV_schema restoreTs st inp kv restoreKey ns parsedKey) by done.
    rewrite Hmig. reflexivity. }
  unfold migrate in Hmig.
  repeat split.
  - intros Hv Ht. rewrite Hv, Ht in Hmig. cbn in Hmig.
    unfold appendNamespace in Hmig.
    destruct (TypeUpdate_Unmarshal (kv_Value kv)) as [update|e]; [|done].
    exists update. split; [done|].
    match type of Hmig with
    | match ?m with _ => _ end = _ => destruct m as [v|e]; [congruence|done]
    end.
  - intros Hv Ht. rewrite Hv, Ht in Hmig. cbn in Hmig. congruence.
  - intros Hv Hs. rewrite Hv in Hmig. cbn in Hmig.
    unfold changeFormat in Hmig. rewrite Hs in Hmig.
    destruct (SchemaUpdate_Unmarshal (kv_Value kv)) as [update|e]; [|done].
    destruct (AttrFrom2103 (Predicate update)) as [p|e] eqn:Ep; [|done].
    exists update, p. split; [done|]. split; [done|].
    match type of Hmig with
    | match ?m with _ => _ end = _ => destruct m as [v|e]; [congruence|done]
    end.
  - intros Hv Ht. rewrite Hv in Hmig. cbn in Hmig.
    unfold changeFormat in Hmig. rewrite Ht in Hmig.
    destruct (IsSchema parsedKey) eqn:Es.
    { apply IsSchema_not_IsType in Es. congruence. }
    destruct (TypeUpdate_Unmarshal (kv_Value kv)) as [update|e]; [|done].
    destruct (AttrFrom2103 (TypeName update)) as [tn|e] eqn:Etn; [|done].
    destruct (fieldsFrom2103 (Fields update)) as [fields|e] eqn:Ef; [|done].
    exists update, tn, fields. split; [done|]. split; [done|].
    split; [by apply fieldsFrom2103_Forall2|].
    match type of Hmig with
    | match ?m with _ => _ end = _ => destruct m as [v|e]; [congruence|done]
    end.
  - intros Hv Hs Ht. rewrite Hv in Hmig. cbn in Hmig.
    unfold changeFormat in Hmig. rewrite Hs, Ht in Hmig. congruence.
  - intros Hv.
    destruct (version inp =? 0) eqn:E0; [apply Z.eqb_eq in E0; lia|].
    destruct (version inp =? 2103) eqn:E1; [apply Z.eqb_eq in E1; lia|].
    congruence.
  - intros H0 H1.
    destruct (version inp =? 0) eqn:E0; [apply Z.eqb_eq in E0; done|].
    destruct (version inp =? 2103) eqn:E1; [apply Z.eqb_eq in E1; done|].
    congruence.
Qed.

Lemma schema_value_migration_witness :
  kv_UserMeta typeKV2103 = [BitSchemaPosting] /\
  fromBackupKey (H := testProc) (kv_Key typeKV2103) = Ok ([x02; x00; x00; x50], 0) /\
  Parse (ProcDeps := testProc) [x02; x00; x00; x50] = Ok typeKey /\
  migrate (H := testProc) (newestInput 2103) typeKey typeKV2103
    = inl (String.list_byte_of_string "1-Person,1-Person") /\
  processKV (H := testProc) 100 st0 (newestInput 2103) typeKV2103
    = (set_buf (set_max st0 0 0)
         [frameEntry ([x02; x00; x00; x50] ++ PutUint64 (MaxUint64 - 50))
            (test_KV_Marshal
               {| kv_Key := [x02; x00; x00; x50];
                  kv_Value := String.list_byte_of_string "1-Person,1-Person";
                  kv_UserMeta := [BitSchemaPosting]; kv_Version := 100;
                  kv_ExpiresAt := 0; kv_Meta := []; kv_StreamId := 0;
                  kv_StreamDone := false |})], Ok tt).
Proof.
  assert (Hmeta : kv_UserMeta typeKV2103 = [BitSchemaPosting]) by reflexivity.
  assert (Hkey : fromBackupKey (H := testProc) (kv_Key typeKV2103)
                 = Ok ([x02; x00; x00; x50], 0)) by reflexivity.
  assert (Hparse : Parse (ProcDeps := testProc) [x02; x00; x00; x50] = Ok typeKey)
    by reflexivity.
  assert (Hmig : migrate (H := testProc) (newestInput 2103) typeKey typeKV2103
                 = inl (String.list_byte_of_string "1-Person,1-Person"))
    by (vm_compute; reflexivity).
  split; [exact Hmeta|]. split; [exact Hkey|]. split; [exact Hparse|].
  split; [exact Hmig|].
  apply (proj1 (schema_value_migration (H := testProc) 100 st0 (newestInput 2103)
                  typeKV2103 _ _ _ _ Hmeta Hkey Hparse
                  (or_introl eq_refl) (or_introl eq_refl) Hmig)).
Defined.

(** C7: when the migration of a schema record fails, [appendNamespace] for
    a type key of an archive of version 0 or [changeFormat] for an archive
    of version 2103 returning an error, [processKV] logs a line and returns
    success with no entry added; the loop over the batch goes on with the
    next record. *)
Theorem migration_failure_skips `{ProcDeps} restoreTs st inp kv restoreKey ns parsedKey err :
  kv_UserMeta kv = [BitSchemaPosting] ->
  fromBackupKey (kv_Key kv) = Ok (restoreKey, ns) ->
  Parse restoreKey = Ok parsedKey ->
  keepSchema inp = true \/ (IsSchema parsedKey = false /\ IsType parsedKey = false) ->
  IsType parsedKey = true \/ Attr parsedKey ∈ preds inp ->
  (version inp = 0 /\ IsType parsedKey = true /\ appendNamespace kv = Err err) \/
  (version inp = 2103 /\ changeFormat parsedKey kv = Err err) ->
  let line := if version inp =? 0 then UnableToMarshalType parsedKey err
              else UnableToChangeFormat parsedKey err in
  let st' := add_log (set_max st (Uid parsedKey) ns) line in
  processKV restoreTs st inp kv = (st', Ok tt) /\
  p_buf st' = p_buf st /\
  p_log st' = p_log st ++ [line] /\
  (forall sent kvs,
     LenNoPadding (p_buf st) <= spillLimit ->
     processKVs restoreTs st sent inp (kv :: kvs) = processKVs restoreTs st' sent inp kvs).
Proof.
  intros Hmeta Hkey Hparse Hf1 Hf2 Hfail line st'.
  assert (Hmig : migrate inp parsedKey kv = inr line).
  { unfold migrate, line. destruct Hfail as [(-> & -> & ->)|(-> & ->)]; reflexivity. }
  assert (E : processKV restoreTs st inp kv = (st', Ok tt)).
  { rewrite (processKV_schema restoreTs st inp kv restoreKey ns parsedKey) by done.
    rewrite Hmig. reflexivity. }
  split; [exact E|]. split; [reflexivity|]. split; [reflexivity|].
  intros sent kvs Hlen. cbn [processKVs]. rewrite E.
  change (p_buf st') with (p_buf st).
  rewrite (proj2 (Z.ltb_ge _ _) Hlen). reflexivity.
Qed.

Lemma appendNamespace_unmarshal_error `{ProcDeps} kv e :
  TypeUpdate_Unmarshal (kv_Value kv) = Err e -> appendNamespace kv = Err e.
Proof. unfold appendNamespace. by intros ->. Qed.

Lemma changeFormat_unmarshal_error `{ProcDeps} parsedKey kv e :
  (IsSchema parsedKey = true /\ SchemaUpdate_Unmarshal (kv_Value kv) = Err e) \/
  (IsType parsedKey = true /\ TypeUpdate_Unmarshal (kv_Value kv) = Err e) ->
  changeFormat parsedKey kv = Err e.
Proof.
  unfold changeFormat. intros [[Hs ->]|[Ht ->]].
  - by rewrite Hs.
  - destruct (IsSchema parsedKey) eqn:Es.
    + apply IsSchema_not_IsType in Es. congruence.
    + by rewrite Ht.
Qed.

Lemma migration_failure_skips_witness :
  kv_UserMeta badTypeKV = [BitSchemaPosting] /\
  fromBackupKey (H := testProc) (kv_Key badTypeKV) = Ok ([x02; x00; x00; x50], 0) /\
  Parse (ProcDeps := testProc) [x02; x00; x00; x50] = Ok typeKey /\
  appendNamespace (H := testProc) badTypeKV = Err (External "proto: illegal tag 0") /\
  processKV (H := testProc) 100 st0 (newestInput 0) badTypeKV
    = ({| p_maxUid := 0; p_maxNs := 0; p_buf := [];
          p_log := [UnableToMarshalType typeKey (External "proto: illegal tag 0")] |},
       Ok tt).
Proof.
  assert (Hmeta : kv_UserMeta badTypeKV = [BitSchemaPosting]) by reflexivity.
  assert (Hkey : fromBackupKey (H := testProc) (kv_Key badTypeKV)
                 = Ok ([x02; x00; x00; x50], 0)) by reflexivity.
  assert (Hparse : Parse (ProcDeps := testProc) [x02; x00; x00; x50] = Ok typeKey)
    by reflexivity.
  assert (Hfail : appendNamespace (H := testProc) badTypeKV
                  = Err (External "proto: illegal tag 0"))
    by (apply appendNamespace_unmarshal_error; reflexivity).
  split; [exact Hmeta|]. split; [exact Hkey|]. split; [exact Hparse|].
  split; [exact Hfail|].
  apply (proj1 (migration_failure_skips (H := testProc) 100 st0 (newestInput 0)
                  badTypeKV _ _ _ _ Hmeta Hkey Hparse
                  (or_introl eq_refl) (or_introl eq_refl)
                  (or_introl (conj eq_refl (conj eq_refl Hfail))))).
Defined.

(** After the record that is given up, the rest of the batch is processed:
    the posting list that follows is rolled up and written. *)
Example batch_continues_after_failure :
  processKVs (H := testProc) 100 st0 [] (newestInput 0) [badTypeKV; rollupKV]
  = processKVs (H := testProc) 100
      (add_log (set_max st0 0 0)
         (UnableToMarshalType typeKey (External "proto: illegal tag 0")))
      [] (newestInput 0) [rollupKV] /\
  length (p_buf (fst (fst (processKVs (H := testProc) 100 st0 [] (newestInput 0)
                             [badTypeKV; rollupKV])))) = 2%nat.
Proof. split; vm_compute; reflexivity. Qed.

(** ** Claims on the maxima *)

Section Maxima.
Context `{ProcDeps}.
Variable restoreTs : Z.

Lemma covered_mono mu mn mu' mn' kv :
  mu <= mu' -> mn <= mn' -> covered mu mn kv -> covered mu' mn' kv.
Proof.
  intros Hu Hn (rk & ns & pk & ? & ? & ? & ?). exists rk, ns, pk.
  repeat split; try done; lia.
Qed.

(** The state [processKV] leaves: untouched when the key does not decode,
    otherwise with the maxima raised to the record's uid and namespace. *)
Lemma processKV_maxima st inp kv st' r :
  processKV restoreTs st inp kv = (st', r) ->
  (st' = st /\ r <> Ok tt) \/
  (exists restoreKey ns parsedKey,
     fromBackupKey (kv_Key kv) = Ok (restoreKey, ns) /\
     Parse restoreKey = Ok parsedKey /\
     p_maxUid st' = Z.max (p_maxUid st) (Uid parsedKey) /\
     p_maxNs st' = Z.max (p_maxNs st) ns).
Proof.
  unfold processKV. intros E.
  destruct (negb (len (kv_UserMeta kv) =? 1)); [injection E as <- <-; by left|].
  destruct (fromBackupKey (kv_Key kv)) as [[restoreKey ns]|e];
    [|injection E as <- <-; by left].
  destruct (Parse restoreKey) as [parsedKey|e] eqn:Hp; [|injection E as <- <-; by left].
  right. exists restoreKey, ns, parsedKey. split; [done|]. split; [done|].
  destruct (negb (keepSchema inp) && (IsSchema parsedKey || IsType parsedKey));
    [by injection E as <- <-|].
  destruct (negb (IsType parsedKey) && negb (bool_decide (Attr parsedKey ∈ preds inp)));
    [by injection E as <- <-|].
  destruct (isPostingMeta (hd x00 (kv_UserMeta kv))).
  - destruct (bool_decide (ns ∈ dropNs inp)); [by injection E as <- <-|].
    destruct (BackupPostingList_Unmarshal (kv_Value kv)) as [backupPl|e];
      [|by injection E as <- <-].
    destruct (negb (ShouldSplit (FromBackupPostingList backupPl)) || HasStartUid parsedKey
              || (0 <? len (GetSplits (FromBackupPostingList backupPl))));
      [by injection E as <- <-|].
    destruct (Rollup restoreKey (FromBackupPostingList backupPl) (kv_Version kv))
      as [kvs|e]; [|by injection E as <- <-].
    injection E as <- <-.
    destruct (writeRollup_max restoreTs (set_max st (Uid parsedKey) ns) kvs) as (-> & -> & _).
    done.
  - destruct (bool_decide (hd x00 (kv_UserMeta kv) = BitSchemaPosting));
      [|by injection E as <- <-].
    destruct (migrate inp parsedKey kv); by injection E as <- <-.
Qed.

Lemma processKV_mono st inp kv st' r :
  processKV restoreTs st inp kv = (st', r) ->
  p_maxUid st <= p_maxUid st' /\ p_maxNs st <= p_maxNs st'.
Proof.
  intros [[-> _]|(rk & ns & pk & _ & _ & -> & ->)]%processKV_maxima; lia.
Qed.

Lemma processKV_covered st inp kv st' :
  processKV restoreTs st inp kv = (st', Ok tt) ->
  covered (p_maxUid st') (p_maxNs st') kv.
Proof.
  intros [[_ ?]|(rk & ns & pk & ? & ? & Hu & Hn)]%processKV_maxima; [done|].
  exists rk, ns, pk. repeat split; try done; lia.
Qed.

Lemma processKVs_covered st sent inp kvs st' sent' :
  processKVs restoreTs st sent inp kvs = (st', sent', Ok tt) ->
  (p_maxUid st <= p_maxUid st' /\ p_maxNs st <= p_maxNs st') /\
  Forall (covered (p_maxUid st') (p_maxNs st')) kvs.
Proof.
  revert st sent. induction kvs as [|kv kvs IH]; intros st sent; simpl.
  - intros [= <- <-]. split; [lia|constructor].
  - destruct (processKV restoreTs st inp kv) as [st1 [[]|e]] eqn:E1; [|done].
    pose proof (processKV_mono _ _ _ _ _ E1) as [Hu1 Hn1].
    pose proof (processKV_covered _ _ _ _ E1) as Hc.
    intros E2.
    assert (exists st2 sent2, processKVs restoreTs st2 sent2 inp kvs = (st', sent', Ok tt)
                              /\ p_maxUid st2 = p_maxUid st1 /\ p_maxNs st2 = p_maxNs st1)
      as (st2 & sent2 & E3 & Hu2 & Hn2).
    { destruct (spillLimit <? LenNoPadding (p_buf st1)); eauto. }
    destruct (IH _ _ E3) as [[Hu Hn] Hf].
    split; [lia|]. constructor; [|done].
    eapply covered_mono; [| |exact Hc]; lia.
Qed.

Lemma processSlices_covered st sent inp slices st' sent' :
  processSlices restoreTs st sent inp slices = (st', sent', Ok tt) ->
  (p_maxUid st <= p_maxUid st' /\ p_maxNs st <= p_maxNs st') /\
  Forall (covered (p_maxUid st') (p_maxNs st'))
         (flat_map (fun s => match KVList_Unmarshal s with Ok kvs => kvs | Err _ => [] end)
                   slices).
Proof.
  revert st sent. induction slices as [|s slices IH]; intros st sent; simpl.
  - intros [= <- <-]. split; [lia|constructor].
  - destruct (KVList_Unmarshal s) as [kvs|e]; [|done].
    destruct (processKVs restoreTs st sent inp kvs) as [[st1 sent1] [[]|e]] eqn:E1; [|done].
    destruct (processKVs_covered _ _ _ _ _ _ E1) as [[Hu1 Hn1] Hf1].
    intros E2. destruct (IH _ _ E2) as [[Hu Hn] Hf].
    split; [lia|]. apply Forall_app. split; [|done].
    eapply Forall_impl; [exact Hf1|]. intros kv. apply covered_mono; lia.
Qed.

Lemma processReqs_covered st sent reqs st' sent' :
  processReqs restoreTs st sent reqs = (st', sent', Ok tt) ->
  (p_maxUid st <= p_maxUid st' /\ p_maxNs st <= p_maxNs st') /\
  Forall (covered (p_maxUid st') (p_maxNs st')) (inputRecords reqs).
Proof.
  revert st sent. induction reqs as [|req reqs IH]; intros st sent; simpl.
  - intros [= <- <-]. split; [lia|constructor].
  - destruct (processSlices restoreTs st sent (lr_in req) (lbuf req))
      as [[st1 sent1] [[]|e]] eqn:E1; [|done].
    destruct (processSlices_covered _ _ _ _ _ _ E1) as [[Hu1 Hn1] Hf1].
    intros E2. destruct (IH _ _ E2) as [[Hu Hn] Hf].
    split; [lia|]. apply Forall_app. split; [|done].
    eapply Forall_impl; [exact Hf1|]. intros kv. apply covered_mono; lia.
Qed.

Lemma processReqCh_covered reqs :
  w_err (processReqCh restoreTs reqs) = Ok tt ->
  Forall (covered (p_maxUid (w_state (processReqCh restoreTs reqs)))
                  (p_maxNs (w_state (processReqCh restoreTs reqs))))
         (inputRecords reqs).
Proof.
  unfold processReqCh.
  destruct (processReqs restoreTs _ [] reqs) as [[st sent] [[]|e]] eqn:E; [|done].
  intros _. simpl. by destruct (processReqs_covered _ _ _ _ _ E).
Qed.

Lemma casMax_ge sts m st :
  In st sts ->
  p_maxUid st <= m_maxUid (fold_left casMax sts m) /\
  p_maxNs st <= m_maxNs (fold_left casMax sts m).
Proof.
  assert (Hmono : forall sts m, m_maxUid m <= m_maxUid (fold_left casMax sts m) /\
                                m_maxNs m <= m_maxNs (fold_left casMax sts m)).
  { clear. induction sts as [|s sts IH]; intros m; simpl; [lia|].
    destruct (IH (casMax m s)) as [Hu Hn]. simpl in Hu, Hn. lia. }
  revert m. induction sts as [|s sts IH]; intros m; [done|].
  intros [->|Hin]; simpl.
  - destruct (Hmono sts (casMax m st)) as [Hu Hn]. simpl in Hu, Hn. lia.
  - by apply IH.
Qed.

Lemma waitAll_Ok ws w : waitAll ws = Ok tt -> In w ws -> w_err w = Ok tt.
Proof.
  induction ws as [|w' ws IH]; [done|]. simpl.
  destruct (w_err w') as [[]|e] eqn:E; [|done].
  intros Hw [<-|Hin]; [done|by apply IH].
Qed.

End Maxima.

Section PlannerProperties.
Context `{PlanDeps} `{ProcDeps}.

Lemma numGo_pos : (0 < Z.to_nat numGo)%nat.
Proof. unfold numGo. lia. Qed.

(** Every request sent is taken by one of the workers. *)
Lemma takenBy_covers sched i reqs kv :
  In kv (inputRecords reqs) ->
  exists w, (w < Z.to_nat numGo)%nat /\ In kv (inputRecords (takenBy sched w i reqs)).
Proof.
  revert i. induction reqs as [|req reqs IH]; intros i; [done|].
  unfold inputRecords. simpl. fold (inputRecords reqs).
  intros [Hin|Hin]%in_app_or.
  - exists (sched i mod Z.to_nat numGo)%nat. split.
    + apply Nat.mod_upper_bound. pose proof numGo_pos. lia.
    + rewrite Nat.eqb_refl. unfold inputRecords. simpl. apply in_or_app. by left.
  - destruct (IH (S i) Hin) as (w & Hw & Hk). exists w. split; [done|].
    destruct (Nat.eqb (sched i mod Z.to_nat numGo) w); [|done].
    unfold inputRecords. simpl. apply in_or_app. by right.
Qed.

Lemma planInv_le i j st : (i <= j)%nat -> planInv i st -> planInv j st.
Proof.
  intros Hij (Hb & Hs & Hc). repeat split; try done.
  eapply Forall_impl; [exact Hc|]. intros c [? ?]. split; [lia|done].
Qed.

Lemma foldDropOps_inv i ops st st' r :
  foldDropOps ops st = (st', r) -> planInv i st -> planInv i st'.
Proof.
  revert st. induction ops as [|op ops IH]; intros st; simpl.
  - by intros [= <- <-].
  - destruct (DropOp op).
    + intros E Hi. by apply (IH _ E).
    + destruct (String.eqb (DropValue op) ""); [intros E Hi; by apply (IH _ E)|].
      destruct (ParseUint (DropValue op)) as [ns|e]; [|by intros [= <- <-]].
      intros E Hi. by apply (IH _ E).
    + intros E Hi. by apply (IH _ E).
    + destruct (ParseUint (DropValue op)) as [ns|e]; [|by intros [= <- <-]].
      destruct (BanNamespace ns) as [e|]; [by intros [= <- <-]|].
      intros E (Hb & Hs & Hc). apply (IH _ E). repeat split; try done.
      simpl. apply Forall_app. split; [|repeat constructor; lia].
      eapply Forall_impl; [exact Hb|]. simpl. lia.
Qed.

Lemma foldDropOps_calls ops st st' r :
  foldDropOps ops st = (st', r) ->
  mapCalls st' = mapCalls st /\ reqCh st' = reqCh st.
Proof.
  revert st. induction ops as [|op ops IH]; intros st; simpl.
  - by intros [= <- <-].
  - destruct (DropOp op).
    + intros E. by destruct (IH _ E).
    + destruct (String.eqb (DropValue op) ""); [intros E; by destruct (IH _ E)|].
      destruct (ParseUint (DropValue op)) as [ns|e]; [|by intros [= <- <-]].
      intros E. by destruct (IH _ E).
    + intros E. by destruct (IH _ E).
    + destruct (ParseUint (DropValue op)) as [ns|e]; [|by intros [= <- <-]].
      destruct (BanNamespace ns) as [e|]; [by intros [= <- <-]|].
      intros E. by destruct (IH _ E).
Qed.

Lemma mapGroup_inv h encKey manifest0 i manifest gid st st' r :
  mapGroup h encKey manifest0 i manifest gid st = (st', r) ->
  planInv i st -> planInv (S i) st'.
Proof.
  unfold mapGroup.
  destruct (br_err _) as [e|].
  { intros [= <- <-]. apply planInv_le. lia. }
  destruct (Map _ _) as [reqs r0].
  intros E (Hb & Hs & Hc).
  assert (st' = sendAll st i
            {| preds := getPredsInGroup manifest0 gid ∖ dropAttr st;
               dropNs := ps_dropNs st; version := m_Version manifest;
               keepSchema := Nat.eqb i 0 |} reqs) as ->.
  { destruct r0 as [[]|e].
    - destruct (Close _); by injection E as <- <-.
    - by injection E as <- <-. }
  repeat split; simpl.
  - done.
  - rewrite map_app. simpl. apply StronglySorted_app_2; [|done|repeat constructor].
    intros x y Hx Hy. apply list_elem_of_fmap in Hx as (c & -> & Hc').
    apply list_elem_of_singleton in Hy as ->.
    rewrite Forall_forall in Hc. by destruct (Hc c Hc').
  - apply Forall_app. split; [|repeat constructor; simpl; lia].
    eapply Forall_impl; [exact Hc|]. intros c [? ?]. split; [lia|done].
Qed.

Lemma planLoop_inv req h encKey manifest0 i manifests st st' r :
  planLoop req h encKey manifest0 i manifests st = (st', r) ->
  planInv i st -> planInv (i + length manifests) st'.
Proof.
  revert i st. induction manifests as [|manifest manifests IH]; intros i st; simpl.
  { intros [= <- <-]. apply planInv_le. lia. }
  destruct (BackupNum manifest <? IncrementalFrom req);
    [intros [= <- <-]; apply planInv_le; lia|].
  destruct (dropAll st); [intros [= <- <-]; apply planInv_le; lia|].
  destruct ((ValidReadTs manifest =? 0) || (Z.of_nat (size (Groups manifest)) =? 0)).
  { intros E Hi. replace (i + S (length manifests))%nat with (S i + length manifests)%nat by lia.
    apply (IH _ _ E). apply (planInv_le i); [lia|done]. }
  destruct (match Groups manifest !! GroupId req with
            | Some _ => mapGroup h encKey manifest0 i manifest (GroupId req) st
            | None => (st, Ok tt)
            end) as [st1 r1] eqn:E1.
  intros E Hi.
  assert (H1 : planInv (S i) st1).
  { destruct (Groups manifest !! GroupId req).
    - by apply (mapGroup_inv _ _ _ _ _ _ _ _ _ E1).
    - injection E1 as <- <-. apply (planInv_le i); [lia|done]. }
  destruct r1 as [[]|e]; [|injection E as <- <-; apply (planInv_le (S i)); [lia|done]].
  destruct (foldDropOps (DropOperations manifest) st1) as [st2 r2] eqn:E2.
  pose proof (foldDropOps_inv _ _ _ _ _ E2 H1) as H2.
  destruct r2 as [[]|e]; [|injection E as <- <-; apply (planInv_le (S i)); [lia|done]].
  replace (i + S (length manifests))%nat with (S i + length manifests)%nat by lia.
  by apply (IH _ _ E).
Qed.

Lemma plan_inv req h encKey manifests st r :
  plan req h encKey manifests = (st, r) -> planInv (length manifests) st.
Proof.
  unfold plan. destruct manifests as [|manifest0 manifests'] eqn:Em.
  - intros [= <- <-]. repeat split; constructor.
  - intros E. apply (planLoop_inv _ _ _ _ 0 _ _ _ _ E).
    repeat split; constructor.
Qed.

End PlannerProperties.

(** C4: when [RunMapper] returns a result, the key of every record handed
    to [processKV] decoded, filtered or not, and the result's [maxUid] is
    at least the uid of its parsed key, its [maxNs] at least its namespace;
    [maxNs] is also at least every namespace banned for a DROP_NS
    operation, and at least [maxBannedNs]. *)
Theorem mapResult_maxima `{PlanDeps} `{ProcDeps}
    req sched uri h manifests cfg encKey res calls :
  url_Parse (Location req) = Ok uri ->
  NewUriHandler uri req = Ok h ->
  getManifestsToRestore h uri req = Ok manifests ->
  getEncConfig req = Ok cfg ->
  GetKeys cfg = Ok encKey ->
  RunMapper req sched = (Ok res, calls) ->
  let st := fst (plan req h encKey manifests) in
  (forall kv, In kv (inputRecords (reqCh st)) ->
     exists restoreKey ns parsedKey,
       fromBackupKey (kv_Key kv) = Ok (restoreKey, ns) /\
       Parse restoreKey = Ok parsedKey /\
       Uid parsedKey <= maxUid res /\ ns <= maxNs res) /\
  (forall ns, In ns (banned st) -> ns <= maxNs res) /\
  maxBannedNs st <= maxNs res.
Proof.
  intros Hurl Hh Hm Hcfg Hkeys E. unfold RunMapper in E.
  rewrite Hurl, Hh, Hm, Hcfg, Hkeys in E.
  destruct (RestoreTs req =? 0); [done|].
  destruct (plan req h encKey manifests) as [st [[]|e]] eqn:Ep; [|done].
  destruct (plan_inv _ _ _ _ _ _ Ep) as (Hb & _ & _).
  destruct (waitAll (workers (RestoreTs req) sched (reqCh st))) as [[]|e] eqn:Ew; [|done].
  injection E as <- <-. simpl.
  set (m := fold_left casMax (map w_state (workers (RestoreTs req) sched (reqCh st)))
                      {| m_maxUid := 0; m_maxNs := 0 |}).
  split; [|split; [|lia]].
  - intros kv Hkv.
    destruct (takenBy_covers sched 0 _ _ Hkv) as (w & Hw & Hin).
    set (wo := processReqCh (RestoreTs req) (takenBy sched w 0 (reqCh st))).
    assert (Hwo : In wo (workers (RestoreTs req) sched (reqCh st))).
    { unfold workers. apply in_map_iff. exists w. split; [done|].
      apply in_seq. lia. }
    pose proof (waitAll_Ok _ _ Ew Hwo) as Hok.
    pose proof (processReqCh_covered _ _ Hok) as Hc.
    rewrite Forall_forall in Hc. apply list_elem_of_In in Hin.
    destruct (Hc kv Hin) as (rk & ns & pk & Hk & Hp & Hu & Hn).
    destruct (casMax_ge (map w_state (workers (RestoreTs req) sched (reqCh st)))
                {| m_maxUid := 0; m_maxNs := 0 |} (w_state wo)) as [Hmu Hmn].
    { apply in_map_iff. by exists wo. }
    exists rk, ns, pk. split; [done|]. split; [done|].
    subst wo m. cbv beta in *. lia.
  - intros ns Hns. rewrite Forall_forall in Hb.
    apply list_elem_of_In in Hns. specialize (Hb ns Hns). lia.
Qed.




(** C8, amended: [RunMapper] returns an error, with no archive mapped,
    when the request's [RestoreTs] is zero; [WithCompression] with a
    string other than [snappy], [gzip] and the empty string leaves an error
    in the reader, the unknown-compression error unless one was latched
    before; and [RunMapper] then returns that error for the archive without
    mapping it.  Archives of newer manifests may have been mapped by
    then. *)
Theorem configuration_errors `{PlanDeps} `{ProcDeps} :
  (forall req sched,
     RestoreTs req = 0 -> exists e, RunMapper req sched = (Err e, [])) /\
  (forall br comp,
     comp <> "snappy" -> comp <> "gzip" -> comp <> "" ->
     exists e,
       br_err (WithCompression gzip_NewReader br comp) = Some e /\
       (br_err br = None -> e = Errorf ("Unknown compression for backup: " +:+ comp))) /\
  (forall h encKey manifest0 i manifest gid st,
     Compression manifest <> "snappy" -> Compression manifest <> "gzip" ->
     Compression manifest <> "" ->
     exists e,
       mapGroup h encKey manifest0 i manifest gid st = (st, Err (Wrap e "newBackupReader"))) /\
  (forall req h encKey manifest0 i manifest manifests st,
     IncrementalFrom req <= BackupNum manifest -> dropAll st = false ->
     ValidReadTs manifest <> 0 -> is_Some (Groups manifest !! GroupId req) ->
     Compression manifest <> "snappy" -> Compression manifest <> "gzip" ->
     Compression manifest <> "" ->
     exists e,
       planLoop req h encKey manifest0 i (manifest :: manifests) st
       = (st, Err (Wrap e "newBackupReader"))).
Proof.
  assert (Hcomp : forall br comp,
     comp <> "snappy" -> comp <> "gzip" -> comp <> "" ->
     exists e,
       br_err (WithCompression gzip_NewReader br comp) = Some e /\
       (br_err br = None -> e = Errorf ("Unknown compression for backup: " +:+ comp))).
  { intros br comp H1 H2 H3. unfold WithCompression.
    rewrite (proj2 (String.eqb_neq _ _) H1), (proj2 (String.eqb_neq _ _) H2),
            (proj2 (String.eqb_neq _ _) H3).
    simpl. unfold setErr. destruct (br_err br) as [e|] eqn:E.
    - exists e. split; [done|done].
    - eexists. split; [reflexivity|done]. }
  assert (Hgroup : forall h encKey manifest0 i manifest gid st,
     Compression manifest <> "snappy" -> Compression manifest <> "gzip" ->
     Compression manifest <> "" ->
     exists e,
       mapGroup h encKey manifest0 i manifest gid st = (st, Err (Wrap e "newBackupReader"))).
  { intros h encKey manifest0 i manifest gid st H1 H2 H3. unfold mapGroup.
    destruct (Hcomp (WithEncryption (readerFrom h (backupFile manifest gid)) encKey)
                (Compression manifest) H1 H2 H3) as (e & -> & _).
    by exists e. }
  split; [|split; [exact Hcomp|split; [exact Hgroup|]]].
  - intros req sched Hts. unfold RunMapper.
    destruct (url_Parse (Location req)) as [uri|e]; [|by exists e].
    rewrite Hts. simpl. by eexists.
  - intros req h encKey manifest0 i manifest manifests st Hnum Hdrop Hts [preds Hg] H1 H2 H3.
    destruct (Hgroup h encKey manifest0 i manifest (GroupId req) st H1 H2 H3) as (e & He).
    exists e. cbn [planLoop].
    rewrite (proj2 (Z.ltb_ge _ _) Hnum), Hdrop, (proj2 (Z.eqb_neq _ _) Hts).
    assert ((Z.of_nat (size (Groups manifest)) =? 0) = false) as ->.
    { apply Z.eqb_neq. intros Hz.
      assert (size (Groups manifest) = 0%nat) as Hs%map_size_empty_iff by lia.
      rewrite Hs, lookup_empty in Hg. done. }
    cbn [orb]. rewrite Hg, He. reflexivity.
Qed.

Lemma mapResult_maxima_witness :
  let st := fst (plan (H := testEnv [newManifest; oldManifest ""])
                   (testRequest 300) tt [] [newManifest; oldManifest ""]) in
  fst (RunMapper (H := testEnv [newManifest; oldManifest ""]) (H0 := testProc)
         (testRequest 300) (fun i => i)) = Ok testResult /\
  length (inputRecords (H := testProc) (reqCh st)) = 3%nat /\
  banned st = [42] /\
  (forall kv, In kv (inputRecords (H := testProc) (reqCh st)) ->
     exists restoreKey ns parsedKey,
       fromBackupKey (H := testProc) (kv_Key kv) = Ok (restoreKey, ns) /\
       Parse (ProcDeps := testProc) restoreKey = Ok parsedKey /\
       Uid parsedKey <= 9 /\ ns <= 42) /\
  (forall ns, In ns (banned st) -> ns <= 42) /\
  maxBannedNs st <= 42.
Proof.
  cbv zeta.
  assert (E : fst (RunMapper (H := testEnv [newManifest; oldManifest ""]) (H0 := testProc)
                     (testRequest 300) (fun i => i)) = Ok testResult)
    by (vm_compute; reflexivity).
  split; [exact E|]. split; [vm_compute; reflexivity|]. split; [vm_compute; reflexivity|].
  apply (mapResult_maxima (H := testEnv [newManifest; oldManifest ""]) (H0 := testProc)
           (testRequest 300) (fun i => i) "file:///backups" tt
           [newManifest; oldManifest ""] tt [] testResult
           (snd (RunMapper (H := testEnv [newManifest; oldManifest ""]) (H0 := testProc)
                   (testRequest 300) (fun i => i)))
           eq_refl eq_refl eq_refl eq_refl eq_refl).
  rewrite <- E. apply surjective_pairing.
Defined.

Lemma configuration_errors_witness :
  RestoreTs (testRequest 0) = 0 /\
  exists e,
    RunMapper (H := testEnv [newManifest; oldManifest ""]) (H0 := testProc)
      (testRequest 0) (fun i => i) = (Err e, []).
Proof.
  split; [reflexivity|].
  apply (proj1 (configuration_errors (H := testEnv [newManifest; oldManifest ""])
                  (H0 := testProc))).
  reflexivity.
Defined.

(** C8 as stated fails: the unknown compression of the older manifest is
    met, and the error returned, after the archive of the newest manifest
    has been mapped. *)
Lemma unknown_compression_after_first_archive :
  exists inp,
    RunMapper (H := testEnv [newManifest; oldManifest "lz4"]) (H0 := testProc)
      (testRequest 300) (fun i => i)
    = (Err (Wrap (Errorf "Unknown compression for backup: lz4") "newBackupReader"),
       [(0%nat, inp)]) /\
    (reqCh (fst (plan (H := testEnv [newManifest; oldManifest "lz4"])
                   (testRequest 300) tt [] [newManifest; oldManifest "lz4"])) <> []).
Proof.
  eexists. split; [vm_compute; reflexivity|]. vm_compute. discriminate.
Qed.


(** The run of the two-manifest chain: the newest archive is mapped with
    the schema kept, the older one without. *)
Example keepSchema_two_manifests :
  map (fun c => (fst c, keepSchema (snd c)))
      (snd (RunMapper (H := testEnv [newManifest; oldManifest ""]) (H0 := testProc)
              (testRequest 300) (fun i => i)))
  = [(0%nat, true); (1%nat, false)].
Proof. vm_compute. reflexivity. Qed.

(** * Further properties of the code *)

(** ** The reader of an archive *)

Section ReaderProperties.
Context `{PlanDeps}.

Lemma setErr_latched br err e : br_err br = Some e -> br_err (setErr br err) = Some e.
Proof. unfold setErr. intros E. rewrite E. exact E. Qed.

Lemma WithEncryption_latched br encKey e :
  br_err br = Some e -> br_err (WithEncryption br encKey) = Some e.
Proof.
  intros E. unfold WithEncryption. destruct (len encKey =? 0); [done|].
  destruct (enc_GetReader encKey (br_r br)); simpl; by apply setErr_latched.
Qed.

Lemma WithCompression_latched br comp e :
  br_err br = Some e -> br_err (WithCompression gzip_NewReader br comp) = Some e.
Proof.
  intros E. unfold WithCompression. destruct (String.eqb comp "snappy"); [done|].
  destruct (String.eqb comp "gzip" || String.eqb comp "").
  - destruct (gzip_NewReader (br_r br)); simpl; by apply setErr_latched.
  - by apply setErr_latched.
Qed.

End ReaderProperties.

(** X1: when the reader of an archive is built without error, the
    transport stream was opened, the cipher layer was put on it exactly
    when the encryption key is not empty, and the compression is [snappy],
    [gzip] or empty: with [snappy] the reader is the snappy reader and only
    the transport stream is registered for closing; with [gzip] or the
    empty string it is the gzip reader, registered after the transport
    stream.  The cipher and snappy readers are never registered. *)
Theorem reader_chain_built `{PlanDeps} h file encKey comp :
  br_err (newBackupReader h file encKey comp) = None ->
  exists t r1,
    Stream h file = Ok t /\
    (len encKey = 0 -> r1 = t) /\
    (len encKey <> 0 -> enc_GetReader encKey t = Ok r1) /\
    ((comp = "snappy" /\
      br_r (newBackupReader h file encKey comp) = Snappy r1 /\
      toClose (newBackupReader h file encKey comp) = [t]) \/
     ((comp = "gzip" \/ comp = "") /\
      exists g, gzip_NewReader r1 = Ok g /\
                br_r (newBackupReader h file encKey comp) = g /\
                toClose (newBackupReader h file encKey comp) = [t; g])).
Proof.
  unfold newBackupReader, readerFrom.
  destruct (Stream h file) as [t|e] eqn:Es; cycle 1.
  { intros E. rewrite WithCompression_latched with (e := e) in E; [done|].
    by apply WithEncryption_latched. }
  unfold WithEncryption. cbn [br_r with_r with_toClose setErr br_err toClose].
  destruct (len encKey =? 0) eqn:Ek.
  - apply Z.eqb_eq in Ek. unfold WithCompression. cbn.
    destruct (String.eqb_spec comp "snappy") as [->|Hs].
    { intros _. exists t, t. split; [done|]. split; [done|]. split; [lia|]. left. done. }
    destruct (String.eqb_spec comp "gzip") as [->|Hg]; cbn.
    { destruct (gzip_NewReader t) as [g|e] eqn:Eg; cbn; [|done].
      intros _. exists t, t. split; [done|]. split; [done|]. split; [lia|].
      right. split; [by left|]. by exists g. }
    destruct (String.eqb_spec comp "") as [->|He]; cbn; [|done].
    destruct (gzip_NewReader t) as [g|e] eqn:Eg; cbn; [|done].
    intros _. exists t, t. split; [done|]. split; [done|]. split; [lia|].
    right. split; [by right|]. by exists g.
  - apply Z.eqb_neq in Ek.
    destruct (enc_GetReader encKey t) as [c|e] eqn:Ec; cbn; cycle 1.
    { intros E. rewrite WithCompression_latched with (e := e) in E; done. }
    unfold WithCompression. cbn.
    destruct (String.eqb_spec comp "snappy") as [->|Hs].
    { intros _. exists t, c. split; [done|]. split; [done|]. split; [done|]. left. done. }
    destruct (String.eqb_spec comp "gzip") as [->|Hg]; cbn.
    { destruct (gzip_NewReader c) as [g|e] eqn:Eg; cbn; [|done].
      intros _. exists t, c. split; [done|]. split; [done|]. split; [done|].
      right. split; [by left|]. by exists g. }
    destruct (String.eqb_spec comp "") as [->|He]; cbn; [|done].
    destruct (gzip_NewReader c) as [g|e] eqn:Eg; cbn; [|done].
    intros _. exists t, c. split; [done|]. split; [done|]. split; [done|].
    right. split; [by right|]. by exists g.
Qed.

Lemma reader_chain_built_witness :
  br_err (newBackupReader (H := failingPlan None None None) tt "backup-1" [x6b] "") = None /\
  br_r (newBackupReader (H := failingPlan None None None) tt "backup-1" [x6b] "")
    = Gzip (Cipher [x6b] (Transport "backup-1")) /\
  toClose (newBackupReader (H := failingPlan None None None) tt "backup-1" [x6b] "")
    = [Transport "backup-1"; Gzip (Cipher [x6b] (Transport "backup-1"))].
Proof.
  assert (E : br_err (newBackupReader (H := failingPlan None None None) tt "backup-1"
                        [x6b] "") = None) by reflexivity.
  split; [exact E|].
  destruct (reader_chain_built (H := failingPlan None None None) tt "backup-1" [x6b] "" E)
    as (t & r1 & Ht & _ & Hr1 & [(Hc & _)|(_ & g & Hg & -> & ->)]); [discriminate|].
  injection Ht as <-. specialize (Hr1 ltac:(done)). injection Hr1 as <-.
  injection Hg as <-. done.
Defined.

(** X2: the error left in the reader of an archive is that of the first
    stage that fails: the transport stream, then the cipher layer when the
    key is not empty, then the compression layer, which fails for [gzip]
    or the empty string when the gzip header cannot be read and for any
    other string but [snappy] as unknown.  The stages after a failure do
    not change the error. *)
Theorem reader_chain_first_error `{PlanDeps} h file encKey comp :
  (forall e, Stream h file = Err e ->
     br_err (newBackupReader h file encKey comp) = Some e) /\
  (forall t e,
     Stream h file = Ok t -> len encKey <> 0 -> enc_GetReader encKey t = Err e ->
     br_err (newBackupReader h file encKey comp) = Some e) /\
  (forall t r1 e,
     Stream h file = Ok t ->
     (len encKey = 0 /\ r1 = t) \/ (len encKey <> 0 /\ enc_GetReader encKey t = Ok r1) ->
     comp = "gzip" \/ comp = "" -> gzip_NewReader r1 = Err e ->
     br_err (newBackupReader h file encKey comp) = Some e) /\
  (forall t r1,
     Stream h file = Ok t ->
     (len encKey = 0 /\ r1 = t) \/ (len encKey <> 0 /\ enc_GetReader encKey t = Ok r1) ->
     comp <> "snappy" -> comp <> "gzip" -> comp <> "" ->
     br_err (newBackupReader h file encKey comp)
     = Some (Errorf ("Unknown compression for backup: " +:+ comp))).
Proof.
  unfold newBackupReader, readerFrom. repeat split.
  - intros e ->. apply WithCompression_latched, WithEncryption_latched. done.
  - intros t e -> Hk He. apply WithCompression_latched. unfold WithEncryption.
    rewrite (proj2 (Z.eqb_neq _ _) Hk). cbn. rewrite He. done.
  - intros t r1 e -> Hr1 Hc Hg. unfold WithEncryption.
    destruct Hr1 as [[Hk ->]|[Hk Hr1]].
    + rewrite Hk. cbn. unfold WithCompression.
      destruct Hc as [-> | ->]; cbn; rewrite Hg; done.
    + rewrite (proj2 (Z.eqb_neq _ _) Hk). cbn. rewrite Hr1. cbn. unfold WithCompression.
      destruct Hc as [-> | ->]; cbn; rewrite Hg; done.
  - intros t r1 -> Hr1 H1 H2 H3. unfold WithEncryption.
    destruct Hr1 as [[Hk ->]|[Hk Hr1]].
    + rewrite Hk. cbn. unfold WithCompression.
      rewrite (proj2 (String.eqb_neq _ _) H1), (proj2 (String.eqb_neq _ _) H2),
              (proj2 (String.eqb_neq _ _) H3). done.
    + rewrite (proj2 (Z.eqb_neq _ _) Hk). cbn. rewrite Hr1. cbn. unfold WithCompression.
      rewrite (proj2 (String.eqb_neq _ _) H1), (proj2 (String.eqb_neq _ _) H2),
              (proj2 (String.eqb_neq _ _) H3). done.
Qed.

(** A transport failure is the error of the reader even when the
    compression is unknown too. *)
Example transport_error_wins :
  br_err (newBackupReader (H := failingPlan (Some (External "no such file")) None None)
            tt "backup-1" [] "lz4")
  = Some (External "no such file").
Proof. reflexivity. Qed.

Lemma closeAll_app closeOf cs c :
  closeAll closeOf (c :: cs)
  = match closeOf c with Some e => Some e | None => closeAll closeOf cs end.
Proof.
  unfold closeAll. simpl. rewrite fold_left_app. simpl. reflexivity.
Qed.

(** X3: [Close] closes every registered closer, from the last acquired to
    the first, whether or not some of them fail, and returns the error of
    the earliest acquired closer that failed, the last one met, or nil
    when none fails; a second [Close] closes nothing and returns nil. *)
Theorem Close_reports_first_acquired_failure closeOf br :
  br_Close closeOf false br
    = (true, rev (toClose br), hd_error (omap closeOf (toClose br))) /\
  (hd_error (omap closeOf (toClose br)) = None
   <-> Forall (fun c => closeOf c = None) (toClose br)) /\
  br_Close closeOf (fst (fst (br_Close closeOf false br))) br = (true, [], None).
Proof.
  split; [|split; [|reflexivity]].
  - unfold br_Close. f_equal.
    induction (toClose br) as [|c cs IH]; [done|].
    rewrite closeAll_app. simpl. destruct (closeOf c); [done|exact IH].
  - induction (toClose br) as [|c cs IH]; simpl.
    + split; [constructor|done].
    + destruct (closeOf c) eqn:E; simpl.
      * split; [done|]. intros Hf. inversion Hf; congruence.
      * rewrite IH. split; [by constructor|]. intros Hf. by inversion Hf.
Qed.

(** A gzip reader that fails to close does not hide the failure of the
    transport stream, which is closed after it. *)
Example Close_two_failures :
  br_Close (fun c => match c with
                     | Transport _ => Some (External "transport close")
                     | _ => Some (External "gzip close")
                     end) false
    (newBackupReader (H := failingPlan None None None) tt "backup-1" [] "gzip")
  = (true, [Gzip (Transport "backup-1"); Transport "backup-1"],
     Some (External "transport close")).
Proof. reflexivity. Qed.

(** ** The framing read by [Map] *)

Lemma Uint64LE_arith b :
  Uint64LE b = fold_right (fun x acc => byte_to_Z x + 256 * acc) 0 b /\ 0 <= Uint64LE b.
Proof.
  induction b as [|x b [IH Hpos]]; [done|]. simpl.
  pose proof (byte_to_Z_range x).
  rewrite lor_shiftl_8 by (done || lia). rewrite <- IH. lia.
Qed.

Lemma Uint64LE_PutUint64LE v : 0 <= v < 2 ^ 64 -> Uint64LE (PutUint64LE v) = v.
Proof.
  intros Hv. rewrite (proj1 (Uint64LE_arith _)). unfold PutUint64LE. simpl.
  rewrite !byte_to_Z_to_byte, !Z.shiftr_div_pow2 by lia.
  change (2 ^ 8) with 256.
  change (2 ^ 16) with (256 * 256).
  change (2 ^ 24) with (256 * 256 * 256).
  change (2 ^ 32) with (256 * 256 * 256 * 256).
  change (2 ^ 40) with (256 * 256 * 256 * 256 * 256).
  change (2 ^ 48) with (256 * 256 * 256 * 256 * 256 * 256).
  change (2 ^ 56) with (256 * 256 * 256 * 256 * 256 * 256 * 256).
  rewrite <- !Z.div_div by lia.
  change (2 ^ 64) with 18446744073709551616 in Hv.
  set (q1 := v / 256). set (q2 := q1 / 256). set (q3 := q2 / 256). set (q4 := q3 / 256).
  set (q5 := q4 / 256). set (q6 := q5 / 256). set (q7 := q6 / 256).
  assert (H0 : v = 256 * q1 + v mod 256) by (unfold q1; apply Z.div_mod; lia).
  assert (H1 : q1 = 256 * q2 + q1 mod 256) by (unfold q2; apply Z.div_mod; lia).
  assert (H2 : q2 = 256 * q3 + q2 mod 256) by (unfold q3; apply Z.div_mod; lia).
  assert (H3 : q3 = 256 * q4 + q3 mod 256) by (unfold q4; apply Z.div_mod; lia).
  assert (H4 : q4 = 256 * q5 + q4 mod 256) by (unfold q5; apply Z.div_mod; lia).
  assert (H5 : q5 = 256 * q6 + q5 mod 256) by (unfold q6; apply Z.div_mod; lia).
  assert (H6 : q6 = 256 * q7 + q6 mod 256) by (unfold q7; apply Z.div_mod; lia).
  pose proof (Z.mod_pos_bound v 256 ltac:(lia)).
  pose proof (Z.mod_pos_bound q1 256 ltac:(lia)).
  pose proof (Z.mod_pos_bound q2 256 ltac:(lia)).
  pose proof (Z.mod_pos_bound q3 256 ltac:(lia)).
  pose proof (Z.mod_pos_bound q4 256 ltac:(lia)).
  pose proof (Z.mod_pos_bound q5 256 ltac:(lia)).
  pose proof (Z.mod_pos_bound q6 256 ltac:(lia)).
  clearbody q1 q2 q3 q4 q5 q6 q7.
  rewrite (Z.mod_small q7) by lia.
  lia.
Qed.

Lemma ReadFull_app data rest tail :
  ReadFull (data ++ rest) tail (len data) = (Ok data, rest).
Proof.
  unfold ReadFull. rewrite len_app.
  pose proof (len_nonneg rest).
  rewrite (proj2 (Z.leb_le _ _)) by lia.
  unfold len. rewrite Nat2Z.id, take_app_length, drop_app_length. done.
Qed.

Lemma ReadFull_size v rest tail :
  ReadFull (PutUint64LE v ++ rest) tail 8 = (Ok (PutUint64LE v), rest).
Proof. apply (ReadFull_app (PutUint64LE v)). Qed.

(** The frames in front of a stream are read one by one. *)
Lemma readFrames_loop_frames fuel batches rest tail :
  Forall (fun b => len b < 2 ^ 63) batches ->
  readFrames_loop (length batches + fuel) (encodeFrames batches ++ rest) tail
  = match readFrames_loop fuel rest tail with
    | Some (bufs, err) => Some (batches ++ bufs, err)
    | None => None
    end.
Proof.
  induction 1 as [|b batches Hb Hf IH].
  { cbn. by destruct (readFrames_loop fuel rest tail) as [[? ?]|]. }
  change (encodeFrames (b :: batches)) with (frame b ++ encodeFrames batches).
  change (length (b :: batches) + fuel)%nat with (S (length batches + fuel)).
  cbn [readFrames_loop]. unfold frame at 1. rewrite <- !app_assoc.
  rewrite ReadFull_size. cbv zeta.
  pose proof (len_nonneg b).
  rewrite Uint64LE_PutUint64LE by lia.
  rewrite (proj2 (Z.leb_gt _ _)) by lia.
  rewrite ReadFull_app, IH.
  by destruct (readFrames_loop fuel rest tail) as [[? ?]|].
Qed.

Lemma readFrames_frames batches rest tail :
  Forall (fun b => len b < 2 ^ 63) batches ->
  readFrames (encodeFrames batches ++ rest) tail
  = match readFrames rest tail with
    | Some (bufs, err) => Some (batches ++ bufs, err)
    | None => None
    end.
Proof.
  intros Hf. unfold readFrames.
  assert (Hfuel : forall f1 f2 d, (length d < f1)%nat -> (length d < f2)%nat ->
                    readFrames_loop f1 d tail = readFrames_loop f2 d tail).
  { clear. induction f1 as [|f1 IH]; intros f2 d H1 H2; [lia|].
    destruct f2 as [|f2]; [lia|]. simpl.
    unfold ReadFull at 1 3. destruct (8 <=? len d) eqn:E8; [|done].
    apply Z.leb_le in E8. change (Z.to_nat 8) with 8%nat.
    destruct (2 ^ 63 <=? Uint64LE (take 8 d)); [done|].
    unfold ReadFull. destruct (Uint64LE (take 8 d) <=? len (drop 8 d)); [|done].
    rewrite (IH f2); [done| |].
    all: rewrite length_drop, length_drop; unfold len in *; lia. }
  set (data := encodeFrames batches ++ rest).
  rewrite (Hfuel (S (length data)) (length batches + S (length data))%nat data) by lia.
  rewrite (Hfuel (S (length rest)) (S (length data)) rest);
    [|lia|unfold data; rewrite length_app; lia].
  by apply readFrames_loop_frames.
Qed.

(** X4: a stream made of batches, each behind its length in eight
    little-endian bytes, is read back by the loop of [Map] as exactly these
    batches, in order, ending without error at the end of the stream. *)
Theorem readFrames_roundtrip batches :
  Forall (fun b => len b < 2 ^ 63) batches ->
  readFrames (encodeFrames batches) None = Some (batches, None).
Proof.
  intros Hf. rewrite <- (app_nil_r (encodeFrames batches)).
  rewrite readFrames_frames by done. simpl. by rewrite app_nil_r.
Qed.

Lemma readFrames_roundtrip_witness :
  readFrames (encodeFrames [[x01; x02; x03]; []; [x04]]) None
  = Some ([[x01; x02; x03]; []; [x04]], None).
Proof.
  apply (readFrames_roundtrip [[x01; x02; x03]; []; [x04]]).
  repeat constructor.
Defined.

(** X5: when the stream ends inside a frame, after [n] of its bytes, the
    loop of [Map] returns an error after the batches of the complete
    frames: [io.ErrUnexpectedEOF] when the cut is inside the size or inside
    the batch, and [io.EOF] itself when the cut is right after the size;
    when the reader fails with another error at the end of the complete
    frames, that error is returned. *)
Theorem readFrames_truncated batches b n :
  Forall (fun b => len b < 2 ^ 63) batches ->
  len b < 2 ^ 63 ->
  0 < n < 8 + len b ->
  readFrames (encodeFrames batches ++ take (Z.to_nat n) (frame b)) None
    = Some (batches, Some (if n =? 8 then io_EOF else io_ErrUnexpectedEOF)) /\
  (forall e, e <> io_EOF ->
     readFrames (encodeFrames batches) (Some e) = Some (batches, Some e)).
Proof.
  intros Hf Hb Hn. split.
  - rewrite readFrames_frames by done.
    assert (readFrames (take (Z.to_nat n) (frame b)) None
            = Some ([], Some (if n =? 8 then io_EOF else io_ErrUnexpectedEOF))) as ->;
      [|by rewrite app_nil_r].
    unfold readFrames.
    set (d := take (Z.to_nat n) (frame b)).
    assert (Hd : len d = n).
    { subst d. unfold len. rewrite length_take. unfold frame. rewrite length_app.
      change (length (PutUint64LE (len b))) with 8%nat. unfold len in *. lia. }
    cbn [readFrames_loop]. unfold ReadFull at 1. rewrite Hd.
    destruct (8 <=? n) eqn:E8.
    + apply Z.leb_le in E8. change (Z.to_nat 8) with 8%nat.
      assert (take 8 d = PutUint64LE (len b)) as ->.
      { subst d. unfold frame. rewrite take_take.
        replace (8 `min` Z.to_nat n)%nat with 8%nat by lia.
        by rewrite take_app_length'. }
      pose proof (len_nonneg b).
      rewrite Uint64LE_PutUint64LE by lia.
      rewrite (proj2 (Z.leb_gt _ _)) by lia.
      unfold ReadFull.
      assert (len (drop 8 d) = n - 8) as Hdd.
      { unfold len. rewrite length_drop. unfold len in Hd. lia. }
      rewrite Hdd. rewrite (proj2 (Z.leb_gt _ _)) by lia.
      destruct (n =? 8) eqn:En.
      * apply Z.eqb_eq in En. rewrite (proj2 (Z.eqb_eq _ _)) by lia. done.
      * apply Z.eqb_neq in En. rewrite (proj2 (Z.eqb_neq _ _)) by lia. done.
    + apply Z.leb_gt in E8.
      rewrite (proj2 (Z.eqb_neq n 8)) by lia.
      rewrite (proj2 (Z.eqb_neq n 0)) by lia.
      done.
  - intros e He. rewrite <- (app_nil_r (encodeFrames batches)).
    rewrite readFrames_frames by done.
    assert (readFrames [] (Some e) = Some ([], Some e)) as ->; [|by rewrite app_nil_r].
    unfold readFrames. simpl. by destruct (decide (e = io_EOF)).
Qed.

Lemma readFrames_truncated_witness :
  readFrames (encodeFrames [[x01; x02]] ++ take (Z.to_nat 8) (frame [x03; x04])) None
    = Some ([[x01; x02]], Some io_EOF) /\
  readFrames (encodeFrames [[x01; x02]] ++ take (Z.to_nat 9) (frame [x03; x04])) None
    = Some ([[x01; x02]], Some io_ErrUnexpectedEOF).
Proof.
  split.
  - apply (proj1 (readFrames_truncated [[x01; x02]] [x03; x04] 8
                    ltac:(repeat constructor) ltac:(done) ltac:(done))).
  - apply (proj1 (readFrames_truncated [[x01; x02]] [x03; x04] 9
                    ltac:(repeat constructor) ltac:(done) ltac:(done))).
Defined.

(** ** The requests sent by [Map] *)

Lemma LenNoPadding_app b1 b2 : LenNoPadding (b1 ++ b2) = LenNoPadding b1 + LenNoPadding b2.
Proof. induction b1 as [|s b1 IH]; simpl; lia. Qed.

Lemma LenNoPadding_nonneg buf : 0 <= LenNoPadding buf.
Proof. induction buf as [|s buf IH]; simpl; [lia|]. pose proof (len_nonneg s). lia. Qed.

Lemma mapBatches_spec `{PlanDeps} inp zbuf batches reqs zbuf' :
  mapBatches inp zbuf batches = (reqs, zbuf') ->
  LenNoPadding zbuf <= bufSoftLimit ->
  flat_map lbuf reqs ++ zbuf' = zbuf ++ batches /\
  Forall (sentFull inp) reqs /\
  LenNoPadding zbuf' <= bufSoftLimit.
Proof.
  revert zbuf reqs zbuf'. induction batches as [|b batches IH]; intros zbuf reqs zbuf'; simpl.
  { intros [= <- <-] Hz. rewrite app_nil_r. done. }
  destruct (bufSoftLimit <? LenNoPadding (zbuf ++ [b])) eqn:E.
  - apply Z.ltb_lt in E.
    destruct (mapBatches inp [] batches) as [reqs1 z1] eqn:E1.
    intros [= <- <-] Hz.
    destruct (IH [] reqs1 z1 E1) as (Hc & Hf & Hl); [done|].
    simpl. split; [|split; [|done]].
    + rewrite <- !app_assoc. simpl in Hc. rewrite Hc. done.
    + constructor; [|done]. repeat split; simpl; [done|].
      by rewrite removelast_last.
  - apply Z.ltb_ge in E. intros E1 Hz.
    destruct (IH (zbuf ++ [b]) reqs zbuf' E1 E) as (Hc & Hf & Hl).
    split; [|done]. rewrite Hc, <- app_assoc. done.
Qed.

(** X6: [Map] loses no batch and sends none twice.  When the stream ends
    cleanly, the buffers of the requests sent hold, end to end, exactly the
    batches read, in order, and a last request is always sent, even for an
    empty archive; when reading fails, [Map] returns the error and the
    requests already sent hold a prefix of the batches read.  Every request
    carries the descriptor of the archive. *)
Theorem Map_keeps_batches `{PlanDeps} r inp batches err :
  readBatches r = (batches, err) ->
  Forall (fun req => lr_in req = inp) (fst (Map r inp)) /\
  (err = None ->
     snd (Map r inp) = Ok tt /\
     flat_map lbuf (fst (Map r inp)) = batches /\
     fst (Map r inp) <> []) /\
  (forall e, err = Some e ->
     snd (Map r inp) = Err e /\
     flat_map lbuf (fst (Map r inp)) `prefix_of` batches).
Proof.
  intros Hr. unfold Map. rewrite Hr.
  destruct (mapBatches inp [] batches) as [reqs zbuf] eqn:Em.
  destruct (mapBatches_spec _ _ _ _ _ Em) as (Hc & Hf & Hl); [done|].
  simpl in Hc.
  assert (Hin : Forall (fun req => lr_in req = inp) reqs).
  { eapply Forall_impl; [exact Hf|]. by intros req [? _]. }
  destruct err as [e|]; simpl.
  - split; [done|]. split; [done|]. intros e' [= <-]. split; [done|].
    exists zbuf. by rewrite Hc.
  - split; [apply Forall_app; split; [done|by repeat constructor]|].
    split; [|done]. intros _. split; [done|]. split.
    + rewrite flat_map_app. simpl. by rewrite app_nil_r.
    + by destruct reqs.
Qed.

Lemma Map_keeps_batches_witness :
  readBatches (PlanDeps := testEnv []) (Snappy (Transport "backup-2"))
    = (fst (testArchive "backup-2"), None) /\
  snd (Map (H := testEnv []) (Snappy (Transport "backup-2")) (newestInput 2105)) = Ok tt /\
  flat_map lbuf (fst (Map (H := testEnv []) (Snappy (Transport "backup-2"))
                        (newestInput 2105)))
    = fst (testArchive "backup-2").
Proof.
  assert (Hr : readBatches (PlanDeps := testEnv []) (Snappy (Transport "backup-2"))
               = (fst (testArchive "backup-2"), None)) by reflexivity.
  split; [exact Hr|].
  destruct (Map_keeps_batches (H := testEnv []) _ (newestInput 2105) _ _ Hr)
    as (_ & Hok & _).
  destruct (Hok eq_refl) as (H1 & H2 & _). split; [exact H1|exact H2].
Defined.

(** X7: every request [Map] sends before the end of the stream has a
    buffer above [bufSoftLimit] that was at most [bufSoftLimit] before its
    last batch was added, so that a buffer is sent as soon as it passes the
    limit; the request sent at the end of the stream has a buffer of at
    most [bufSoftLimit]. *)
Theorem Map_request_sizes `{PlanDeps} r inp :
  exists full,
    Forall (sentFull inp) full /\
    ((snd (Map r inp) = Ok tt /\
      exists last, fst (Map r inp) = full ++ [last] /\
                   LenNoPadding (lbuf last) <= bufSoftLimit) \/
     ((exists e, snd (Map r inp) = Err e) /\ fst (Map r inp) = full)).
Proof.
  unfold Map. destruct (readBatches r) as [batches err].
  destruct (mapBatches inp [] batches) as [reqs zbuf] eqn:Em.
  destruct (mapBatches_spec _ _ _ _ _ Em) as (_ & Hf & Hl); [done|].
  exists reqs. split; [done|]. destruct err as [e|]; simpl.
  - right. split; [by exists e|done].
  - left. split; [done|]. by eexists.
Qed.

(** ** What [processKV] returns on an error *)

Section ProcessorErrors.
Context `{ProcDeps}.
Variable restoreTs : Z.

(** The entries a call appends, and its result, do not depend on the
    buffer, the maxima or the log the call starts from. *)
Lemma processKV_frame st inp kv :
  p_buf (fst (processKV restoreTs st inp kv)) = p_buf st ++ entriesOf restoreTs inp kv /\
  snd (processKV restoreTs st inp kv) = snd (processKV restoreTs st0 inp kv).
Proof.
  unfold entriesOf, processKV.
  destruct (negb (len (kv_UserMeta kv) =? 1)); [simpl; by rewrite app_nil_r|].
  destruct (fromBackupKey (kv_Key kv)) as [[rk ns]|e]; [|simpl; by rewrite app_nil_r].
  destruct (Parse rk) as [pk|e]; [|simpl; by rewrite app_nil_r].
  cbv zeta.
  destruct (negb (keepSchema inp) && (IsSchema pk || IsType pk));
    [simpl; by rewrite app_nil_r|].
  destruct (negb (IsType pk) && negb (bool_decide (Attr pk ∈ preds inp)));
    [simpl; by rewrite app_nil_r|].
  destruct (isPostingMeta (hd x00 (kv_UserMeta kv))).
  - destruct (bool_decide (ns ∈ dropNs inp)); [simpl; by rewrite app_nil_r|].
    destruct (BackupPostingList_Unmarshal (kv_Value kv)) as [bpl|e];
      [|simpl; by rewrite app_nil_r].
    destruct (negb (ShouldSplit (FromBackupPostingList bpl)) || HasStartUid pk
              || (0 <? len (GetSplits (FromBackupPostingList bpl)))); [done|].
    destruct (Rollup rk (FromBackupPostingList bpl) (kv_Version kv)) as [kvs|e];
      [|simpl; by rewrite app_nil_r].
    cbn [fst snd]. by rewrite !writeRollup_buf.
  - destruct (bool_decide (hd x00 (kv_UserMeta kv) = BitSchemaPosting)).
    + destruct (migrate inp pk kv); [done|simpl; by rewrite app_nil_r].
    + simpl; by rewrite app_nil_r.
Qed.

Lemma processKV_appends st inp kv st' r :
  processKV restoreTs st inp kv = (st', r) ->
  p_buf st' = p_buf st ++ entriesOf restoreTs inp kv.
Proof. intros E. pose proof (processKV_frame st inp kv) as [Hb _]. by rewrite E in Hb. Qed.

End ProcessorErrors.

(** X8: a call of [processKV] that returns an error has appended nothing
    to the buffer and logged nothing, and the error is one of: the meta is
    not one byte, or is a byte of no known kind; the backup key does not
    unmarshal; the restored key does not parse; the backup posting list
    does not unmarshal; the rollup failed. *)
Theorem processKV_error `{ProcDeps} restoreTs st inp kv st' e :
  processKV restoreTs st inp kv = (st', Err e) ->
  p_buf st' = p_buf st /\ p_log st' = p_log st /\
  (e = Errorf "Unexpected meta" \/
   (exists e0, BackupKey_Unmarshal (kv_Key kv) = Err e0 /\
               e = Wrap (Wrap e0 "while reading backup key") "fromBackupKey") \/
   (exists restoreKey ns e0,
      fromBackupKey (kv_Key kv) = Ok (restoreKey, ns) /\
      Parse restoreKey = Err e0 /\ e = Wrap e0 "could not parse key") \/
   (exists e0, BackupPostingList_Unmarshal (kv_Value kv) = Err e0 /\
               e = Wrap e0 "while reading backup posting list") \/
   (exists restoreKey pl, Rollup restoreKey pl (kv_Version kv) = Err e)).
Proof.
  unfold processKV. intros E.
  destruct (negb (len (kv_UserMeta kv) =? 1)).
  { injection E as <- <-. split; [done|]. split; [done|]. by left. }
  unfold fromBackupKey in *.
  destruct (BackupKey_Unmarshal (kv_Key kv)) as [bk|e0] eqn:Ek.
  2:{ injection E as <- <-. split; [done|]. split; [done|]. right. left. by exists e0. }
  destruct (Parse (FromBackupKey bk)) as [pk|e0] eqn:Ep.
  2:{ injection E as <- <-. split; [done|]. split; [done|]. right. right. left.
      by exists (FromBackupKey bk), (bk_Namespace bk), e0. }
  cbv zeta in E.
  destruct (negb (keepSchema inp) && (IsSchema pk || IsType pk)); [done|].
  destruct (negb (IsType pk) && negb (bool_decide (Attr pk ∈ preds inp))); [done|].
  destruct (isPostingMeta (hd x00 (kv_UserMeta kv))).
  - destruct (bool_decide (bk_Namespace bk ∈ dropNs inp)); [done|].
    destruct (BackupPostingList_Unmarshal (kv_Value kv)) as [bpl|e0] eqn:Eb.
    2:{ injection E as <- <-. split; [done|]. split; [done|].
        right. right. right. left. by exists e0. }
    destruct (negb (ShouldSplit (FromBackupPostingList bpl)) || HasStartUid pk
              || (0 <? len (GetSplits (FromBackupPostingList bpl)))); [done|].
    destruct (Rollup (FromBackupKey bk) (FromBackupPostingList bpl) (kv_Version kv))
      as [kvs|e0] eqn:Er; [done|].
    injection E as <- <-. split; [done|]. split; [done|].
    right. right. right. right. by exists (FromBackupKey bk), (FromBackupPostingList bpl).
  - destruct (bool_decide (hd x00 (kv_UserMeta kv) = BitSchemaPosting)).
    + destruct (migrate inp pk kv); done.
    + injection E as <- <-. split; [done|]. split; [done|]. by left.
Qed.

Lemma processKV_error_witness :
  processKV (H := testProc) 300 st0 (newestInput 2105) noMetaKV
    = (st0, Err (Errorf "Unexpected meta")) /\
  p_buf st0 = p_buf st0 /\ p_log st0 = p_log st0.
Proof.
  assert (E : processKV (H := testProc) 300 st0 (newestInput 2105) noMetaKV
              = (st0, Err (Errorf "Unexpected meta"))) by reflexivity.
  split; [exact E|].
  destruct (processKV_error (H := testProc) 300 _ _ _ _ _ E) as (Hb & Hl & _).
  split; [exact Hb|exact Hl].
Defined.

(** X9: the set of dropped namespaces bears on posting records only, and
    the version of the archive on schema records only.  For a record whose
    meta byte is the schema byte, two descriptors that differ in [dropNs]
    alone give the same call, so that the schema and the types of a dropped
    namespace are kept; for a record whose meta byte is a posting byte, two
    descriptors that differ in [version] alone give the same call. *)
Theorem processKV_descriptor_fields `{ProcDeps} restoreTs st inp1 inp2 kv :
  preds inp1 = preds inp2 -> keepSchema inp1 = keepSchema inp2 ->
  (kv_UserMeta kv = [BitSchemaPosting] -> version inp1 = version inp2 ->
     processKV restoreTs st inp1 kv = processKV restoreTs st inp2 kv) /\
  (isPostingMeta (hd x00 (kv_UserMeta kv)) = true -> dropNs inp1 = dropNs inp2 ->
     processKV restoreTs st inp1 kv = processKV restoreTs st inp2 kv).
Proof.
  intros Hp Hk. split.
  - intros Hm Hv. unfold processKV, migrate. rewrite Hm, Hp, Hk, Hv. cbn [hd].
    replace (isPostingMeta BitSchemaPosting) with false by reflexivity.
    reflexivity.
  - intros Hm Hd. unfold processKV. rewrite Hm, Hp, Hk, Hd. reflexivity.
Qed.

Lemma processKV_descriptor_fields_witness :
  processKV (H := testProc) 300 st0 (newestInput 2105) typeKV2103
  = processKV (H := testProc) 300 st0
      {| preds := preds (newestInput 2105); dropNs := {[0]};
         version := 2105; keepSchema := true |} typeKV2103.
Proof.
  destruct (processKV_descriptor_fields (H := testProc) 300 st0 (newestInput 2105)
              {| preds := preds (newestInput 2105); dropNs := {[0]};
                 version := 2105; keepSchema := true |} typeKV2103)
    as [Hs _]; [reflexivity|reflexivity|].
  apply Hs; reflexivity.
Defined.

(** ** What a worker sends to the mergers *)

Section WorkerOutput.
Context `{ProcDeps}.
Variable restoreTs : Z.

Lemma processKVs_held st sent inp kvs st' sent' r :
  processKVs restoreTs st sent inp kvs = (st', sent', r) ->
  (r = Ok tt -> held st' sent' = held st sent ++ flat_map (entriesOf restoreTs inp) kvs) /\
  held st' sent' `prefix_of` held st sent ++ flat_map (entriesOf restoreTs inp) kvs.
Proof.
  revert st sent. induction kvs as [|kv kvs IH]; intros st sent; simpl.
  { intros [= <- <- <-]. rewrite app_nil_r. done. }
  destruct (processKV restoreTs st inp kv) as [st1 [[]|e]] eqn:E.
  - pose proof (processKV_appends _ _ _ _ _ _ E) as Hb.
    assert (Hstep : forall st2 sent2,
              held st2 sent2 = held st sent ++ entriesOf restoreTs inp kv ->
              processKVs restoreTs st2 sent2 inp kvs = (st', sent', r) ->
              (r = Ok tt -> held st' sent'
                 = held st sent ++ entriesOf restoreTs inp kv
                   ++ flat_map (entriesOf restoreTs inp) kvs) /\
              held st' sent' `prefix_of`
                held st sent ++ entriesOf restoreTs inp kv
                ++ flat_map (entriesOf restoreTs inp) kvs).
    { intros st2 sent2 Hh E2. destruct (IH _ _ E2) as [H1 H2].
      rewrite Hh, <- app_assoc in H1, H2. done. }
    destruct (spillLimit <? LenNoPadding (p_buf st1)).
    + apply Hstep. unfold held. simpl. rewrite concat_app. simpl.
      rewrite !app_nil_r, Hb. by rewrite app_assoc.
    + apply Hstep. unfold held. rewrite Hb. by rewrite app_assoc.
  - intros [= <- <- <-]. split; [done|].
    pose proof (processKV_appends _ _ _ _ _ _ E) as Hb.
    unfold held. rewrite Hb, !app_assoc. by apply prefix_app_r.
Qed.

Lemma processSlices_held st sent inp slices st' sent' r :
  processSlices restoreTs st sent inp slices = (st', sent', r) ->
  (r = Ok tt ->
     held st' sent' = held st sent
       ++ entriesOfReq restoreTs {| lbuf := slices; lr_in := inp |}) /\
  held st' sent' `prefix_of`
    held st sent ++ entriesOfReq restoreTs {| lbuf := slices; lr_in := inp |}.
Proof.
  unfold entriesOfReq, recordsOf. cbn [lbuf lr_in].
  revert st sent. induction slices as [|s slices IH]; intros st sent; simpl.
  { intros [= <- <- <-]. rewrite app_nil_r. done. }
  destruct (KVList_Unmarshal s) as [kvs|e].
  - destruct (processKVs restoreTs st sent inp kvs) as [[st1 sent1] [[]|e]] eqn:E.
    + destruct (processKVs_held _ _ _ _ _ _ _ E) as [H1 _]. specialize (H1 eq_refl).
      intros E2. destruct (IH _ _ E2) as [H2 H3].
      rewrite flat_map_app, app_assoc, <- H1. done.
    + intros [= <- <- <-]. split; [done|].
      destruct (processKVs_held _ _ _ _ _ _ _ E) as [_ H1].
      rewrite flat_map_app, app_assoc. by apply prefix_app_r.
  - intros [= <- <- <-]. split; [done|]. by apply prefix_app_r.
Qed.

Lemma processReqs_held st sent reqs st' sent' r :
  processReqs restoreTs st sent reqs = (st', sent', r) ->
  (r = Ok tt ->
     held st' sent' = held st sent ++ flat_map (entriesOfReq restoreTs) reqs) /\
  held st' sent' `prefix_of` held st sent ++ flat_map (entriesOfReq restoreTs) reqs.
Proof.
  revert st sent. induction reqs as [|[slices inp] reqs IH]; intros st sent; simpl.
  { intros [= <- <- <-]. rewrite app_nil_r. done. }
  destruct (processSlices restoreTs st sent inp slices) as [[st1 sent1] [[]|e]] eqn:E.
  - destruct (processSlices_held _ _ _ _ _ _ _ E) as [H1 _]. specialize (H1 eq_refl).
    intros E2. destruct (IH _ _ E2) as [H2 H3].
    rewrite app_assoc, <- H1. done.
  - intros [= <- <- <-]. split; [done|].
    destruct (processSlices_held _ _ _ _ _ _ _ E) as [_ H1].
    rewrite app_assoc. by apply prefix_app_r.
Qed.

Lemma processReqCh_Ok_sent reqs :
  w_err (processReqCh restoreTs reqs) = Ok tt ->
  concat (w_sent (processReqCh restoreTs reqs)) = flat_map (entriesOfReq restoreTs) reqs.
Proof.
  unfold processReqCh.
  destruct (processReqs restoreTs _ [] reqs) as [[st sent] [[]|e]] eqn:E; [|done].
  destruct (processReqs_held _ _ _ _ _ _ E) as [H1 _]. intros _.
  unfold held in H1. cbn [concat p_buf app] in H1. cbn [w_sent].
  rewrite concat_app. cbn [concat]. rewrite app_nil_r. by apply H1.
Qed.

Lemma processKVs_sizes st sent inp kvs st' sent' r :
  processKVs restoreTs st sent inp kvs = (st', sent', r) ->
  Forall (fun b => spillLimit < LenNoPadding b) sent ->
  LenNoPadding (p_buf st) <= spillLimit ->
  Forall (fun b => spillLimit < LenNoPadding b) sent' /\
  (r = Ok tt -> LenNoPadding (p_buf st') <= spillLimit).
Proof.
  revert st sent. induction kvs as [|kv kvs IH]; intros st sent; simpl.
  { intros [= <- <- <-]. done. }
  destruct (processKV restoreTs st inp kv) as [st1 [[]|e]] eqn:E.
  - destruct (spillLimit <? LenNoPadding (p_buf st1)) eqn:El.
    + apply Z.ltb_lt in El. intros E2 Hs Hb. apply (IH _ _ E2).
      * apply Forall_app. split; [done|]. by repeat constructor.
      * done.
    + apply Z.ltb_ge in El. intros E2 Hs Hb. by apply (IH _ _ E2).
  - intros [= <- <- <-]. done.
Qed.

Lemma processSlices_sizes st sent inp slices st' sent' r :
  processSlices restoreTs st sent inp slices = (st', sent', r) ->
  Forall (fun b => spillLimit < LenNoPadding b) sent ->
  LenNoPadding (p_buf st) <= spillLimit ->
  Forall (fun b => spillLimit < LenNoPadding b) sent' /\
  (r = Ok tt -> LenNoPadding (p_buf st') <= spillLimit).
Proof.
  revert st sent. induction slices as [|s slices IH]; intros st sent; simpl.
  { intros [= <- <- <-]. done. }
  destruct (KVList_Unmarshal s) as [kvs|e]; [|intros [= <- <- <-]; done].
  destruct (processKVs restoreTs st sent inp kvs) as [[st1 sent1] [[]|e]] eqn:E.
  - intros E2 Hs Hb. destruct (processKVs_sizes _ _ _ _ _ _ _ E Hs Hb) as [H1 H2].
    apply (IH _ _ E2); [done|by apply H2].
  - intros [= <- <- <-] Hs Hb.
    destruct (processKVs_sizes _ _ _ _ _ _ _ E Hs Hb) as [H1 _]. done.
Qed.

Lemma processReqs_sizes st sent reqs st' sent' r :
  processReqs restoreTs st sent reqs = (st', sent', r) ->
  Forall (fun b => spillLimit < LenNoPadding b) sent ->
  LenNoPadding (p_buf st) <= spillLimit ->
  Forall (fun b => spillLimit < LenNoPadding b) sent' /\
  (r = Ok tt -> LenNoPadding (p_buf st') <= spillLimit).
Proof.
  revert st sent. induction reqs as [|req reqs IH]; intros st sent; simpl.
  { intros [= <- <- <-]. done. }
  destruct (processSlices restoreTs st sent (lr_in req) (lbuf req))
    as [[st1 sent1] [[]|e]] eqn:E.
  - intros E2 Hs Hb. destruct (processSlices_sizes _ _ _ _ _ _ _ E Hs Hb) as [H1 H2].
    apply (IH _ _ E2); [done|by apply H2].
  - intros [= <- <- <-] Hs Hb.
    destruct (processSlices_sizes _ _ _ _ _ _ _ E Hs Hb) as [H1 _]. done.
Qed.

End WorkerOutput.

(** X10: a worker that returns without an error has sent to the mergers,
    over all its buffers and in the order of its input, exactly the entries
    of the records of its requests: none is lost when a buffer is replaced
    and none is sent twice.  A worker that returns an error has sent a
    prefix of them. *)
Theorem worker_sends_every_entry `{ProcDeps} restoreTs reqs :
  (w_err (processReqCh restoreTs reqs) = Ok tt ->
     concat (w_sent (processReqCh restoreTs reqs))
     = flat_map (entriesOfReq restoreTs) reqs) /\
  concat (w_sent (processReqCh restoreTs reqs))
    `prefix_of` flat_map (entriesOfReq restoreTs) reqs.
Proof.
  unfold processReqCh.
  destruct (processReqs restoreTs _ [] reqs) as [[st sent] [[]|e]] eqn:E;
    destruct (processReqs_held _ _ _ _ _ _ _ E) as [H1 H2];
    unfold held in H1, H2; cbn [concat p_buf app] in H1, H2; cbn [w_err w_sent].
  - rewrite concat_app. cbn [concat]. rewrite app_nil_r.
    rewrite (H1 eq_refl). done.
  - split; [done|]. etrans; [|exact H2]. by apply prefix_app_r.
Qed.

(** X11: every buffer a worker sends while it reads its requests is above
    the limit of 228 MiB, so that none of them is empty; the buffer it
    sends when its requests are over is at most the limit, and may be
    empty.  A worker that returns an error does not send the buffer it was
    filling. *)
Theorem worker_buffer_sizes `{ProcDeps} restoreTs reqs :
  exists full,
    Forall (fun b => spillLimit < LenNoPadding b) full /\
    ((w_err (processReqCh restoreTs reqs) = Ok tt /\
      exists last, w_sent (processReqCh restoreTs reqs) = full ++ [last] /\
                   last = p_buf (w_state (processReqCh restoreTs reqs)) /\
                   LenNoPadding last <= spillLimit) \/
     ((exists e, w_err (processReqCh restoreTs reqs) = Err e) /\
      w_sent (processReqCh restoreTs reqs) = full)).
Proof.
  unfold processReqCh.
  destruct (processReqs restoreTs _ [] reqs) as [[st sent] [[]|e]] eqn:E;
    destruct (processReqs_sizes _ _ _ _ _ _ _ E) as [H1 H2];
    try done; exists sent; (split; [done|]); cbn [w_err w_sent w_state].
  - left. split; [done|]. exists (p_buf st). split; [done|]. split; [done|]. by apply H2.
  - right. split; [by exists e|done].
Qed.


(** ** The maxima are values that were read *)

Lemma attained_trans f recs1 recs2 a b c :
  attained f recs1 a b -> attained f recs2 b c -> attained f (recs1 ++ recs2) a c.
Proof.
  intros [->|(kv & Hin & Hf)] [->|(kv' & Hin' & Hf')].
  - by left.
  - right. exists kv'. split; [apply in_or_app; by right|done].
  - right. exists kv. split; [apply in_or_app; by left|done].
  - right. exists kv'. split; [apply in_or_app; by right|done].
Qed.

Lemma attained_incl f recs recs' a b :
  (forall kv, In kv recs -> In kv recs') -> attained f recs a b -> attained f recs' a b.
Proof. intros Hi [->|(kv & Hin & Hf)]; [by left|right; exists kv; auto]. Qed.

Section MaximaAttained.
Context `{ProcDeps}.
Variable restoreTs : Z.

Lemma processKV_attained st inp kv st' r :
  processKV restoreTs st inp kv = (st', r) ->
  attained uidOf [kv] (p_maxUid st) (p_maxUid st') /\
  attained nsOf [kv] (p_maxNs st) (p_maxNs st').
Proof.
  intros [[-> _]|(rk & ns & pk & Hk & Hp & Hu & Hn)]%processKV_maxima.
  { split; by left. }
  split.
  - destruct (Z.max_spec (p_maxUid st) (Uid pk)) as [[_ E]|[_ E]];
      rewrite E in Hu; [|by left].
    right. exists kv. split; [by left|]. unfold uidOf. by rewrite Hk, Hp, Hu.
  - destruct (Z.max_spec (p_maxNs st) ns) as [[_ E]|[_ E]];
      rewrite E in Hn; [|by left].
    right. exists kv. split; [by left|]. unfold nsOf. by rewrite Hk, Hp, Hn.
Qed.

Lemma processKVs_attained st sent inp kvs st' sent' r :
  processKVs restoreTs st sent inp kvs = (st', sent', r) ->
  attained uidOf kvs (p_maxUid st) (p_maxUid st') /\
  attained nsOf kvs (p_maxNs st) (p_maxNs st').
Proof.
  revert st sent. induction kvs as [|kv kvs IH]; intros st sent; simpl.
  { intros [= <- <- <-]. split; by left. }
  destruct (processKV restoreTs st inp kv) as [st1 [[]|e]] eqn:E;
    destruct (processKV_attained _ _ _ _ _ E) as [Hu Hn].
  - assert (Hstep : forall st2 sent2,
              p_maxUid st2 = p_maxUid st1 -> p_maxNs st2 = p_maxNs st1 ->
              processKVs restoreTs st2 sent2 inp kvs = (st', sent', r) ->
              attained uidOf (kv :: kvs) (p_maxUid st) (p_maxUid st') /\
              attained nsOf (kv :: kvs) (p_maxNs st) (p_maxNs st')).
    { intros st2 sent2 E1 E2 E3. destruct (IH _ _ E3) as [Hu' Hn'].
      rewrite E1 in Hu'. rewrite E2 in Hn'.
      split; [apply (attained_trans _ [kv] kvs _ _ _ Hu Hu')
             |apply (attained_trans _ [kv] kvs _ _ _ Hn Hn')]. }
    destruct (spillLimit <? LenNoPadding (p_buf st1)); by eapply Hstep.
  - intros [= <- <- <-].
    split; (eapply attained_incl; [|done]); intros ? [<-|[]]; by left.
Qed.

Lemma processSlices_attained st sent inp slices st' sent' r :
  processSlices restoreTs st sent inp slices = (st', sent', r) ->
  attained uidOf (recordsOf {| lbuf := slices; lr_in := inp |})
           (p_maxUid st) (p_maxUid st') /\
  attained nsOf (recordsOf {| lbuf := slices; lr_in := inp |})
           (p_maxNs st) (p_maxNs st').
Proof.
  unfold recordsOf. cbn [lbuf].
  revert st sent. induction slices as [|s slices IH]; intros st sent; simpl.
  { intros [= <- <- <-]. split; by left. }
  destruct (KVList_Unmarshal s) as [kvs|e]; [|intros [= <- <- <-]; split; by left].
  destruct (processKVs restoreTs st sent inp kvs) as [[st1 sent1] [[]|e]] eqn:E;
    destruct (processKVs_attained _ _ _ _ _ _ _ E) as [Hu Hn].
  - intros E2. destruct (IH _ _ E2) as [Hu' Hn'].
    split; [apply (attained_trans _ _ _ _ _ _ Hu Hu')
           |apply (attained_trans _ _ _ _ _ _ Hn Hn')].
  - intros [= <- <- <-].
    split; (eapply attained_incl; [|done]); intros; apply in_or_app; by left.
Qed.

Lemma processReqs_attained st sent reqs st' sent' r :
  processReqs restoreTs st sent reqs = (st', sent', r) ->
  attained uidOf (inputRecords reqs) (p_maxUid st) (p_maxUid st') /\
  attained nsOf (inputRecords reqs) (p_maxNs st) (p_maxNs st').
Proof.
  revert st sent. induction reqs as [|[slices inp] reqs IH]; intros st sent.
  { intros [= <- <- <-]. split; by left. }
  simpl. change (inputRecords ({| lbuf := slices; lr_in := inp |} :: reqs))
    with (recordsOf {| lbuf := slices; lr_in := inp |} ++ inputRecords reqs).
  destruct (processSlices restoreTs st sent inp slices) as [[st1 sent1] [[]|e]] eqn:E;
    destruct (processSlices_attained _ _ _ _ _ _ _ E) as [Hu Hn].
  - intros E2. destruct (IH _ _ E2) as [Hu' Hn'].
    split; [apply (attained_trans _ _ _ _ _ _ Hu Hu')
           |apply (attained_trans _ _ _ _ _ _ Hn Hn')].
  - intros [= <- <- <-].
    split; (eapply attained_incl; [|done]); intros; apply in_or_app; by left.
Qed.

Lemma processReqCh_attained reqs :
  attained uidOf (inputRecords reqs) 0 (p_maxUid (w_state (processReqCh restoreTs reqs))) /\
  attained nsOf (inputRecords reqs) 0 (p_maxNs (w_state (processReqCh restoreTs reqs))).
Proof.
  unfold processReqCh.
  destruct (processReqs restoreTs _ [] reqs) as [[st sent] [[]|e]] eqn:E;
    by destruct (processReqs_attained _ _ _ _ _ _ E).
Qed.

Lemma casMax_attained (P : Z -> Prop) (Q : Z -> Prop) sts m :
  P (m_maxUid m) -> Q (m_maxNs m) ->
  Forall (fun st => P (p_maxUid st) /\ Q (p_maxNs st)) sts ->
  P (m_maxUid (fold_left casMax sts m)) /\ Q (m_maxNs (fold_left casMax sts m)).
Proof.
  revert m. induction sts as [|st sts IH]; intros m Hp Hq Hf; [done|].
  inversion Hf as [|? ? [Hp' Hq'] Hf']; subst. simpl. apply IH; [| |done].
  - simpl. destruct (Z.max_spec (m_maxUid m) (p_maxUid st)) as [[_ ->]|[_ ->]]; done.
  - simpl. destruct (Z.max_spec (m_maxNs m) (p_maxNs st)) as [[_ ->]|[_ ->]]; done.
Qed.

End MaximaAttained.

Section PlannerMaxima.
Context `{PlanDeps} `{ProcDeps}.

Lemma takenBy_incl sched w i reqs kv :
  In kv (inputRecords (takenBy sched w i reqs)) -> In kv (inputRecords reqs).
Proof.
  revert i. induction reqs as [|req reqs IH]; intros i; [done|]. simpl.
  change (inputRecords (req :: reqs)) with (recordsOf req ++ inputRecords reqs).
  destruct (Nat.eqb (sched i mod Z.to_nat numGo) w).
  - change (inputRecords (req :: takenBy sched w (S i) reqs))
      with (recordsOf req ++ inputRecords (takenBy sched w (S i) reqs)).
    intros [Hin|Hin]%in_app_or; apply in_or_app; [by left|right; by eapply IH].
  - intros Hin. apply in_or_app. right. by eapply IH.
Qed.

Lemma foldDropOps_banned ops st st' r :
  foldDropOps ops st = (st', r) -> bannedInv st -> bannedInv st'.
Proof.
  revert st. induction ops as [|op ops IH]; intros st; simpl.
  { by intros [= <- <-]. }
  destruct (DropOp op).
  - intros E Hi. by apply (IH _ E).
  - destruct (String.eqb (DropValue op) "").
    + intros E Hi. by apply (IH _ E).
    + destruct (ParseUint (DropValue op)) as [ns|e]; [|by intros [= <- <-]].
      intros E Hi. by apply (IH _ E).
  - intros E Hi. by apply (IH _ E).
  - destruct (ParseUint (DropValue op)) as [ns|e]; [|by intros [= <- <-]].
    destruct (BanNamespace ns); [by intros [= <- <-]|].
    intros E Hi. apply (IH _ E). unfold bannedInv, ban. simpl.
    destruct (Z.max_spec (maxBannedNs st) ns) as [[_ ->]|[_ ->]].
    + right. apply in_or_app. right. by left.
    + destruct Hi as [Hi|Hi]; [by left|]. right. apply in_or_app. by left.
Qed.

Lemma mapGroup_banned h encKey manifest0 i manifest gid st st' r :
  mapGroup h encKey manifest0 i manifest gid st = (st', r) ->
  maxBannedNs st' = maxBannedNs st /\ banned st' = banned st.
Proof.
  unfold mapGroup.
  destruct (br_err _); [by intros [= <- <-]|].
  destruct (Map _ _) as [reqs [[]|e]]; [|by intros [= <- <-]].
  destruct (Close _); by intros [= <- <-].
Qed.

Lemma planLoop_banned req h encKey manifest0 i manifests st st' r :
  planLoop req h encKey manifest0 i manifests st = (st', r) ->
  bannedInv st -> bannedInv st'.
Proof.
  revert i st. induction manifests as [|m manifests IH]; intros i st; simpl.
  { by intros [= <- <-]. }
  destruct (BackupNum m <? IncrementalFrom req); [by intros [= <- <-]|].
  destruct (dropAll st); [by intros [= <- <-]|].
  destruct ((ValidReadTs m =? 0) || (Z.of_nat (size (Groups m)) =? 0)).
  { intros E Hi. by apply (IH _ _ E). }
  destruct (match Groups m !! GroupId req with
            | Some _ => mapGroup h encKey manifest0 i m (GroupId req) st
            | None => (st, Ok tt)
            end) as [st1 r1] eqn:E1.
  assert (Hi1 : bannedInv st -> bannedInv st1).
  { destruct (Groups m !! GroupId req).
    - apply mapGroup_banned in E1 as [E1 E2]. unfold bannedInv. by rewrite E1, E2.
    - by injection E1 as <- <-. }
  destruct r1 as [[]|e]; [|intros [= <- <-]; done].
  destruct (foldDropOps (DropOperations m) st1) as [st2 [[]|e]] eqn:E2.
  - intros E Hi. apply (IH _ _ E). eapply foldDropOps_banned; [done|]. by apply Hi1.
  - intros [= <- <-] Hi. eapply foldDropOps_banned; [done|]. by apply Hi1.
Qed.

Lemma plan_banned req h encKey manifests st r :
  plan req h encKey manifests = (st, r) -> bannedInv st.
Proof.
  unfold plan. destruct manifests as [|m0 ms].
  - intros [= <- <-]. by left.
  - intros E. eapply planLoop_banned; [done|]. by left.
Qed.

End PlannerMaxima.

(** X12: the maxima of the result are values that were read, not bounds
    only: [maxUid] is zero or the uid of a record handed to [processKV],
    and [maxNs] is zero, the namespace of such a record or a namespace
    banned for a DROP_NS operation. *)
Theorem mapResult_maxima_attained `{PlanDeps} `{ProcDeps}
    req sched uri h manifests cfg encKey res calls :
  url_Parse (Location req) = Ok uri ->
  NewUriHandler uri req = Ok h ->
  getManifestsToRestore h uri req = Ok manifests ->
  getEncConfig req = Ok cfg ->
  GetKeys cfg = Ok encKey ->
  RunMapper req sched = (Ok res, calls) ->
  attained uidOf (inputRecords (reqCh (fst (plan req h encKey manifests)))) 0 (maxUid res) /\
  (attained nsOf (inputRecords (reqCh (fst (plan req h encKey manifests)))) 0 (maxNs res) \/
   In (maxNs res) (banned (fst (plan req h encKey manifests)))).
Proof.
  intros Hurl Hh Hm Hcfg Hkeys E. unfold RunMapper in E.
  rewrite Hurl, Hh, Hm, Hcfg, Hkeys in E.
  destruct (RestoreTs req =? 0); [done|].
  destruct (plan req h encKey manifests) as [st [[]|e]] eqn:Ep; [|done].
  pose proof (plan_banned _ _ _ _ _ _ Ep) as Hb.
  destruct (waitAll (workers (RestoreTs req) sched (reqCh st))) as [[]|e] eqn:Ew; [|done].
  injection E as <- <-. cbn [fst maxUid maxNs].
  destruct (casMax_attained
              (attained uidOf (inputRecords (reqCh st)) 0)
              (attained nsOf (inputRecords (reqCh st)) 0)
              (map w_state (workers (RestoreTs req) sched (reqCh st)))
              {| m_maxUid := 0; m_maxNs := 0 |}) as [Hu Hn].
  - by left.
  - by left.
  - unfold workers. rewrite map_map. apply Forall_forall. intros st1 Hin.
    apply list_elem_of_In, in_map_iff in Hin as (w & <- & _).
    destruct (processReqCh_attained (RestoreTs req) (takenBy sched w 0 (reqCh st)))
      as [Hu Hn].
    split; (eapply attained_incl; [|done]); intros kv; apply takenBy_incl.
  - split; [done|].
    destruct (Z.max_spec (m_maxNs (fold_left casMax
                (map w_state (workers (RestoreTs req) sched (reqCh st)))
                {| m_maxUid := 0; m_maxNs := 0 |})) (maxBannedNs st)) as [[_ ->]|[_ ->]].
    + destruct Hb as [->|Hb]; [left; by left|by right].
    + by left.
Qed.

Lemma mapResult_maxima_attained_witness :
  fst (RunMapper (H := testEnv [newManifest; oldManifest ""]) (H0 := testProc)
         (testRequest 300) (fun i => i)) = Ok testResult /\
  attained (uidOf (H := testProc))
    (inputRecords (H := testProc)
       (reqCh (fst (plan (H := testEnv [newManifest; oldManifest ""])
                      (testRequest 300) tt [] [newManifest; oldManifest ""]))))
    0 9 /\
  In 42 (banned (fst (plan (H := testEnv [newManifest; oldManifest ""])
                        (testRequest 300) tt [] [newManifest; oldManifest ""]))).
Proof.
  assert (E : fst (RunMapper (H := testEnv [newManifest; oldManifest ""]) (H0 := testProc)
                     (testRequest 300) (fun i => i)) = Ok testResult)
    by (vm_compute; reflexivity).
  split; [exact E|].
  destruct (mapResult_maxima_attained (H := testEnv [newManifest; oldManifest ""])
              (H0 := testProc)
              (testRequest 300) (fun i => i) "file:///backups" tt
              [newManifest; oldManifest ""] tt [] testResult
              (snd (RunMapper (H := testEnv [newManifest; oldManifest ""]) (H0 := testProc)
                      (testRequest 300) (fun i => i)))
              eq_refl eq_refl eq_refl eq_refl eq_refl) as [Hu _].
  { rewrite <- E. apply surjective_pairing. }
  split; [exact Hu|]. vm_compute. by left.
Defined.

(** ** An entry that [Key] and [Data] accept *)

Lemma PutUint16_Uint16 b0 b1 : PutUint16 (Uint16 b0 b1) = [b0; b1].
Proof.
  pose proof (byte_to_Z_range b0) as H0. pose proof (byte_to_Z_range b1) as H1.
  unfold PutUint16, Uint16. rewrite lor_shiftl_8 by (done || lia).
  f_equal; [|f_equal]; apply byte_to_Z_inj; rewrite byte_to_Z_to_byte.
  - rewrite Z.shiftr_div_pow2 by lia. change (2 ^ 8) with 256.
    replace ((byte_to_Z b1 + 256 * byte_to_Z b0) / 256) with (byte_to_Z b0).
    + apply Z.mod_small. lia.
    + apply Z.div_unique with (r := byte_to_Z b1); lia.
  - symmetry. apply Z.mod_unique with (q := byte_to_Z b0); lia.
Qed.

(** On an entry that fills its capacity, [Key] returns only on the framing
    of a key and a data. *)
Lemma Key_framed me k :
  Key me = Some k ->
  exists d, Data me = Some d /\ me = frameEntry k d /\ len k + 2 < 65536.
Proof.
  unfold Key, Data. destruct me as [|b0 [|b1 rest]]; [done|done|].
  set (me := b0 :: b1 :: rest). set (sz := Uint16 b0 b1).
  assert (Hsz : 0 <= sz < 65536).
  { pose proof (byte_to_Z_range b0). pose proof (byte_to_Z_range b1).
    subst sz. unfold Uint16. rewrite lor_shiftl_8 by (done || lia). lia. }
  assert (Hlen : len me = 2 + len rest) by (unfold len; simpl; lia).
  intros (_ & Hlo & Hhi & Hk)%slice_Some. unfold uint16 in *.
  assert (Hsmall : 2 + sz < 65536).
  { destruct (Z_lt_dec (2 + sz) 65536) as [|Hbig]; [done|exfalso].
    assert ((2 + sz) mod 65536 = 2 + sz - 65536).
    { symmetry. apply Z.mod_unique with (q := 1); lia. }
    lia. }
  rewrite (Z.mod_small (2 + sz)) in * by lia.
  rewrite slice_ok by lia.
  eexists. split; [reflexivity|].
  assert (Hklen : len k = sz).
  { subst k. unfold len in *. rewrite length_take, length_drop.
    clearbody me sz. lia. }
  split; [|lia].
  unfold frameEntry, uint16. rewrite Hklen, Z.mod_small by lia.
  subst sz. rewrite PutUint16_Uint16. subst k me.
  replace (Z.to_nat (2 + Uint16 b0 b1)) with (2 + Z.to_nat (Uint16 b0 b1))%nat by lia.
  replace (Z.to_nat (2 + Uint16 b0 b1 - 2)) with (Z.to_nat (Uint16 b0 b1)) by lia.
  change (Z.to_nat 2) with 2%nat. cbn [drop app Nat.add].
  rewrite drop_0, (take_ge (drop (Z.to_nat _) rest)).
  2:{ rewrite length_drop. unfold len in *. cbn [length] in *. lia. }
  by rewrite take_drop.
Qed.

(** Where [Key] and [Data] return on an entry that fills its capacity,
    they return the same on a window of a buffer, whatever follows the
    entry. *)
Lemma Key_Data_window me spare :
  (forall k, Key me = Some k -> KeyIn me spare = Some k) /\
  (forall d, Data me = Some d -> DataIn me spare = Some d).
Proof.
  unfold Key, Data, KeyIn, DataIn. destruct me as [|b0 [|b1 rest]]; [done|done|].
  cbn [app]. split; [|done].
  intros k (Hlo & Hlh & Hhi & ->)%slice_Some.
  change (b0 :: b1 :: rest ++ spare) with ((b0 :: b1 :: rest) ++ spare).
  set (me := b0 :: b1 :: rest) in *. set (hi := uint16 (2 + Uint16 b0 b1)) in *.
  clearbody me hi.
  rewrite slice_ok; [|lia|lia|rewrite len_app; pose proof (len_nonneg spare); lia].
  f_equal. rewrite drop_app_le by (unfold len in *; lia).
  rewrite take_app_le; [done|]. rewrite length_drop. unfold len in *. lia.
Qed.

(** X13: an entry on which both [Key] and [Data] return, called on a
    window of a buffer with whatever follows the entry in it, is the
    framing of that key and that data: the key is as long as the first two
    bytes say, at most 65533 bytes, it lies inside the entry, and the entry
    is what [toBuffer] writes for that key and that data.  [Key] alone can
    return on other entries, with bytes that follow the entry in the
    buffer; [Data] panics on them. *)
Theorem Key_Data_accept_framed_only me spare k d :
  KeyIn me spare = Some k -> DataIn me spare = Some d ->
  me = frameEntry k d /\ len k + 2 < 65536 /\ Key me = Some k /\ Data me = Some d.
Proof.
  intros Hk Hd.
  assert (HK : Key me = Some k /\ Data me = Some d).
  { unfold KeyIn, DataIn, Key, Data in *.
    destruct (me ++ spare) as [|b0 [|b1 arr]] eqn:Earr; [done|done|].
    apply slice_Some in Hk as (_ & Hlo & Hhi & Hk).
    pose proof Hd as Hd'. apply slice_Some in Hd' as (_ & Hle & _ & _).
    set (hi := uint16 (2 + Uint16 b0 b1)) in *.
    destruct me as [|a0 [|a1 rest]].
    - unfold len in Hle. simpl in Hle. lia.
    - unfold len in Hle. simpl in Hle. lia.
    - simpl in Earr. injection Earr as -> -> <-. fold hi. split; [|exact Hd].
      change (b0 :: b1 :: rest ++ spare) with ((b0 :: b1 :: rest) ++ spare) in Hk.
      set (me := b0 :: b1 :: rest) in *. clearbody me hi.
      rewrite slice_ok by lia. f_equal. subst k.
      rewrite drop_app_le by (unfold len in *; lia).
      rewrite take_app_le; [done|]. rewrite length_drop. unfold len in *. lia. }
  destruct HK as [HK HD]. destruct (Key_framed me k HK) as (d' & HD' & E & Hs).
  rewrite HD in HD'. injection HD' as <-. done.
Qed.

Lemma Key_Data_accept_framed_only_witness :
  KeyIn sameKeyEntry [x00; x07] = Some (mustKey sameKeyEntry) /\
  sameKeyEntry = frameEntry (mustKey sameKeyEntry) (default [] (Data sameKeyEntry)).
Proof.
  assert (Hk : KeyIn sameKeyEntry [x00; x07] = Some (mustKey sameKeyEntry)) by reflexivity.
  split; [exact Hk|].
  apply (Key_Data_accept_framed_only sameKeyEntry [x00; x07]
           (mustKey sameKeyEntry) (default [] (Data sameKeyEntry)) Hk).
  reflexivity.
Defined.

(** An entry of three bytes that announces a key of five: on a window with
    four more bytes of the buffer behind it, [Key] returns the byte of the
    entry and the four bytes that follow it, and [Data] panics; on an entry
    that fills its capacity, [Key] panics. *)
Example Key_returns_past_the_entry :
  KeyIn [x00; x05; x61] [x62; x63; x64; x65] = Some [x61; x62; x63; x64; x65] /\
  DataIn [x00; x05; x61] [x62; x63; x64; x65] = None /\
  Key [x00; x05; x61] = None.
Proof. repeat split; reflexivity. Qed.

(** ** What a merger writes *)

Lemma LenNoPadding_perm (b1 b2 : Buffer) : b1 ≡ₚ b2 -> LenNoPadding b1 = LenNoPadding b2.
Proof. induction 1; simpl; lia. Qed.

Lemma Forall_removelast_cons {A} (P : A -> Prop) x l :
  P x -> Forall P (removelast l) -> Forall P (removelast (x :: l)).
Proof. destruct l; [constructor|]. intros. by constructor. Qed.

Section MergerProperties.
Context `{WriterDeps}.

Lemma writeNow_cases nextId mbuf :
  (mbuf = [] /\ writeNow nextId mbuf = (nextId, None)) \/
  (mbuf <> [] /\ exists id f,
     writeNow nextId mbuf = (id, Some f) /\ holds f (SortSlice entryLess mbuf)).
Proof.
  destruct mbuf as [|s mbuf]; [by left|]. right. split; [done|].
  unfold writeNow, writeToDisk. cbn [IsEmpty].
  destruct (SortSlice entryLess (s :: mbuf)) as [|s' l] eqn:E.
  { pose proof (SortSlice_perm (s :: mbuf)) as Hp. rewrite E in Hp.
    by apply Permutation_nil_cons in Hp. }
  cbn [IsEmpty]. eexists _, _. split; [reflexivity|]. by split.
Qed.

Lemma mergeAndSend_bodies slots nextId mbuf writeCh :
  exists bodies,
    Forall2 (fun f entries => holds f entries /\ entries <> [] /\
                              StronglySorted entryLe entries)
            (snd (mergeAndSend slots nextId mbuf writeCh)) bodies /\
    concat bodies ≡ₚ mbuf ++ concat writeCh /\
    Forall (fun entries => mapFileSz / 4 <= LenNoPadding entries) (removelast bodies).
Proof.
  assert (Hnow : forall id b, exists bs,
            Forall2 (fun f entries => holds f entries /\ entries <> [] /\
                                      StronglySorted entryLe entries)
                    (option_list (snd (writeNow id b))) bs /\
            concat bs ≡ₚ b /\
            (bs = [] \/ bs = [SortSlice entryLess b])).
  { intros id b. destruct (writeNow_cases id b) as [[-> ->]|(Hne & id' & f & -> & Hh)].
    - exists []. simpl. split; [constructor|]. split; [done|by left].
    - exists [SortSlice entryLess b]. simpl. split.
      + constructor; [|constructor]. split; [done|]. split; [|apply SortSlice_sorted].
        intros E. pose proof (SortSlice_perm b) as Hp. rewrite E in Hp.
        apply Permutation_nil in Hp. done.
      + split; [|by right]. rewrite app_nil_r. apply SortSlice_perm. }
  revert slots nextId mbuf. induction writeCh as [|buf writeCh IH]; intros slots nextId mbuf.
  - simpl. destruct (Hnow nextId mbuf) as (bs & Hf & Hp & Hbs).
    destruct (writeNow nextId mbuf) as [id f]. exists bs. simpl in *.
    split; [done|]. split; [by rewrite app_nil_r|].
    destruct Hbs as [->| ->]; constructor.
  - cbn [mergeAndSend concat].
    set (mb := mbuf ++ buf).
    assert (Hwrite : mapFileSz / 4 <= LenNoPadding mb -> forall sl,
              exists bodies,
                Forall2 (fun f entries => holds f entries /\ entries <> [] /\
                                          StronglySorted entryLe entries)
                  (snd (let '(nextId0, f) := writeNow nextId mb in
                        let '(nextId1, fs) := mergeAndSend sl nextId0 [] writeCh in
                        (nextId1, option_list f ++ fs))) bodies /\
                concat bodies ≡ₚ mbuf ++ buf ++ concat writeCh /\
                Forall (fun entries => mapFileSz / 4 <= LenNoPadding entries)
                       (removelast bodies)).
    { intros Hsz sl. destruct (Hnow nextId mb) as (bs & Hf & Hp & Hbs).
      destruct (writeNow nextId mb) as [id f].
      destruct (IH sl id []) as (bodies & Hf' & Hp' & Hs').
      destruct (mergeAndSend sl id [] writeCh) as [id1 fs].
      exists (bs ++ bodies). simpl in *. split; [by apply Forall2_app|].
      split.
      - rewrite concat_app, Hp, Hp'. subst mb. by rewrite app_assoc.
      - destruct Hbs as [->| ->]; [done|]. simpl app.
        apply Forall_removelast_cons; [|done].
        by rewrite (LenNoPadding_perm _ _ (SortSlice_perm mb)). }
    assert (Hkeep : forall sl,
              exists bodies,
                Forall2 (fun f entries => holds f entries /\ entries <> [] /\
                                          StronglySorted entryLe entries)
                  (snd (mergeAndSend sl nextId mb writeCh)) bodies /\
                concat bodies ≡ₚ mbuf ++ buf ++ concat writeCh /\
                Forall (fun entries => mapFileSz / 4 <= LenNoPadding entries)
                       (removelast bodies)).
    { intros sl. destruct (IH sl nextId mb) as (bodies & Hf & Hp & Hs).
      exists bodies. split; [done|]. split; [|done]. subst mb.
      by rewrite Hp, app_assoc. }
    pose proof (LenNoPadding_nonneg mb) as Hpos.
    destruct (mapFileSz <=? LenNoPadding mb) eqn:E1.
    + apply Z.leb_le in E1. apply Hwrite.
      destruct (Z_le_dec 0 mapFileSz).
      * assert (mapFileSz / 4 <= mapFileSz) by (apply Z.div_le_upper_bound; lia). lia.
      * assert (mapFileSz / 4 <= 0) by (apply Z.div_le_upper_bound; lia). lia.
    + destruct (mapFileSz / 4 <=? LenNoPadding mb) eqn:E2.
      * apply Z.leb_le in E2. destruct slots as [|[|] slots].
        -- apply Hkeep.
        -- by apply Hwrite.
        -- apply Hkeep.
      * apply Hkeep.
Qed.

End MergerProperties.

(** X14: a merger writes every entry it receives into exactly one map
    file.  The files it writes hold, taken together, the entries it held at
    the start and those of the buffers received, each once; no file is
    written for no entry, and in each file the entries are in the order
    [writeNow] sorted them. *)
Theorem merger_writes_every_entry `{WriterDeps} slots nextId mbuf writeCh :
  exists bodies,
    Forall2 (fun f entries => holds f entries /\ entries <> [] /\
                              StronglySorted entryLe entries)
            (snd (mergeAndSend slots nextId mbuf writeCh)) bodies /\
    concat bodies ≡ₚ mbuf ++ concat writeCh.
Proof.
  destruct (mergeAndSend_bodies slots nextId mbuf writeCh) as (bodies & Hf & Hp & _).
  by exists bodies.
Qed.

Lemma mergeAndSend_mergeLoop `{WriterDeps} slots nextId mbuf writeCh :
  mergeAndSend slots nextId mbuf writeCh
  = (fst (writeNow (mg_nextId (mergeLoop slots nextId mbuf writeCh))
                   (mg_mbuf (mergeLoop slots nextId mbuf writeCh))),
     mg_files (mergeLoop slots nextId mbuf writeCh)
     ++ option_list (snd (writeNow (mg_nextId (mergeLoop slots nextId mbuf writeCh))
                                   (mg_mbuf (mergeLoop slots nextId mbuf writeCh))))).
Proof.
  revert slots nextId mbuf. induction writeCh as [|buf writeCh IH]; intros slots nextId mbuf.
  { cbn [mergeAndSend mergeLoop mg_nextId mg_mbuf mg_files app].
    by destruct (writeNow nextId mbuf). }
  cbn [mergeAndSend mergeLoop].
  assert (Hwrite : forall sl,
            (let '(nextId0, f) := writeNow nextId (mbuf ++ buf) in
             let '(nextId1, fs) := mergeAndSend sl nextId0 [] writeCh in
             (nextId1, option_list f ++ fs))
            = (let r := (let '(nextId0, f) := writeNow nextId (mbuf ++ buf) in
                         let r := mergeLoop sl nextId0 [] writeCh in
                         {| mg_slots := mg_slots r; mg_nextId := mg_nextId r;
                            mg_mbuf := mg_mbuf r;
                            mg_files := option_list f ++ mg_files r |}) in
               (fst (writeNow (mg_nextId r) (mg_mbuf r)),
                mg_files r ++ option_list (snd (writeNow (mg_nextId r) (mg_mbuf r)))))).
  { intros sl. destruct (writeNow nextId (mbuf ++ buf)) as [id f].
    rewrite IH. cbn [mg_nextId mg_mbuf mg_files]. by rewrite app_assoc. }
  destruct (mapFileSz <=? LenNoPadding (mbuf ++ buf)); [apply Hwrite|].
  destruct (mapFileSz / 4 <=? LenNoPadding (mbuf ++ buf)); [|apply IH].
  destruct slots as [|[|] slots]; [apply IH|apply Hwrite|apply IH].
Qed.

Lemma mergeLoop_files `{WriterDeps} slots nextId mbuf writeCh :
  exists bodies,
    Forall2 (fun f entries => holds f entries /\ mapFileSz / 4 <= LenNoPadding entries)
            (mg_files (mergeLoop slots nextId mbuf writeCh)) bodies.
Proof.
  revert slots nextId mbuf. induction writeCh as [|buf writeCh IH]; intros slots nextId mbuf.
  { exists []. constructor. }
  cbn [mergeLoop]. set (mb := mbuf ++ buf).
  pose proof (LenNoPadding_nonneg mb) as Hpos.
  assert (Hwrite : mapFileSz / 4 <= LenNoPadding mb -> forall sl,
            exists bodies,
              Forall2 (fun f entries => holds f entries /\
                                        mapFileSz / 4 <= LenNoPadding entries)
                (mg_files (let '(nextId0, f) := writeNow nextId mb in
                           let r := mergeLoop sl nextId0 [] writeCh in
                           {| mg_slots := mg_slots r; mg_nextId := mg_nextId r;
                              mg_mbuf := mg_mbuf r;
                              mg_files := option_list f ++ mg_files r |})) bodies).
  { intros Hsz sl.
    destruct (writeNow_cases nextId mb) as [[_ ->]|(_ & id & f & -> & Hh)].
    - destruct (IH sl nextId []) as (bodies & Hf). by exists bodies.
    - destruct (IH sl id []) as (bodies & Hf).
      exists (SortSlice entryLess mb :: bodies). cbn [mg_files option_list app].
      constructor; [|done]. split; [done|].
      by rewrite (LenNoPadding_perm _ _ (SortSlice_perm mb)). }
  destruct (mapFileSz <=? LenNoPadding mb) eqn:E1.
  - apply Z.leb_le in E1. apply Hwrite.
    destruct (Z_le_dec 0 mapFileSz).
    + assert (mapFileSz / 4 <= mapFileSz) by (apply Z.div_le_upper_bound; lia). lia.
    + assert (mapFileSz / 4 <= 0) by (apply Z.div_le_upper_bound; lia). lia.
  - destruct (mapFileSz / 4 <=? LenNoPadding mb) eqn:E2; [|apply IH].
    apply Z.leb_le in E2.
    destruct slots as [|[|] slots]; [apply IH|by apply Hwrite|apply IH].
Qed.

Lemma mergeLoop_held `{WriterDeps} slots nextId mbuf writeCh :
  mbuf = [] \/ LenNoPadding mbuf < mapFileSz \/ writeCh <> [] ->
  mg_mbuf (mergeLoop slots nextId mbuf writeCh) = [] \/
  LenNoPadding (mg_mbuf (mergeLoop slots nextId mbuf writeCh)) < mapFileSz.
Proof.
  revert slots nextId mbuf. induction writeCh as [|buf writeCh IH]; intros slots nextId mbuf.
  { cbn [mergeLoop mg_mbuf]. intros [?|[?|?]]; [by left|by right|done]. }
  intros _. cbn [mergeLoop]. set (mb := mbuf ++ buf).
  assert (Hwrite : forall sl,
            mg_mbuf (let '(nextId0, f) := writeNow nextId mb in
                     let r := mergeLoop sl nextId0 [] writeCh in
                     {| mg_slots := mg_slots r; mg_nextId := mg_nextId r;
                        mg_mbuf := mg_mbuf r;
                        mg_files := option_list f ++ mg_files r |}) = [] \/
            LenNoPadding
              (mg_mbuf (let '(nextId0, f) := writeNow nextId mb in
                        let r := mergeLoop sl nextId0 [] writeCh in
                        {| mg_slots := mg_slots r; mg_nextId := mg_nextId r;
                           mg_mbuf := mg_mbuf r;
                           mg_files := option_list f ++ mg_files r |})) < mapFileSz).
  { intros sl. destruct (writeNow nextId mb) as [id f]. cbn [mg_mbuf].
    apply IH. by left. }
  destruct (mapFileSz <=? LenNoPadding mb) eqn:E1; [apply Hwrite|].
  apply Z.leb_gt in E1.
  destruct (mapFileSz / 4 <=? LenNoPadding mb).
  - destruct slots as [|[|] slots]; [|apply Hwrite|]; apply IH; right; by left.
  - apply IH. right. by left.
Qed.

(** X15: a merger does not write small files while it receives.  Every
    file its loop writes, before the channel is closed, holds entries of at
    least [mapFileSz / 4] bytes, counted as [LenNoPadding] counts them.
    The files of the merger are these, followed by the file [writeNow]
    writes at the close for the buffer the loop still holds, the only file
    that may be smaller; and once a buffer was received the buffer held is
    empty or below [mapFileSz], a buffer that reaches [mapFileSz] being
    written at once. *)
Theorem merger_file_sizes `{WriterDeps} slots nextId mbuf writeCh :
  (exists bodies,
     Forall2 (fun f entries => holds f entries /\ mapFileSz / 4 <= LenNoPadding entries)
             (mg_files (mergeLoop slots nextId mbuf writeCh)) bodies) /\
  snd (mergeAndSend slots nextId mbuf writeCh)
  = mg_files (mergeLoop slots nextId mbuf writeCh)
    ++ option_list (snd (writeNow (mg_nextId (mergeLoop slots nextId mbuf writeCh))
                                  (mg_mbuf (mergeLoop slots nextId mbuf writeCh)))) /\
  (writeCh <> [] ->
   mg_mbuf (mergeLoop slots nextId mbuf writeCh) = [] \/
   LenNoPadding (mg_mbuf (mergeLoop slots nextId mbuf writeCh)) < mapFileSz).
Proof.
  split; [apply mergeLoop_files|]. split.
  - by rewrite mergeAndSend_mergeLoop.
  - intros Hne. apply mergeLoop_held. right. by right.
Qed.

(** ** The order of a file does not depend on the order of arrival *)

#[global] Instance keyLe_antisym : AntiSymm (=) keyLe.
Proof.
  intros a b Hab Hba. unfold keyLe in *. rewrite (CompareKeys_antisym a b) in Hba.
  apply CompareKeys_eq. lia.
Qed.

Lemma sorted_keys entries :
  StronglySorted entryLe entries -> StronglySorted keyLe (map mustKey entries).
Proof.
  induction 1 as [|x l Hs IH Hx]; simpl; constructor; [done|].
  apply Forall_map. eapply Forall_impl; [exact Hx|]. done.
Qed.

(** X16: the keys of a map file, in the order of the file, depend on the
    entries the merger held and not on the order in which they arrived:
    two buffers holding the same entries are sorted by [writeNow] into the
    same sequence of keys. *)
Theorem sorted_keys_canonical mbuf1 mbuf2 :
  Forall (fun me => wellFramed me = true) mbuf1 ->
  mbuf1 ≡ₚ mbuf2 ->
  omap Key (SortSlice entryLess mbuf1) = omap Key (SortSlice entryLess mbuf2) /\
  length (omap Key (SortSlice entryLess mbuf1)) = length mbuf1.
Proof.
  intros Hw Hp.
  assert (Hw2 : Forall (fun me => wellFramed me = true) mbuf2) by (by rewrite <- Hp).
  assert (Hk : forall b, Forall (fun me => wellFramed me = true) b ->
                         omap Key (SortSlice entryLess b)
                         = map mustKey (SortSlice entryLess b)).
  { intros b Hb. apply omap_Key_wellFramed.
    eapply wellFramed_perm; [apply SortSlice_perm|done]. }
  rewrite !Hk by done. split.
  - apply (StronglySorted_unique keyLe).
    + apply sorted_keys, SortSlice_sorted.
    + apply sorted_keys, SortSlice_sorted.
    + apply Permutation_map. by rewrite !SortSlice_perm.
  - rewrite length_map. apply Permutation_length, SortSlice_perm.
Qed.

Lemma sorted_keys_canonical_witness :
  omap Key (SortSlice entryLess unsortedEntries)
  = omap Key (SortSlice entryLess (rev unsortedEntries)).
Proof.
  apply (sorted_keys_canonical unsortedEntries (rev unsortedEntries)).
  - repeat constructor.
  - apply Permutation_rev.
Defined.

(** ** The drop operations *)

Section DropOperations.
Context `{PlanDeps}.

Lemma foldDropOps_sets_of ops st st' :
  foldDropOps ops st = (st', Ok tt) ->
  dropAll st' = dropAll st || existsb isDropAll ops /\
  (forall ns, ns ∈ ps_dropNs st' <->
              ns ∈ ps_dropNs st \/ exists op, In op ops /\ dropsData ns op) /\
  (forall p, p ∈ dropAttr st' <->
             p ∈ dropAttr st \/ exists op, In op ops /\ dropsAttr p op) /\
  (forall ns, In ns (banned st') <->
              In ns (banned st) \/ exists op, In op ops /\ bansNs ns op).
Proof.
  revert st. induction ops as [|op ops IH]; intros st; simpl.
  { intros [= <-]. rewrite orb_false_r. repeat split; try tauto; by intros [?|(? & [] & _)]. }
  unfold dropsData, dropsAttr, bansNs in *. unfold isDropAll at 1.
  destruct (DropOp op) eqn:Eo.
  - intros E. destruct (IH _ E) as (Ha & Hn & Hp & Hb). simpl in *.
    split; [rewrite Ha; by rewrite !orb_true_r|].
    split; [|split]; intros x; [rewrite Hn|rewrite Hp|rewrite Hb];
      (split; intros [?|(op' & Hin & Hop)]; [by left|right; exists op'; by auto|by left|]);
      (destruct Hin as [<-|Hin]; [destruct Hop as [Hop _]; congruence|right; by exists op']).
  - destruct (String.eqb (DropValue op) "") eqn:Ee.
    + intros E. destruct (IH _ E) as (Ha & Hn & Hp & Hb). simpl in *.
      split; [rewrite Ha; by rewrite !orb_true_r|].
      split; [|split]; intros x; [rewrite Hn|rewrite Hp|rewrite Hb];
        (split; intros [?|(op' & Hin & Hop)]; [by left|right; exists op'; by auto|by left|]);
        (destruct Hin as [<-|Hin];
           [destruct Hop as [Hop Hop']; try congruence; destruct Hop'; congruence
           |right; by exists op']).
    + destruct (ParseUint (DropValue op)) as [ns0|e] eqn:Epu; [|by intros [= <-]].
      intros E. destruct (IH _ E) as (Ha & Hn & Hp & Hb). simpl in *.
      split; [done|].
      split; [|split]; intros x; [rewrite Hn|rewrite Hp|rewrite Hb].
      * rewrite elem_of_union, elem_of_singleton. split.
        -- intros [[->|?]|(op' & Hin & Hop)]; [right; exists op; by auto|by left|].
           right. exists op'. by auto.
        -- intros [?|(op' & [<-|Hin] & Hop)]; [left; by right| |right; by exists op'].
           left. left. destruct Hop as (_ & _ & Hop). congruence.
      * split; intros [?|(op' & Hin & Hop)]; [by left|right; exists op'; by auto|by left|].
        destruct Hin as [<-|Hin]; [destruct Hop; congruence|right; by exists op'].
      * split; intros [?|(op' & Hin & Hop)]; [by left|right; exists op'; by auto|by left|].
        destruct Hin as [<-|Hin]; [destruct Hop; congruence|right; by exists op'].
  - intros E. destruct (IH _ E) as (Ha & Hn & Hp & Hb). simpl in *.
    split; [done|].
    split; [|split]; intros x; [rewrite Hn|rewrite Hp|rewrite Hb].
    + split; intros [?|(op' & Hin & Hop)]; [by left|right; exists op'; by auto|by left|].
      destruct Hin as [<-|Hin]; [destruct Hop; congruence|right; by exists op'].
    + rewrite elem_of_union, elem_of_singleton. split.
      * intros [[->|?]|(op' & Hin & Hop)]; [right; exists op; by auto|by left|].
        right. exists op'. by auto.
      * intros [?|(op' & [<-|Hin] & Hop)]; [left; by right| |right; by exists op'].
        left. left. by destruct Hop as (_ & <-).
    + split; intros [?|(op' & Hin & Hop)]; [by left|right; exists op'; by auto|by left|].
      destruct Hin as [<-|Hin]; [destruct Hop; congruence|right; by exists op'].
  - destruct (ParseUint (DropValue op)) as [ns0|e] eqn:Epu; [|by intros [= <-]].
    destruct (BanNamespace ns0); [by intros [= <-]|].
    intros E. destruct (IH _ E) as (Ha & Hn & Hp & Hb). simpl in *.
    split; [done|].
    split; [|split]; intros x; [rewrite Hn|rewrite Hp|rewrite Hb].
    + split; intros [?|(op' & Hin & Hop)]; [by left|right; exists op'; by auto|by left|].
      destruct Hin as [<-|Hin]; [destruct Hop; congruence|right; by exists op'].
    + split; intros [?|(op' & Hin & Hop)]; [by left|right; exists op'; by auto|by left|].
      destruct Hin as [<-|Hin]; [destruct Hop; congruence|right; by exists op'].
    + rewrite in_app_iff. simpl. split.
      * intros [[?|[<-|[]]]|(op' & Hin & Hop)]; [by left|right; exists op; by auto|].
        right. exists op'. by auto.
      * intros [?|(op' & [<-|Hin] & Hop)]; [left; by left| |right; by exists op'].
        left. right. left. destruct Hop as (_ & Hop). congruence.
Qed.

End DropOperations.

(** X17: when the loop over the drop operations of a manifest ends
    without an error, [dropAll] is set exactly when it was or an operation
    is DROP_ALL or DROP_DATA with no namespace; [dropNs] has gained exactly
    the namespaces of the other DROP_DATA operations, [dropAttr] exactly the
    predicates of the DROP_ATTR operations, and the namespaces banned are
    exactly those of the DROP_NS operations.  No kind of operation touches
    the set of another. *)
Theorem foldDropOps_sets `{PlanDeps} ops st :
  snd (foldDropOps ops st) = Ok tt ->
  dropAll (fst (foldDropOps ops st)) = dropAll st || existsb isDropAll ops /\
  (forall ns, ns ∈ ps_dropNs (fst (foldDropOps ops st)) <->
              ns ∈ ps_dropNs st \/ exists op, In op ops /\ dropsData ns op) /\
  (forall p, p ∈ dropAttr (fst (foldDropOps ops st)) <->
             p ∈ dropAttr st \/ exists op, In op ops /\ dropsAttr p op) /\
  (forall ns, In ns (banned (fst (foldDropOps ops st))) <->
              In ns (banned st) \/ exists op, In op ops /\ bansNs ns op).
Proof.
  intros E. apply foldDropOps_sets_of.
  destruct (foldDropOps ops st) as [st' r]. simpl in E. by subst r.
Qed.

Lemma foldDropOps_sets_witness :
  snd (foldDropOps (H := testEnv []) (DropOperations dropManifest) planStart) = Ok tt /\
  dropAll (fst (foldDropOps (H := testEnv []) (DropOperations dropManifest) planStart))
  = false.
Proof.
  assert (E : snd (foldDropOps (H := testEnv []) (DropOperations dropManifest) planStart)
              = Ok tt) by (vm_compute; reflexivity).
  split; [exact E|].
  destruct (foldDropOps_sets (H := testEnv []) _ _ E) as (Ha & _).
  rewrite Ha. reflexivity.
Defined.

(** ** The walk over the manifests *)

Section PlanWalk.
Context `{PlanDeps} `{ProcDeps}.
Variables (req : RestoreRequest) (h : UriHandler) (encKey : bytes).
Variables (manifest0 : Manifest) (all : list Manifest).

(** An invariant [I i st] of the loop, at the head of the turn for the
    [i]-th manifest, and what it gives on every way out, [K st]. *)
Variable I : nat -> planState -> Prop.
Variable K : planState -> Prop.

Hypothesis HK : forall i st, I i st -> K st.
Hypothesis Hcont : forall i st m,
  all !! i = Some m -> IncrementalFrom req <= BackupNum m -> dropAll st = false ->
  processed m = false -> I i st -> I (S i) st.
Hypothesis Hmap : forall i st m reqs,
  all !! i = Some m -> IncrementalFrom req <= BackupNum m -> dropAll st = false ->
  processed m = true -> is_Some (Groups m !! GroupId req) -> I i st ->
  I i (sendAll st i
         {| preds := getPredsInGroup manifest0 (GroupId req) ∖ dropAttr st;
            dropNs := ps_dropNs st; version := m_Version m;
            keepSchema := Nat.eqb i 0 |} reqs).
Hypothesis Hfold : forall i st m st' r,
  all !! i = Some m -> IncrementalFrom req <= BackupNum m -> dropAll st = false ->
  processed m = true -> I i st ->
  foldDropOps (DropOperations m) st = (st', r) ->
  K st' /\ (r = Ok tt -> I (S i) st').

Lemma planLoop_walk pre manifests st st' r :
  all = pre ++ manifests ->
  planLoop req h encKey manifest0 (length pre) manifests st = (st', r) ->
  I (length pre) st -> K st'.
Proof.
  revert pre st. induction manifests as [|m manifests IH]; intros pre st Hall; simpl.
  { intros [= <- <-]. apply HK. }
  assert (Hm : all !! length pre = Some m) by (rewrite Hall; apply list_lookup_middle; done).
  assert (Hnext : forall st1, planLoop req h encKey manifest0 (S (length pre)) manifests st1
                              = (st', r) -> I (S (length pre)) st1 -> K st').
  { intros st1 E Hi. apply (IH (pre ++ [m]) st1).
    - by rewrite <- app_assoc.
    - rewrite length_app. simpl. by rewrite Nat.add_1_r.
    - rewrite length_app. simpl. by rewrite Nat.add_1_r. }
  destruct (BackupNum m <? IncrementalFrom req) eqn:Eb; [intros [= <- <-]; apply HK|].
  apply Z.ltb_ge in Eb.
  destruct (dropAll st) eqn:Ed; [intros [= <- <-]; apply HK|].
  destruct ((ValidReadTs m =? 0) || (Z.of_nat (size (Groups m)) =? 0)) eqn:Ep.
  { intros E Hi. apply (Hnext _ E). apply (Hcont _ _ m); try done.
    unfold processed. by rewrite Ep. }
  assert (Hp : processed m = true) by (unfold processed; by rewrite Ep).
  destruct (match Groups m !! GroupId req with
            | Some _ => mapGroup h encKey manifest0 (length pre) m (GroupId req) st
            | None => (st, Ok tt)
            end) as [st1 r1] eqn:E1.
  intros E Hi.
  assert (H1 : I (length pre) st1 /\ dropAll st1 = false).
  { destruct (Groups m !! GroupId req) as [g|] eqn:Eg; [|by injection E1 as <- <-].
    unfold mapGroup in E1.
    destruct (br_err _); [by injection E1 as <- <-|].
    destruct (Map _ _) as [reqs r0].
    assert (st1 = sendAll st (length pre)
              {| preds := getPredsInGroup manifest0 (GroupId req) ∖ dropAttr st;
                 dropNs := ps_dropNs st; version := m_Version m;
                 keepSchema := Nat.eqb (length pre) 0 |} reqs) as ->.
    { destruct r0 as [[]|e].
      - destruct (Close _); by injection E1 as <- <-.
      - by injection E1 as <- <-. }
    split; [|done]. by apply (Hmap _ _ m). }
  destruct H1 as [H1 Hd1].
  destruct r1 as [[]|e]; [|injection E as <- <-; by apply (HK (length pre))].
  destruct (foldDropOps (DropOperations m) st1) as [st2 r2] eqn:E2.
  destruct (Hfold _ _ _ _ _ Hm Eb Hd1 Hp H1 E2) as [Hk2 Hi2].
  destruct r2 as [[]|e]; [|by injection E as <- <-].
  apply (Hnext _ E). by apply Hi2.
Qed.

End PlanWalk.

Lemma droppedBefore_S all i m P :
  all !! i = Some m ->
  droppedBefore all (S i) P <->
  droppedBefore all i P \/
  (processed m = true /\ exists op, In op (DropOperations m) /\ P op).
Proof.
  intros Hm. unfold droppedBefore. split.
  - intros (j & m' & op & Hj & Hm' & Hp & Hin & HP).
    destruct (Nat.eq_dec j i) as [->|Hne].
    + right. rewrite Hm in Hm'. injection Hm' as <-. split; [done|by exists op].
    + left. exists j, m', op. repeat split; try done. lia.
  - intros [(j & m' & op & Hj & Hm' & Hp & Hin & HP)|(Hp & op & Hin & HP)].
    + exists j, m', op. repeat split; try done. lia.
    + exists i, m, op. repeat split; try done. lia.
Qed.

Section PlanDescriptors.
Context `{PlanDeps} `{ProcDeps}.
Variables (req : RestoreRequest) (h : UriHandler) (encKey : bytes).

Lemma plan_dropInv manifest0 all pre manifests st st' r :
  all = pre ++ manifests ->
  planLoop req h encKey manifest0 (length pre) manifests st = (st', r) ->
  dropInv req manifest0 all (length pre) st ->
  Forall (descriptorOf req all manifest0) (mapCalls st').
Proof.
  apply (planLoop_walk req h encKey manifest0 all (dropInv req manifest0 all)
           (fun st => Forall (descriptorOf req all manifest0) (mapCalls st))).
  - by intros i s (_ & _ & _ & Hc).
  - intros i s m Hm _ _ Hp (Ha & Hn & Hat & Hc).
    assert (HS : forall P, droppedBefore all (S i) P <-> droppedBefore all i P).
    { intros P. rewrite (droppedBefore_S _ _ _ _ Hm). rewrite Hp. intuition congruence. }
    split; [rewrite HS; exact Ha|]. split; [intros x; rewrite HS; apply Hn|].
    split; [intros x; rewrite HS; apply Hat|done].
  - intros i s m reqs Hm _ Hd Hp _ (Ha & Hn & Hat & Hc).
    split; [exact Ha|]. split; [exact Hn|]. split; [exact Hat|].
    simpl. apply Forall_app. split; [done|]. constructor; [|constructor].
    unfold descriptorOf. simpl. split; [done|]. split.
    + intros p. rewrite elem_of_difference, Hat. done.
    + intros Hx. apply Ha in Hx. congruence.
  - intros i s m s' r0 Hm _ Hd Hp (Ha & Hn & Hat & Hc) E.
    destruct (foldDropOps_calls _ _ _ _ E) as [Ec _].
    split; [by rewrite Ec|]. intros ->.
    destruct (foldDropOps_sets_of _ _ _ E) as (Ha' & Hn' & Hat' & _).
    split; [|split; [|split; [|by rewrite Ec]]].
    + rewrite Ha', Hd, (droppedBefore_S _ _ _ _ Hm). simpl. split.
      * intros Hex. right. split; [done|].
        apply existsb_exists in Hex as (op & ? & ?). by exists op.
      * intros [Hx|(_ & op & Hin & Hop)].
        -- apply Ha in Hx. congruence.
        -- apply existsb_exists. by exists op.
    + intros x. rewrite Hn', (droppedBefore_S _ _ _ _ Hm), Hn. rewrite Hp. tauto.
    + intros x. rewrite Hat', (droppedBefore_S _ _ _ _ Hm), Hat. rewrite Hp. tauto.
Qed.

Lemma plan_mappedFrom manifest0 all pre manifests st st' r :
  all = pre ++ manifests ->
  planLoop req h encKey manifest0 (length pre) manifests st = (st', r) ->
  Forall (fun m' => IncrementalFrom req <= BackupNum m') (take (length pre) all) /\
  Forall (mappedFrom req all) (mapCalls st) ->
  Forall (mappedFrom req all) (mapCalls st').
Proof.
  assert (Htake : forall i m, all !! i = Some m -> IncrementalFrom req <= BackupNum m ->
            Forall (fun m' => IncrementalFrom req <= BackupNum m') (take i all) ->
            Forall (fun m' => IncrementalFrom req <= BackupNum m') (take (S i) all)).
  { intros i m Hm Hb Hf. rewrite (take_S_r _ _ _ Hm). apply Forall_app.
    split; [done|by repeat constructor]. }
  apply (planLoop_walk req h encKey manifest0 all
           (fun i st => Forall (fun m' => IncrementalFrom req <= BackupNum m') (take i all) /\
                        Forall (mappedFrom req all) (mapCalls st))
           (fun st => Forall (mappedFrom req all) (mapCalls st))).
  - by intros i s [_ Hc].
  - intros i s m Hm Hb _ _ [Hf Hc]. split; [by apply (Htake i m)|done].
  - intros i s m reqs Hm Hb _ Hp Hg [Hf Hc]. split; [done|].
    simpl. apply Forall_app. split; [done|]. constructor; [|constructor].
    exists m. simpl. repeat split; try done. by apply (Htake i m).
  - intros i s m s' r0 Hm Hb _ _ [Hf Hc] E.
    destruct (foldDropOps_calls _ _ _ _ E) as [Ec _]. rewrite Ec.
    split; [done|]. intros _. split; [by apply (Htake i m)|done].
Qed.

End PlanDescriptors.

(** X18: the descriptor handed to [Map] for an archive holds the drops of
    the newer manifests, and of those only.  Its [dropNs] is the set of the
    namespaces of the DROP_DATA operations of the manifests that come before
    it in the chain and were not passed over; its [preds] is the set of the
    predicates of the request's group in the newest manifest, less those of
    the DROP_ATTR operations of these manifests; and no archive is mapped
    once one of these manifests holds a DROP_ALL, or a DROP_DATA with no
    namespace.  The operations of a manifest do not bear on its own
    archive. *)
Theorem descriptors_hold_newer_drops `{PlanDeps} req h encKey manifest0 rest :
  Forall (descriptorOf req (manifest0 :: rest) manifest0)
         (mapCalls (fst (plan req h encKey (manifest0 :: rest)))).
Proof.
  unfold plan.
  destruct (planLoop req h encKey manifest0 0 (manifest0 :: rest) planStart)
    as [st' r] eqn:E.
  apply (plan_dropInv req h encKey manifest0 (manifest0 :: rest) []
           (manifest0 :: rest) planStart st' r); [done|exact E|].
  assert (Hno : forall P, ~ droppedBefore (manifest0 :: rest) 0 P).
  { intros P (j & _ & _ & Hj & _). lia. }
  repeat split; try done; try (intros Hx; by apply Hno in Hx).
Qed.

(** X19: every archive handed to [Map] belongs to a manifest that passes
    the guards of the loop: it has a valid read timestamp and lists the
    group of the request, its backup number and those of all the manifests
    before it in the chain are at least [IncrementalFrom], and the
    descriptor carries the format version of that manifest, not of the
    newest one. *)
Theorem mapped_archives_pass_guards `{PlanDeps} req h encKey manifests :
  Forall (mappedFrom req manifests) (mapCalls (fst (plan req h encKey manifests))).
Proof.
  unfold plan. destruct manifests as [|manifest0 rest]; [constructor|].
  destruct (planLoop req h encKey manifest0 0 (manifest0 :: rest) planStart)
    as [st' r] eqn:E.
  apply (plan_mappedFrom req h encKey manifest0 (manifest0 :: rest) []
           (manifest0 :: rest) planStart st' r); [done|exact E|].
  split; constructor.
Qed.

(** ** From the requests to the mergers *)

Lemma flat_map_insert_one {A} (ws : list nat) (w0 : nat) (f : nat -> list A) (x : A) :
  NoDup ws ->
  flat_map (fun w => if Nat.eqb w0 w then x :: f w else f w) ws
  ≡ₚ (if bool_decide (w0 ∈ ws) then [x] else []) ++ flat_map f ws.
Proof.
  induction 1 as [|w ws Hw Hnd IH]; [done|]. cbn [flat_map].
  rewrite IH. destruct (Nat.eqb w0 w) eqn:E.
  - apply Nat.eqb_eq in E as ->.
    rewrite (bool_decide_eq_true_2 (w ∈ w :: ws)) by (by left).
    by rewrite (bool_decide_eq_false_2 (w ∈ ws)).
  - apply Nat.eqb_neq in E.
    destruct (bool_decide (w0 ∈ ws)) eqn:Ein.
    + apply bool_decide_eq_true in Ein.
      rewrite (bool_decide_eq_true_2 (w0 ∈ w :: ws)) by (by right).
      simpl. by rewrite Permutation_middle.
    + apply bool_decide_eq_false in Ein.
      rewrite bool_decide_eq_false_2; [done|].
      intros [->|Hin]%elem_of_cons; done.
Qed.

Section Scheduling.
Context `{PlanDeps}.

(** Every request sent on [reqCh] is taken by one worker, and by one
    only. *)
Lemma takenBy_perm sched i reqs :
  flat_map (fun w => takenBy sched w i reqs) (seq 0 (Z.to_nat numGo)) ≡ₚ reqs.
Proof.
  revert i. induction reqs as [|req reqs IH]; intros i.
  - simpl. induction (seq 0 (Z.to_nat numGo)) as [|w ws IHw]; done.
  - cbn [takenBy].
    rewrite (flat_map_insert_one _ (sched i mod Z.to_nat numGo)%nat
               (fun w => takenBy sched w (S i) reqs) req) by apply NoDup_seq.
    rewrite IH. rewrite bool_decide_eq_true_2; [done|].
    apply elem_of_seq. split; [lia|]. simpl. apply Nat.mod_upper_bound.
    pose proof numGo_pos. lia.
Qed.

End Scheduling.

(** X20: when no worker returns an error, the buffers the workers send to
    the mergers hold, taken together, exactly the entries of the records of
    all the requests sent on [reqCh], each once, whichever worker took
    which request. *)
Theorem all_entries_reach_mergers `{PlanDeps} `{ProcDeps} restoreTs sched reqs :
  waitAll (workers restoreTs sched reqs) = Ok tt ->
  concat (flat_map w_sent (workers restoreTs sched reqs))
  ≡ₚ flat_map (entriesOfReq restoreTs) reqs.
Proof.
  intros Hw.
  rewrite <- (Permutation_flat_map (entriesOfReq restoreTs) (takenBy_perm sched 0 reqs)).
  assert (Hall : forall w, In w (seq 0 (Z.to_nat numGo)) ->
            concat (w_sent (processReqCh restoreTs (takenBy sched w 0 reqs)))
            = flat_map (entriesOfReq restoreTs) (takenBy sched w 0 reqs)).
  { intros w Hin. apply processReqCh_Ok_sent.
    apply (waitAll_Ok _ _ Hw). unfold workers. apply in_map_iff. by exists w. }
  unfold workers in *. clear Hw.
  induction (seq 0 (Z.to_nat numGo)) as [|w ws IH]; [done|].
  cbn [map flat_map]. rewrite concat_app, flat_map_app.
  rewrite (Hall w) by (by left). rewrite IH; [done|].
  intros w' Hin. apply Hall. by right.
Qed.

Lemma all_entries_reach_mergers_witness :
  waitAll (workers (H := testEnv []) (H0 := testProc) 300 (fun i => i)
             [{| lbuf := fst (testArchive "backup-2"); lr_in := newestInput 2105 |}])
  = Ok tt /\
  concat (flat_map w_sent
            (workers (H := testEnv []) (H0 := testProc) 300 (fun i => i)
               [{| lbuf := fst (testArchive "backup-2"); lr_in := newestInput 2105 |}]))
  ≡ₚ flat_map (entriesOfReq (H := testProc) 300)
       [{| lbuf := fst (testArchive "backup-2"); lr_in := newestInput 2105 |}].
Proof.
  assert (E : waitAll (workers (H := testEnv []) (H0 := testProc) 300 (fun i => i)
                [{| lbuf := fst (testArchive "backup-2"); lr_in := newestInput 2105 |}])
              = Ok tt) by (vm_compute; reflexivity).
  split; [exact E|].
  exact (all_entries_reach_mergers (H := testEnv []) (H0 := testProc) 300 (fun i => i) _ E).
Defined.

(** ** The length written before an entry *)

Lemma lor_128 v :
  0 <= v < 256 -> Z.lor v 128 mod 128 = v mod 128 /\ 128 <= Z.lor v 128 < 256.
Proof.
  intros Hv.
  assert (Hall : forallb (fun n => let v := Z.of_nat n in
                            (Z.lor v 128 mod 128 =? v mod 128)
                            && (128 <=? Z.lor v 128) && (Z.lor v 128 <? 256))
                         (seq 0 256) = true) by (vm_compute; reflexivity).
  rewrite forallb_forall in Hall.
  specialize (Hall (Z.to_nat v)). rewrite Z2Nat.id in Hall by lia.
  cbv zeta in Hall.
  assert (Hin : In (Z.to_nat v) (seq 0 256)) by (apply in_seq; lia).
  apply Hall in Hin. apply andb_true_iff in Hin as [Hin H3].
  apply andb_true_iff in Hin as [H1 H2]. lia.
Qed.

Lemma PutUvarint_loop_value fuel x :
  (0 < fuel)%nat ->
  0 <= x < 2 ^ (7 * Z.of_nat fuel) ->
  sevenBits (PutUvarint_loop fuel x) = x /\
  exists front final,
    PutUvarint_loop fuel x = front ++ [final] /\
    Forall (fun b => continues b = true) front /\ continues final = false /\
    (length front < fuel)%nat.
Proof.
  revert x. induction fuel as [|fuel IH]; intros x Hfuel Hx; [lia|].
  cbn [PutUvarint_loop]. destruct (128 <=? x) eqn:E.
  - apply Z.leb_le in E.
    assert (Hpos : (0 < fuel)%nat).
    { destruct fuel; [|lia]. change (2 ^ (7 * Z.of_nat 1)) with 128 in Hx. lia. }
    assert (Hs : 0 <= Z.shiftr x 7 < 2 ^ (7 * Z.of_nat fuel)).
    { rewrite Z.shiftr_div_pow2 by lia. split; [apply Z.div_pos; lia|].
      apply Z.div_lt_upper_bound; [lia|].
      rewrite <- Z.pow_add_r by lia.
      replace (7 + 7 * Z.of_nat fuel) with (7 * Z.of_nat (S fuel)) by lia. lia. }
    destruct (IH _ Hpos Hs) as (Hv & front & final & Ef & Hc & Hl & Hn).
    assert (Hland : Z.land x 255 = x mod 256).
    { change 255 with (Z.ones 8). rewrite Z.land_ones by lia. done. }
    assert (Hm : 0 <= x mod 256 < 256) by (apply Z.mod_pos_bound; lia).
    destruct (lor_128 (x mod 256) Hm) as [Hl1 Hl2].
    assert (Hb : byte_to_Z (Z_to_byte (Z.lor (Z.land x 255) 128)) = Z.lor (x mod 256) 128).
    { rewrite byte_to_Z_to_byte, Hland. apply Z.mod_small. lia. }
    split.
    + cbn [sevenBits fold_right]. fold (sevenBits (PutUvarint_loop fuel (Z.shiftr x 7))).
      rewrite Hv, Hb, Hl1, Z.shiftr_div_pow2 by lia. change (2 ^ 7) with 128.
      replace (x mod 256 mod 128) with (x mod 128).
      * pose proof (Z.div_mod x 128). lia.
      * replace 256 with (128 * 2) by lia.
        rewrite Z.rem_mul_r by lia.
        rewrite Z.mul_comm, Z.mod_add by lia. symmetry. apply Z.mod_mod. lia.
    + exists (Z_to_byte (Z.lor (Z.land x 255) 128) :: front), final.
      rewrite Ef. split; [done|]. split; [|split; [done|simpl; lia]].
      constructor; [|done]. unfold continues. rewrite Hb. apply Z.leb_le. lia.
  - apply Z.leb_gt in E.
    assert (Hb : byte_to_Z (Z_to_byte x) = x).
    { rewrite byte_to_Z_to_byte. apply Z.mod_small. lia. }
    split.
    + cbn [sevenBits fold_right]. rewrite Hb, Z.mod_small by lia. lia.
    + exists [], (Z_to_byte x). split; [done|]. split; [constructor|].
      split; [|simpl; lia]. unfold continues. rewrite Hb. apply Z.leb_gt. lia.
Qed.

(** X21: the length [writeToDisk] writes before an entry can be read back:
    for a length that fits in 64 bits, [PutUvarint] gives between one and
    ten bytes, every byte but the last has its top bit set and the last has
    not, so that the end of the length is known from the bytes themselves,
    and the seven low bits of the bytes, least significant group first, are
    the length. *)
Theorem PutUvarint_reads_back x :
  0 <= x < 2 ^ 64 ->
  sevenBits (PutUvarint x) = x /\
  exists front final,
    PutUvarint x = front ++ [final] /\
    Forall (fun b => continues b = true) front /\ continues final = false /\
    (length front < 10)%nat.
Proof.
  intros Hx. apply (PutUvarint_loop_value MaxVarintLen64 x); [unfold MaxVarintLen64; lia|].
  change (2 ^ (7 * Z.of_nat MaxVarintLen64)) with (2 ^ 70). lia.
Qed.

Lemma PutUvarint_reads_back_witness :
  sevenBits (PutUvarint 300) = 300 /\ PutUvarint 300 = [xac; x02].
Proof.
  split; [|reflexivity].
  apply (PutUvarint_reads_back 300). lia.
Defined.
